(** * Minesweeper constraint-inference agents: a shallow embedding

    The development follows [csp_agent.py], [hybrid_agent.py] and
    [mcmc_agent.py].  Python sets of cells are [gset Cell], the ordered
    collection of sentences is a [list], Python integers are [Z], and the
    ratios [mine_counts[cell] / valid_worlds] are rationals [Q].

    Python does not specify the iteration order of a [set]; wherever the
    source iterates over one (or turns it into a list), the embedding uses
    [elements].  No proof below depends on the order [elements] picks: only
    on [elem_of_elements] and [NoDup_elements]. *)

From Stdlib Require Import ZArith QArith Lia.
From stdpp Require Import base option list sets fin_sets gmap.

Local Open Scope Z_scope.

(** A cell is a [(row, column)] pair of Python integers. *)
Abbreviation Cell := (Z * Z)%type.

(** ** [class Sentence] *)
Module Sentence.

Record t : Type := mk { cells : gset Cell; count : Z }.

(** [__eq__]: same cell set and same count. *)
#[global] Instance eq_dec : EqDecision t.
Proof. solve_decision. Defined.

(** [len(self.cells)] as a Python integer. *)
Definition len (s : t) : Z := Z.of_nat (size (cells s)).

Definition known_mines (s : t) : gset Cell :=
  if decide (len s = count s ∧ count s > 0) then cells s else ∅.

Definition known_safes (s : t) : gset Cell :=
  if decide (count s = 0) then cells s else ∅.

Definition mark_mine (cell : Cell) (s : t) : t :=
  if decide (cell ∈ cells s)
  then mk (cells s ∖ {[cell]}) (count s - 1)
  else s.

Definition mark_safe (cell : Cell) (s : t) : t :=
  if decide (cell ∈ cells s)
  then mk (cells s ∖ {[cell]}) (count s)
  else s.

(** The data-model invariant of the specification. *)
Definition well_formed (s : t) : Prop := 0 <= count s <= len s.

#[global] Instance well_formed_dec s : Decision (well_formed s).
Proof. unfold well_formed. apply _. Defined.

End Sentence.

(** ** [class CSPAgent] *)
Module CSPAgent.

(** The instance attributes set by [__init__] ([env] is not needed: the
    agent only reads [env.height] and [env.width] from it). *)
Record state : Type := mk {
  rows : Z;
  cols : Z;
  moves_made : gset Cell;
  mines : gset Cell;
  safes : gset Cell;
  knowledge : list Sentence.t
}.

Definition init (height width : Z) : state := mk height width ∅ ∅ ∅ [].

Definition mark_mine (cell : Cell) (st : state) : state :=
  if decide (cell ∈ mines st) then st
  else mk (rows st) (cols st) (moves_made st)
          ({[cell]} ∪ mines st) (safes st)
          (Sentence.mark_mine cell <$> knowledge st).

Definition mark_safe (cell : Cell) (st : state) : state :=
  if decide (cell ∈ safes st) then st
  else mk (rows st) (cols st) (moves_made st)
          (mines st) ({[cell]} ∪ safes st)
          (Sentence.mark_safe cell <$> knowledge st).

(** *** [add_knowledge] *)

(** [range(a, b)] *)
Definition range (a b : Z) : list Z := seqZ a (b - a).

(** The pairs [(r, c)] the two nested [for] loops over
    [range(cell[0]-1, cell[0]+2)] and [range(cell[1]-1, cell[1]+2)]
    run through, in loop order. *)
Definition window (cell : Cell) : list Cell :=
  r ← range (cell.1 - 1) (cell.1 + 2);
  c ← range (cell.2 - 1) (cell.2 + 2);
  [(r, c)].

(** The loop body, on the running [(cells, mines_found)]. *)
Definition scan_neighbor (st : state) (cell : Cell) (acc : list Cell * Z)
    (n : Cell) : list Cell * Z :=
  if decide (n = cell) then acc
  else if decide (0 <= n.1 < rows st ∧ 0 <= n.2 < cols st) then
    if decide (n ∈ mines st) then (acc.1, acc.2 + 1)
    else if decide (n ∉ safes st) then (acc.1 ++ [n], acc.2)
    else acc
  else acc.

Definition hidden_neighbors (st : state) (cell : Cell) : list Cell * Z :=
  foldl (scan_neighbor st cell) ([], 0) (window cell).

(** Steps 1 to 3 of [add_knowledge]: everything before the call to
    [infer_knowledge]. *)
Definition ingest (cell : Cell) (cnt : Z) (st : state) : state :=
  let st1 := mark_safe cell st in
  let st2 := mk (rows st1) (cols st1) ({[cell]} ∪ moves_made st1)
                (mines st1) (safes st1) (knowledge st1) in
  let '(cells, mines_found) := hidden_neighbors st2 cell in
  match cells with
  | [] => st2
  | _ :: _ =>
      let new_sentence := Sentence.mk (list_to_set cells) (cnt - mines_found) in
      mk (rows st2) (cols st2) (moves_made st2) (mines st2) (safes st2)
         (knowledge st2 ++ [new_sentence])
  end.

(** *** [infer_knowledge] *)

(** Part A: the two sets collected by the first [for] loop. *)
Definition safes_to_mark (K : list Sentence.t) : gset Cell :=
  foldl (λ acc s, acc ∪ Sentence.known_safes s) ∅ K.

Definition mines_to_mark (K : list Sentence.t) : gset Cell :=
  foldl (λ acc s, acc ∪ Sentence.known_mines s) ∅ K.

Definition mark_all_safe (S : gset Cell) (st : state) : state :=
  foldl (λ st safe, mark_safe safe st) st (elements S).

Definition mark_all_mine (S : gset Cell) (st : state) : state :=
  foldl (λ st mine, mark_mine mine st) st (elements S).

(** Part A as a whole.  When both sets are empty the two loops of the
    source are skipped; folding over two empty lists is the same. *)
Definition apply_marks (st : state) : state :=
  mark_all_mine (mines_to_mark (knowledge st))
    (mark_all_safe (safes_to_mark (knowledge st)) st).

(** Part B. *)
Definition remove_empty (K : list Sentence.t) : list Sentence.t :=
  filter (λ s, 0 < Sentence.len s) K.

(** Part C: the body of the inner loop, on the running [new_sentences]. *)
Definition subset_step (K : list Sentence.t) (s1 s2 : Sentence.t)
    (new_sentences : list Sentence.t) : list Sentence.t :=
  if decide (s1 = s2) then new_sentences
  else if decide (Sentence.cells s1 ⊆ Sentence.cells s2) then
    let diff_cells := Sentence.cells s2 ∖ Sentence.cells s1 in
    let diff_count := Sentence.count s2 - Sentence.count s1 in
    if decide (Z.of_nat (size diff_cells) > 0) then
      let new_s := Sentence.mk diff_cells diff_count in
      if decide ((new_s ∉ K) ∧ (new_s ∉ new_sentences))
      then new_sentences ++ [new_s]
      else new_sentences
    else new_sentences
  else new_sentences.

Definition subset_inference (K : list Sentence.t) : list Sentence.t :=
  foldl (λ new_sentences s1,
           foldl (λ new_sentences s2, subset_step K s1 s2 new_sentences)
                 new_sentences K)
        [] K.

(** One iteration of the [while changes] loop: the state it leaves and the
    value of [changes] at its end.  The flag is set in part A exactly when
    one of the two sets is non-empty, and in part C exactly when a
    sentence is appended to [new_sentences]. *)
Definition infer_pass (st : state) : state * bool :=
  let marked := bool_decide (safes_to_mark (knowledge st) ≠ ∅
                             ∨ mines_to_mark (knowledge st) ≠ ∅) in
  let st1 := apply_marks st in
  let K2 := remove_empty (knowledge st1) in
  let new_sentences := subset_inference K2 in
  (mk (rows st1) (cols st1) (moves_made st1) (mines st1) (safes st1)
      (K2 ++ new_sentences),
   marked || bool_decide (new_sentences ≠ [])).

(** The [while] loop, bounded by [fuel] iterations: [None] when the bound
    is reached with [changes] still set. *)
Fixpoint infer_knowledge (fuel : nat) (st : state) : option state :=
  match fuel with
  | O => None
  | S fuel' =>
      let '(st', changes) := infer_pass st in
      if changes then infer_knowledge fuel' st' else Some st'
  end.

Definition add_knowledge (fuel : nat) (cell : Cell) (cnt : Z) (st : state)
  : option state :=
  infer_knowledge fuel (ingest cell cnt st).

(** *** [get_action] *)

(** The observation: [obs[r, c]] for the cell [(r, c)]. *)
Definition Observation : Type := Cell → Z.

(** [(row, column, type)], with type 0 = reveal and 1 = flag. *)
Definition Action : Type := Z * Z * Z.

(** The cells visited by [for r in range(self.rows): for c in
    range(self.cols)], in loop order. *)
Definition grid (st : state) : list Cell :=
  r ← range 0 (rows st); c ← range 0 (cols st); [(r, c)].

(** The first loop of [get_action], over the cells still to visit. *)
Fixpoint sync (fuel : nat) (obs : Observation) (todo : list Cell)
    (st : state) : option state :=
  match todo with
  | [] => Some st
  | cell :: todo' =>
      st' ← (if decide (obs cell >= 0) then
               if decide (cell ∉ moves_made st)
               then add_knowledge fuel cell (obs cell) st
               else Some st
             else Some st);
      sync fuel obs todo' st'
  end.

(** [for safe in self.safes: if safe not in self.moves_made: return ...] *)
Definition safe_move (st : state) : option Action :=
  match filter (λ safe, safe ∉ moves_made st) (elements (safes st)) with
  | safe :: _ => Some (safe.1, safe.2, 0)
  | [] => None
  end.

(** [random.choice(seq)] is [seq[i]] for a random index [i] below
    [len(seq)]; [rnd] is the number drawn. *)
Definition random_choice {A} (rnd : nat) (seq : list A) : option A :=
  seq !! (rnd `mod` length seq)%nat.

Definition possible_moves (st : state) : list Cell :=
  filter (λ cell, (cell ∉ moves_made st) ∧ (cell ∉ mines st)) (grid st).

(** The agent after the call and the value returned ([None] inside is
    Python's [None]); the outer [None] is fuel running out. *)
Definition get_action (fuel rnd : nat) (obs : Observation) (st : state)
  : option (state * option Action) :=
  st1 ← sync fuel obs (grid st) st;
  match safe_move st1 with
  | Some a => Some (st1, Some a)
  | None =>
      match possible_moves st1 with
      | [] => Some (st1, None)
      | moves =>
          Some (st1, (λ move : Cell, (move.1, move.2, 0)) <$> random_choice rnd moves)
      end
  end.

End CSPAgent.

(** ** [class HybridAgent(CSPAgent)] *)
Module HybridAgent.
Import CSPAgent.

(** The random numbers one call of [get_action] may consume: the
    permutation picked by [random.shuffle], the index picked by
    [random.choice] on a list of cells, and the bit drawn by
    [random.choice([0, 1])] for component [k], sample [i] and a cell. *)
Record Random : Type := mkRandom {
  shuffle_seed : nat;
  choice_seed : nat;
  coin : nat → nat → Cell → Z
}.

(** [random.shuffle(l)] leaves some permutation of [l]. *)
Definition shuffle {A} (seed : nat) (l : list A) : list A :=
  default l (permutations l !! (seed `mod` length (permutations l))%nat).

Definition free (st : state) (cell : Cell) : Prop :=
  (cell ∉ moves_made st) ∧ (cell ∉ mines st).

#[global] Instance free_dec st cell : Decision (free st cell).
Proof. unfold free. apply _. Defined.

Definition reveal (cell : Cell) : Action := (cell.1, cell.2, 0).

Definition get_smart_guess (rnd : Random) (st : state) : option Action :=
  let corners := [(0, 0); (0, cols st - 1); (rows st - 1, 0);
                  (rows st - 1, cols st - 1)] in
  match filter (free st) (shuffle (shuffle_seed rnd) corners) with
  | cell :: _ => Some (reveal cell)
  | [] =>
      let edges :=
        filter (λ cell : Cell,
                  (cell.1 = 0 ∨ cell.1 = rows st - 1
                   ∨ cell.2 = 0 ∨ cell.2 = cols st - 1) ∧ free st cell)
               (grid st) in
      match edges with
      | _ :: _ => reveal <$> random_choice (choice_seed rnd) edges
      | [] =>
          match filter (free st) (grid st) with
          | [] => None
          | possible => reveal <$> random_choice (choice_seed rnd) possible
          end
      end
  end.

(** *** [get_components] *)

(** [{cell: set() for cell in fringe}] *)
Definition neighbors_init (fringe : list Cell) : gmap Cell (gset Cell) :=
  foldl (λ neighbors cell, <[cell := ∅]> neighbors) ∅ fringe.

(** The body of the [for j] loop. *)
Definition link (c1 c2 : Cell) (neighbors : gmap Cell (gset Cell))
  : gmap Cell (gset Cell) :=
  if decide (c1 ∈ dom neighbors ∧ c2 ∈ dom neighbors) then
    alter (λ ns, {[c1]} ∪ ns) c2 (alter (λ ns, {[c2]} ∪ ns) c1 neighbors)
  else neighbors.

(** [for i in range(len(s_cells)): for j in range(i+1, len(s_cells))] *)
Fixpoint link_pairs (s_cells : list Cell) (neighbors : gmap Cell (gset Cell))
  : gmap Cell (gset Cell) :=
  match s_cells with
  | [] => neighbors
  | c1 :: rest =>
      link_pairs rest (foldl (λ nb c2, link c1 c2 nb) neighbors rest)
  end.

Definition build_neighbors (K : list Sentence.t) (fringe : list Cell)
  : gmap Cell (gset Cell) :=
  foldl (λ nb s, link_pairs (elements (Sentence.cells s)) nb)
        (neighbors_init fringe) K.

(** The body of [for n in neighbors[curr]], on [(stack, visited)].  The
    stack is kept with its top first: [stack.append] is a cons and
    [stack.pop()] takes the head. *)
Definition visit_neighbor (acc : list Cell * gset Cell) (n : Cell)
  : list Cell * gset Cell :=
  if decide (n ∉ acc.2) then (n :: acc.1, {[n]} ∪ acc.2) else acc.

(** [while stack: ...], at most [fuel] iterations.  A missing key
    [neighbors[curr]] is Python's [KeyError], here [None] as well. *)
Fixpoint explore (fuel : nat) (neighbors : gmap Cell (gset Cell))
    (stack : list Cell) (visited component : gset Cell)
  : option (gset Cell * gset Cell) :=
  match stack with
  | [] => Some (component, visited)
  | curr :: stack' =>
      match fuel with
      | O => None
      | S fuel' =>
          ns ← neighbors !! curr;
          let acc := foldl visit_neighbor (stack', visited) (elements ns) in
          explore fuel' neighbors acc.1 acc.2 ({[curr]} ∪ component)
      end
  end.

(** [for cell in fringe: ...], over the cells still to visit. *)
Fixpoint collect (fuel : nat) (neighbors : gmap Cell (gset Cell))
    (todo : list Cell) (visited : gset Cell) (components : list (gset Cell))
  : option (list (gset Cell)) :=
  match todo with
  | [] => Some components
  | cell :: todo' =>
      if decide (cell ∈ visited) then
        collect fuel neighbors todo' visited components
      else
        r ← explore fuel neighbors [cell] ({[cell]} ∪ visited) ∅;
        collect fuel neighbors todo' r.2 (components ++ [r.1])
  end.

Definition get_components (fuel : nat) (K : list Sentence.t)
    (fringe : list Cell) : option (list (gset Cell)) :=
  collect fuel (build_neighbors K fringe) fringe ∅ [].

(** *** [check_consistent] and the two estimators *)

Definition lookup0 (assignment : gmap Cell Z) (cell : Cell) : Z :=
  default 0 (assignment !! cell).

(** The inner loop of [check_consistent]: [(mine_count, unknowns)]. *)
Definition count_assigned (assignment : gmap Cell Z) (s : Sentence.t)
  : Z * Z :=
  foldl (λ acc cell,
           match assignment !! cell with
           | Some v => (acc.1 + v, acc.2)
           | None => (acc.1, acc.2 + 1)
           end)
        (0, 0) (elements (Sentence.cells s)).

Definition sentence_ok (assignment : gmap Cell Z) (s : Sentence.t) : bool :=
  let '(mine_count, unknowns) := count_assigned assignment s in
  if decide (unknowns = 0 ∧ mine_count ≠ Sentence.count s) then false
  else if decide (mine_count > Sentence.count s) then false
  else true.

Definition check_consistent (assignment : gmap Cell Z)
    (sentences : list Sentence.t) : bool :=
  forallb (sentence_ok assignment) sentences.

Definition relevant_knowledge (st : state) (comp : list Cell)
  : list Sentence.t :=
  let comp_set : gset Cell := list_to_set comp in
  filter (λ s, ¬ (Sentence.cells s ## comp_set)) (knowledge st).

(** [itertools.product([0, 1], repeat=n)], in the order it yields. *)
Fixpoint product01 (n : nat) : list (list Z) :=
  match n with
  | O => [[]]
  | S n' => b ← [0; 1]; (λ p, b :: p) <$> product01 n'
  end.

(** [{comp[i]: pattern[i] for i in range(len(comp))}] *)
Definition assignment_of (comp : list Cell) (pattern : list Z)
  : gmap Cell Z :=
  foldl (λ m cv, <[cv.1 := cv.2]> m) ∅ (zip comp pattern).

(** The counting loop shared by both estimators: for each candidate
    assignment that passes [check_consistent], [valid_worlds += 1] and
    [mine_counts[cell] += 1] for the cells assigned 1. *)
Definition count_world (sentences : list Sentence.t) (comp : list Cell)
    (acc : Z * gmap Cell Z) (assignment : gmap Cell Z) : Z * gmap Cell Z :=
  if check_consistent assignment sentences then
    (acc.1 + 1,
     foldl (λ mc cell,
              if decide (lookup0 assignment cell = 1)
              then <[cell := lookup0 mc cell + 1]> mc else mc)
           acc.2 comp)
  else acc.

Definition tally (sentences : list Sentence.t) (comp : list Cell)
    (worlds : list (gmap Cell Z)) : Z * gmap Cell Z :=
  foldl (count_world sentences comp)
        (0, foldl (λ mc cell, <[cell := 0]> mc) ∅ comp) worlds.

(** [mine_counts[cell] / valid_worlds].  Both are integers below 2^18,
    so Python's float quotient orders and separates these ratios exactly
    as the rationals do. *)
Definition prob (mine_counts : gmap Cell Z) (valid_worlds : Z) (cell : Cell)
  : Q :=
  lookup0 mine_counts cell # Z.to_pos valid_worlds.

Definition Qltb (a b : Q) : bool := negb (Qle_bool b a).

(** The final loop of both estimators, from [best_prob = 1.0] and
    [best_cell = None]. *)
Definition pick_best (mine_counts : gmap Cell Z) (valid_worlds : Z)
    (comp : list Cell) : option Cell * Q :=
  foldl (λ best cell,
           let p := prob mine_counts valid_worlds cell in
           if Qltb p best.2 then (Some cell, p) else best)
        (None, 1%Q) comp.

Definition exact_worlds (comp : list Cell) : list (gmap Cell Z) :=
  assignment_of comp <$> product01 (length comp).

(** [(valid_worlds, mine_counts)] after the enumeration loop of
    [solve_component_exact]. *)
Definition exact_count (st : state) (comp : list Cell) : Z * gmap Cell Z :=
  tally (relevant_knowledge st comp) comp (exact_worlds comp).

Definition solve_component_exact (st : state) (comp : list Cell)
  : option Cell * Q :=
  let '(valid_worlds, mine_counts) := exact_count st comp in
  if decide (valid_worlds = 0) then (None, 1%Q)
  else pick_best mine_counts valid_worlds comp.

(** The 5000 random assignments; [draw i cell] is the bit drawn for
    [cell] in sample [i]. *)
Definition sampled_worlds (draw : nat → Cell → Z) (comp : list Cell)
  : list (gmap Cell Z) :=
  (λ i, foldl (λ m cell, <[cell := draw i cell]> m) ∅ comp) <$> seq 0 5000.

Definition solve_component_monte_carlo (draw : nat → Cell → Z)
    (st : state) (comp : list Cell) : option Cell * Q :=
  let '(valid_worlds, mine_counts) :=
    tally (relevant_knowledge st comp) comp (sampled_worlds draw comp) in
  if decide (valid_worlds = 0) then (None, 1%Q)
  else pick_best mine_counts valid_worlds comp.

(** *** [get_action] *)

Definition fringe_cells (K : list Sentence.t) : gset Cell :=
  foldl (λ acc s, acc ∪ Sentence.cells s) ∅ K.

(** Which estimator a component is handed to. *)
Inductive Estimator : Type := Exact | Approximate.

Definition route (comp : gset Cell) : Estimator :=
  if decide (Z.of_nat (size comp) <= 18) then Exact else Approximate.

(** The [if len(comp) <= 18: ... else: ...] of the loop over the
    components, for the [k]-th component; [approx k] is the approximate
    estimator with the random numbers of that iteration. *)
Definition estimate (st : state)
    (approx : nat → state → list Cell → option Cell * Q)
    (kc : nat * gset Cell) : option Cell * Q :=
  let comp_list := elements kc.2 in
  match route kc.2 with
  | Exact => solve_component_exact st comp_list
  | Approximate => approx kc.1 st comp_list
  end.

(** The body of [for comp in components], on
    [(best_overall_move, best_overall_prob)]. *)
Definition consider (st : state)
    (approx : nat → state → list Cell → option Cell * Q)
    (best : option Cell * Q) (kc : nat * gset Cell) : option Cell * Q :=
  let '(move, p) := estimate st approx kc in
  match move with
  | Some _ => if Qltb p best.2 then (move, p) else best
  | None => best
  end.

(** Everything after the first loop and the safe-move loop. *)
Definition guess (fuel : nat) (rnd : Random)
    (approx : nat → state → list Cell → option Cell * Q) (st : state)
  : option (option Action) :=
  let fringe_list := elements (fringe_cells (knowledge st)) in
  match fringe_list with
  | [] => Some (get_smart_guess rnd st)
  | _ :: _ =>
      components ← get_components fuel (knowledge st) fringe_list;
      let best := foldl (consider st approx) (None, 1%Q)
                        (imap (λ k comp, (k, comp)) components) in
      match best.1 with
      | Some move => Some (Some (reveal move))
      | None => Some (get_smart_guess rnd st)
      end
  end.

Definition get_action (fuel : nat) (rnd : Random) (obs : Observation)
    (st : state) : option (state * option Action) :=
  st1 ← sync fuel obs (grid st) st;
  match safe_move st1 with
  | Some a => Some (st1, Some a)
  | None =>
      a ← guess fuel rnd (λ k, solve_component_monte_carlo (coin rnd k)) st1;
      Some (st1, a)
  end.

End HybridAgent.

(** ** [class MCMCAgent(CSPAgent)] *)
Module MCMCAgent.
Import CSPAgent.

(** [get_components] has the same body as [HybridAgent.get_components]. *)
Definition get_components := HybridAgent.get_components.

(** The consistency test written inline in this class's
    [solve_component_exact]. *)
Definition consistent (assignment : gmap Cell Z) (s : Sentence.t) : bool :=
  let cs := elements (Sentence.cells s) in
  let mines :=
    foldr Z.add 0 (HybridAgent.lookup0 assignment
                     <$> filter (λ c, is_Some (assignment !! c)) cs) in
  let unknowns :=
    foldr Z.add 0 ((λ _, 1) <$> filter (λ c, assignment !! c = None) cs) in
  if decide (unknowns = 0 ∧ mines ≠ Sentence.count s) then false
  else if decide (mines > Sentence.count s) then false
  else true.

Definition count_world (sentences : list Sentence.t) (comp : list Cell)
    (acc : Z * gmap Cell Z) (assignment : gmap Cell Z) : Z * gmap Cell Z :=
  if forallb (consistent assignment) sentences then
    (acc.1 + 1,
     foldl (λ mc cell,
              if decide (HybridAgent.lookup0 assignment cell = 1)
              then <[cell := HybridAgent.lookup0 mc cell + 1]> mc else mc)
           acc.2 comp)
  else acc.

Definition exact_count (st : state) (comp : list Cell) : Z * gmap Cell Z :=
  foldl (count_world (HybridAgent.relevant_knowledge st comp) comp)
        (0, foldl (λ mc cell, <[cell := 0]> mc) ∅ comp)
        (HybridAgent.exact_worlds comp).

Definition solve_component_exact (st : state) (comp : list Cell)
  : option Cell * Q :=
  let '(valid_worlds, mine_counts) := exact_count st comp in
  if decide (valid_worlds = 0) then (None, 1%Q)
  else HybridAgent.pick_best mine_counts valid_worlds comp.

(** The list-comprehension form of [get_smart_guess]. *)
Definition get_smart_guess (rnd : HybridAgent.Random) (st : state)
  : option Action :=
  let corners := [(0, 0); (0, cols st - 1); (rows st - 1, 0);
                  (rows st - 1, cols st - 1)] in
  match filter (HybridAgent.free st)
               (HybridAgent.shuffle (HybridAgent.shuffle_seed rnd) corners) with
  | cell :: _ => Some (HybridAgent.reveal cell)
  | [] =>
      let edges :=
        filter (λ cell : Cell, cell.1 = 0 ∨ cell.1 = rows st - 1
                               ∨ cell.2 = 0 ∨ cell.2 = cols st - 1) (grid st) in
      let valid_edges := filter (HybridAgent.free st) edges in
      match valid_edges with
      | _ :: _ =>
          HybridAgent.reveal
            <$> random_choice (HybridAgent.choice_seed rnd) valid_edges
      | [] =>
          match filter (HybridAgent.free st) (grid st) with
          | [] => None
          | possible =>
              HybridAgent.reveal
                <$> random_choice (HybridAgent.choice_seed rnd) possible
          end
      end
  end.

Section Annealing.

(** [solve_component_mcmc] runs 15000 Metropolis steps whose acceptance
    test compares a random float with [math.exp(-dE / T)].  Its result
    is a cell of the component (or [None]) and a ratio; floating-point
    exponentials are outside this embedding, so the estimator for the
    [k]-th component is taken as given. *)
Variable solve_component_mcmc : nat → state → list Cell → option Cell * Q.

Definition estimate (st : state) (kc : nat * gset Cell)
  : option Cell * Q :=
  let comp_list := elements kc.2 in
  match HybridAgent.route kc.2 with
  | HybridAgent.Exact => solve_component_exact st comp_list
  | HybridAgent.Approximate => solve_component_mcmc kc.1 st comp_list
  end.

Definition consider (st : state) (best : option Cell * Q)
    (kc : nat * gset Cell) : option Cell * Q :=
  let '(move, p) := estimate st kc in
  match move with
  | Some _ => if HybridAgent.Qltb p best.2 then (move, p) else best
  | None => best
  end.

Definition guess (fuel : nat) (rnd : HybridAgent.Random) (st : state)
  : option (option Action) :=
  let fringe_list := elements (HybridAgent.fringe_cells (knowledge st)) in
  match fringe_list with
  | [] => Some (get_smart_guess rnd st)
  | _ :: _ =>
      components ← get_components fuel (knowledge st) fringe_list;
      let best := foldl (consider st) (None, 1%Q)
                        (imap (λ k comp, (k, comp)) components) in
      match best.1 with
      | Some move => Some (Some (HybridAgent.reveal move))
      | None => Some (get_smart_guess rnd st)
      end
  end.

Definition get_action (fuel : nat) (rnd : HybridAgent.Random)
    (obs : Observation) (st : state) : option (state * option Action) :=
  st1 ← sync fuel obs (grid st) st;
  match safe_move st1 with
  | Some a => Some (st1, Some a)
  | None => a ← guess fuel rnd st1; Some (st1, a)
  end.

End Annealing.

End MCMCAgent.

(** ** The board the agents play on ([minesweeper_env.py]) *)
Module MinesweeperEnv.

(** Step 4 of [_place_mines]: the number written into a cell that holds
    no mine, for the mine locations [M] on a [height] by [width] board. *)
Definition number (height width : Z) (M : gset Cell) (cell : Cell) : Z :=
  foldr Z.add 0
    (dr ← [-1; 0; 1]; dc ← [-1; 0; 1];
     let nr := cell.1 + dr in
     let nc := cell.2 + dc in
     if decide (0 <= nr < height ∧ 0 <= nc < width) then
       if decide ((nr, nc) ∈ M) then [1] else []
     else []).

End MinesweeperEnv.

(** ** Knowledge bases that agree with a board *)
Module Play.
Import CSPAgent.

(** A sentence states the truth about the mine locations [M]. *)
Definition sentence_true (M : gset Cell) (s : Sentence.t) : Prop :=
  Sentence.count s = Z.of_nat (size (Sentence.cells s ∩ M)).

(** The knowledge base agrees with the board: every recorded fact and
    every sentence is true of [M], and no sentence mentions a cell that
    is already recorded as safe or as a mine. *)
Record agrees (M : gset Cell) (st : state) : Prop := mk_agrees {
  agrees_safes : safes st ## M;
  agrees_mines : mines st ⊆ M;
  agrees_true : Forall (sentence_true M) (knowledge st);
  agrees_fresh :
    Forall (λ s, Sentence.cells s ## safes st ∧ Sentence.cells s ## mines st)
           (knowledge st)
}.

(** The states a game on the board with mines [M] drives the agent
    through: the new agent; the state after steps 1 to 3 of
    [add_knowledge] for a revealed cell, which holds no mine and shows
    the board's number; and the state after each iteration of the loop of
    [infer_knowledge]. *)
Inductive reachable (M : gset Cell) (height width : Z) : state → Prop :=
| reach_init : reachable M height width (init height width)
| reach_ingest st cell :
    reachable M height width st →
    cell ∉ M →
    reachable M height width
      (ingest cell (MinesweeperEnv.number height width M cell) st)
| reach_pass st :
    reachable M height width st →
    reachable M height width (infer_pass st).1.

(** What subset inference derives from the pair [(A, B)], and when. *)
Definition resolvent (A B : Sentence.t) : Sentence.t :=
  Sentence.mk (Sentence.cells B ∖ Sentence.cells A)
              (Sentence.count B - Sentence.count A).

Definition resolvable (A B : Sentence.t) : Prop :=
  A ≠ B ∧ Sentence.cells A ⊆ Sentence.cells B
  ∧ Sentence.cells B ∖ Sentence.cells A ≠ ∅.

(** The knowledge base that part C of an iteration works on. *)
Definition simplified (st : state) : list Sentence.t :=
  remove_empty (knowledge (apply_marks st)).

(** The cells some sentence still mentions, and the non-empty cell sets
    that occur in the knowledge base. *)
Definition live (st : state) : gset Cell :=
  HybridAgent.fringe_cells (knowledge st).

Definition shapes (st : state) : gset (gset Cell) :=
  list_to_set
    (Sentence.cells <$> filter (λ s, Sentence.cells s ≠ ∅) (knowledge st)).

(** The number that bounds the iterations left. *)
Definition measure (st : state) : nat :=
  (2 ^ (size (live st) + 1) - size (shapes st))%nat.

(** [n] is in bounds for the agent's board. *)
Definition in_bounds (st : state) (n : Cell) : Prop :=
  0 <= n.1 < rows st ∧ 0 <= n.2 < cols st.

(** The in-bounds neighbours of a cell, as a set. *)
Definition neighbours (st : state) (cell : Cell) : gset Cell :=
  list_to_set
    (filter (λ n : Cell, n ≠ cell ∧ (0 <= n.1 < rows st ∧ 0 <= n.2 < cols st))
            (window cell)).

End Play.

(** ** The adjacency dictionary of [get_components], as a graph *)
Module Graph.

(** [n in neighbors[c]] *)
Definition adj (nb : gmap Cell (gset Cell)) (c n : Cell) : Prop :=
  ∃ ns, nb !! c = Some ns ∧ n ∈ ns.

Definition symmetric (nb : gmap Cell (gset Cell)) : Prop :=
  ∀ c n, adj nb c n → adj nb n c.

(** Only keys of the dictionary occur in its sets. *)
Definition closed (nb : gmap Cell (gset Cell)) : Prop :=
  ∀ c n, adj nb c n → n ∈ dom nb.

(** [nb'] has the keys of [nb] and at least its edges, and is symmetric
    and closed when [nb] is. *)
Definition extends (nb nb' : gmap Cell (gset Cell)) : Prop :=
  dom nb' = dom nb
  ∧ (∀ c n, adj nb c n → adj nb' c n)
  ∧ (symmetric nb → symmetric nb')
  ∧ (closed nb → closed nb').

(** The components of a list share no cell. *)
Definition pairwise_disjoint (comps : list (gset Cell)) : Prop :=
  ∀ (i j : nat) C1 C2,
    i ≠ j → comps !! i = Some C1 → comps !! j = Some C2 → C1 ## C2.

(** A set of cells no edge leaves. *)
Definition sealed (nb : gmap Cell (gset Cell)) (X : gset Cell) : Prop :=
  ∀ c n, c ∈ X → adj nb c n → n ∈ X.

End Graph.

(** ** The concrete knowledge bases used below *)
Module Examples.
Import CSPAgent.

Definition cA : Cell := (0, 0).
Definition cB : Cell := (0, 1).
Definition cC : Cell := (0, 2).

(** Scenario C: [{A, B, C} = 1] and [{A, B} = 1]. *)
Definition scenario_C : state :=
  mk 1 3 ∅ ∅ ∅ [Sentence.mk {[cA; cB; cC]} 1; Sentence.mk {[cA; cB]} 1].

(** A single sentence [{(0, 0)} = 1], and a single sentence
    [{(0, 0)} = 0]. *)
Definition one_mine : state := mk 1 1 ∅ ∅ ∅ [Sentence.mk {[(0, 0)]} 1].
Definition one_safe : state := mk 1 1 ∅ ∅ ∅ [Sentence.mk {[(0, 0)]} 0].

(** Scenario A: the single sentence [{(0, 0), (0, 1)} = 1]. *)
Definition scenario_A : state :=
  mk 1 2 ∅ ∅ ∅ [Sentence.mk {[(0, 0); (0, 1)]} 1].

(** A 1 by 3 board that shows the number 5 on its middle cell, and the
    random numbers of a run in which every draw is 0. *)
Definition shows_five : Observation :=
  λ cell, if decide (cell = (0, 1)) then 5 else -2.

Definition zeros : HybridAgent.Random :=
  HybridAgent.mkRandom 0 0 (λ _ _ _, 0).

(** The agent after it has looked at that board: the sentence
    [{(0, 0), (0, 2)} = 5], which no assignment satisfies. *)
Definition after_five : state :=
  mk 1 3 {[(0, 1)]} ∅ {[(0, 1)]} [Sentence.mk {[(0, 0); (0, 2)]} 5].

(** An annealing estimator that never finds a sample. *)
Definition no_sample : nat → state → list Cell → option Cell * Q :=
  λ _ _ _, (None, 1%Q).

(** A board on which nothing is revealed yet. *)
Definition covered : Observation := λ _, -2.

(** Two sentences that share no cell. *)
Definition two_islands : list Sentence.t :=
  [Sentence.mk {[(0, 0); (0, 1)]} 1; Sentence.mk {[(2, 2); (2, 3)]} 1].

(** A 1 by 5 knowledge base no board can produce: the five cells of the
    row hold 1 mine and also 4 mines, and the first four hold 2. *)
Definition row4 : gset Cell := {[(0, 0); (0, 1); (0, 2); (0, 3)]}.
Definition row5 : gset Cell := row4 ∪ {[(0, 4)]}.
Definition last : gset Cell := {[(0, 4)]}.
Definition mismatch : state :=
  mk 1 5 ∅ ∅ ∅ [Sentence.mk row5 1; Sentence.mk row5 4; Sentence.mk row4 2].

(** The knowledge bases the loop of [infer_knowledge] passes through
    from [mismatch]. *)
Definition drifting_sentence (s : Sentence.t) : Prop :=
  (Sentence.cells s = row5 ∧ (Sentence.count s = 1 ∨ Sentence.count s = 4))
  ∨ ((Sentence.cells s = row4 ∨ Sentence.cells s = last)
     ∧ ∃ k, Sentence.count s = 3 * k + 2).

Definition drifting (st : state) : Prop :=
  Sentence.mk row5 1 ∈ knowledge st ∧ Sentence.mk row5 4 ∈ knowledge st
  ∧ (∃ x, Sentence.mk row4 x ∈ knowledge st)
  ∧ Forall drifting_sentence (knowledge st).

(** A 2 by 2 board with one mine in the corner [(0, 0)], and the agent
    right after it has looked at the revealed cell [(0, 1)]. *)
Definition corner_mine : gset Cell := {[(0, 0)]}.
Definition first_look : state :=
  ingest (0, 1) (MinesweeperEnv.number 2 2 corner_mine (0, 1)) (init 2 2).

End Examples.

From stdpp Require Import relations.

Local Open Scope Z_scope.

(** ** Assignments as mine placements *)
Module Worlds.

(** The cells an assignment gives the value 1. *)
Definition mines_of (assignment : gmap Cell Z) : gset Cell :=
  dom (filter (λ kv : Cell * Z, kv.2 = 1) assignment).

(** An assignment with values 0 and 1 only. *)
Definition binary (assignment : gmap Cell Z) : Prop :=
  ∀ c v, assignment !! c = Some v → v = 0 ∨ v = 1.

(** The placement [X] puts exactly [count] mines on the cells of every
    sentence of the knowledge base that touches the component. *)
Definition satisfies (st : CSPAgent.state) (comp : list Cell)
    (X : gset Cell) : Prop :=
  ∀ s, s ∈ HybridAgent.relevant_knowledge st comp → Play.sentence_true X s.

End Worlds.

(** ** Cells that sentences tie together *)
Module Fringe.

(** Some sentence of [K] mentions both cells. *)
Definition share (K : list Sentence.t) (c n : Cell) : Prop :=
  ∃ s, s ∈ K ∧ c ∈ Sentence.cells s ∧ n ∈ Sentence.cells s.

(** Every cell of [C] is tied to [c0] by a chain of cells, each sharing
    a sentence with the next. *)
Definition rooted (K : list Sentence.t) (c0 : Cell) (C : gset Cell) : Prop :=
  c0 ∈ C ∧ ∀ c, c ∈ C → rtc (share K) c0 c.

End Fringe.

(** ** What every state of an agent looks like *)
Module Tidy.
Import CSPAgent.

(** Every cell acted on is recorded as safe; no sentence mentions a cell
    that is recorded as safe or as a mine; and every cell the agent has
    recorded or still reasons about lies on the board. *)
Record tidy (st : state) : Prop := mk_tidy {
  tidy_moves : moves_made st ⊆ safes st;
  tidy_fresh :
    ∀ s, s ∈ knowledge st →
         Sentence.cells s ## safes st ∧ Sentence.cells s ## mines st;
  tidy_bounds :
    ∀ c, c ∈ safes st ∪ mines st ∪ Play.live st → Play.in_bounds st c
}.

(** The observation shows numbers on cells without a mine only, and
    each number is the one the board with mines [M] holds there. *)
Definition truthful (M : gset Cell) (height width : Z)
    (obs : Observation) : Prop :=
  ∀ cell, obs cell >= 0 →
          cell ∉ M ∧ obs cell = MinesweeperEnv.number height width M cell.

End Tidy.

(** ** More boards *)
Module Boards.
Import CSPAgent.

(** The 2 by 2 board with a mine at [(0, 0)] after [(0, 1)] was
    revealed. *)
Definition corner_seen : Observation :=
  λ cell, if decide (cell = (0, 1)) then 1 else -2.

End Boards.

(** ** [class MinesweeperEnv]: the board and its [step]

    The three numpy arrays are indexed inside the board only (every access
    in the source follows a bounds check or runs over [range]): [grid] is a
    finite map that reads 0 where nothing was written, as [np.zeros] does,
    and the boolean arrays [visible] and [flags] are the sets of cells that
    hold [True]. *)
Module Env.
Import CSPAgent.

Record state : Type := mk {
  width : Z;
  height : Z;
  mines : Z;
  grid : gmap Cell Z;
  visible : gset Cell;
  flags : gset Cell;
  mines_placed : bool;
  exploded : bool
}.

(** [reset]: a board without mines, nothing revealed, nothing flagged. *)
Definition reset (st : state) : state :=
  mk (width st) (height st) (mines st) ∅ ∅ ∅ false false.

(** [MinesweeperEnv(width, height, mines)] followed by [reset()]. *)
Definition fresh (width height mines : Z) : state :=
  mk width height mines ∅ ∅ ∅ false false.

(** [grid[r, c]] *)
Definition grid_at (g : gmap Cell Z) (cell : Cell) : Z :=
  default 0 (g !! cell).

(** [0 <= r < self.height and 0 <= c < self.width] *)
Definition inside (st : state) (cell : Cell) : Prop :=
  0 <= cell.1 < height st ∧ 0 <= cell.2 < width st.

#[global] Instance inside_dec st cell : Decision (inside st cell).
Proof. unfold inside. apply _. Defined.

(** [for r in range(self.height): for c in range(self.width)] *)
Definition cells (st : state) : list Cell :=
  r ← range 0 (height st); c ← range 0 (width st); [(r, c)].

(** *** [_place_mines] *)

(** [random.sample(population, k)]: the first [k] items of some
    permutation of the population; a [ValueError], here [None], when [k]
    is negative or larger than the population. *)
Definition sample {A} (seed : nat) (population : list A) (k : Z)
  : option (list A) :=
  if decide (0 <= k <= Z.of_nat (length population))
  then Some (take (Z.to_nat k) (HybridAgent.shuffle seed population))
  else None.

Definition coords (st : state) (safe : Cell) : list Cell :=
  filter (λ rc, rc ≠ safe) (cells st).

(** The mines in the 3 by 3 window of a cell, read off the grid. *)
Definition count_mines (st : state) (g : gmap Cell Z) (cell : Cell) : Z :=
  foldr Z.add 0
    (dr ← [-1; 0; 1]; dc ← [-1; 0; 1];
     let nr := cell.1 + dr in
     let nc := cell.2 + dc in
     if decide (0 <= nr < height st ∧ 0 <= nc < width st) then
       if decide (grid_at g (nr, nc) = -1) then [1] else []
     else []).

(** The body of the loop of step 4, on the grid it updates in place. *)
Definition write_number (st : state) (g : gmap Cell Z) (cell : Cell)
  : gmap Cell Z :=
  if decide (grid_at g cell = -1) then g
  else <[cell := count_mines st g cell]> g.

Definition place_mines (seed : nat) (safe : Cell) (st : state)
  : option state :=
  mine_locs ← sample seed (coords st safe) (mines st);
  let g1 := foldl (λ g rc, <[rc := -1]> g) (grid st) mine_locs in
  let g2 := foldl (write_number st) g1 (cells st) in
  Some (mk (width st) (height st) (mines st) g2 (visible st) (flags st)
           true (exploded st)).

(** *** [_flood_fill] *)

(** The eight [(dr, dc)] the two loops run through. *)
Definition offsets : list (Z * Z) :=
  dr ← [-1; 0; 1]; dc ← [-1; 0; 1];
  if decide (dr = 0 ∧ dc = 0) then [] else [(dr, dc)].

(** The body of the two inner loops for the neighbour [n], on
    [(stack, visible, visited)]; the stack is kept with its top first. *)
Definition reveal_neighbor (st : state)
    (acc : list Cell * gset Cell * gset Cell) (n : Cell)
  : list Cell * gset Cell * gset Cell :=
  if decide (0 <= n.1 < height st ∧ 0 <= n.2 < width st) then
    if decide ((n ∉ acc.1.2) ∧ (n ∉ flags st) ∧ (n ∉ acc.2)) then
      if decide (grid_at (grid st) n = 0)
      then (n :: acc.1.1, {[n]} ∪ acc.1.2, {[n]} ∪ acc.2)
      else (acc.1.1, {[n]} ∪ acc.1.2, {[n]} ∪ acc.2)
    else acc
  else acc.

(** [nr, nc = curr_r + dr, curr_c + dc] and the rest of the body. *)
Definition fill_neighbor (st : state) (curr : Cell)
    (acc : list Cell * gset Cell * gset Cell) (d : Z * Z)
  : list Cell * gset Cell * gset Cell :=
  reveal_neighbor st acc (curr.1 + d.1, curr.2 + d.2).

(** [while stack: ...], at most [fuel] iterations; the value is the
    [visible] array the loop leaves. *)
Fixpoint fill (fuel : nat) (st : state) (stack : list Cell)
    (vis visited : gset Cell) : option (gset Cell) :=
  match stack with
  | [] => Some vis
  | curr :: stack' =>
      match fuel with
      | O => None
      | S fuel' =>
          let acc := foldl (fill_neighbor st curr)
                           (stack', {[curr]} ∪ vis, visited) offsets in
          fill fuel' st acc.1.1 acc.1.2 acc.2
      end
  end.

Definition flood_fill (fuel : nat) (st : state) (cell : Cell)
  : option (gset Cell) :=
  fill fuel st [cell] (visible st) {[cell]}.

(** [n] is one of the eight cells around [c]. *)
Definition around (c n : Cell) : Prop :=
  n ≠ c ∧ c.1 - 1 <= n.1 <= c.1 + 1 ∧ c.2 - 1 <= n.2 <= c.2 + 1.

(** *** [_get_obs] *)

(** The array [_get_obs] returns, as a function of the cell; off the
    board, where the array has no entry, it is given the value -2. *)
Definition get_obs (st : state) : Observation :=
  λ cell,
    if decide (inside st cell) then
      if decide (cell ∈ visible st) then grid_at (grid st) cell
      else if decide (cell ∈ flags st) then -3
      else -2
    else -2.

(** *** [step] *)

(** The [info] dictionary: empty, or its ['result']. *)
Inductive Result : Type := win | lose.

#[global] Instance Result_eq_dec : EqDecision Result.
Proof. solve_decision. Defined.

Definition with_flags (st : state) (fl : gset Cell) : state :=
  mk (width st) (height st) (mines st) (grid st) (visible st) fl
     (mines_placed st) (exploded st).

Definition with_visible (st : state) (vis : gset Cell) : state :=
  mk (width st) (height st) (mines st) (grid st) vis (flags st)
     (mines_placed st) (exploded st).

(** [self.flags[r, c] = not self.flags[r, c]] *)
Definition toggle (fl : gset Cell) (cell : Cell) : gset Cell :=
  if decide (cell ∈ fl) then fl ∖ {[cell]} else {[cell]} ∪ fl.

(** The environment after the call, the reward, [done] and [info]; the
    observation returned is [get_obs] of the new environment.  [None]
    is an exception, or the flood fill running out of fuel. *)
Definition step (fuel seed : nat) (action : Action) (st : state)
  : option (state * Z * bool * option Result) :=
  let cell : Cell := action.1 in
  let type_ := action.2 in
  if decide (¬ inside st cell) then Some (st, -1, false, None)
  else
    st1 ← (if decide (mines_placed st = false ∧ type_ = 0)
           then place_mines seed cell st else Some st);
    if decide (type_ = 1) then
      let st2 := if decide (cell ∉ visible st1)
                 then with_flags st1 (toggle (flags st1) cell) else st1 in
      Some (st2, 0, false, None)
    else if decide (cell ∈ flags st1 ∨ cell ∈ visible st1) then
      Some (st1, -1, false, None)
    else if decide (grid_at (grid st1) cell = -1) then
      Some (mk (width st1) (height st1) (mines st1) (grid st1)
               ({[cell]} ∪ visible st1) (flags st1) (mines_placed st1) true,
            -100, true, Some lose)
    else
      vis ← flood_fill fuel st1 cell;
      let st2 := with_visible st1 vis in
      if decide (Z.of_nat (size vis) = width st1 * height st1 - mines st1)
      then Some (st2, 100, true, Some win)
      else Some (st2, 1, false, None).

(** The cells that hold a mine. *)
Definition mine_cells (st : state) : gset Cell :=
  dom (filter (λ kv : Cell * Z, kv.2 = -1) (grid st)).

(** The environments a game passes through: the new one, and the one
    after each reveal or flag action. *)
Inductive reachable (width height mines : Z) : state → Prop :=
| reach_fresh : reachable width height mines (fresh width height mines)
| reach_step st (fuel seed : nat) action st' reward done info :
    reachable width height mines st →
    action.2 = 0 ∨ action.2 = 1 →
    step fuel seed action st = Some (st', reward, done, info) →
    reachable width height mines st'.

End Env.

(** ** The driver loop of [csp_agent.py] *)
Module Game.
Import CSPAgent.

(** What [get_action] may return from the state its first loop leaves.
    [for safe in self.safes] runs through the set in an order Python
    does not specify, and [random.choice] picks any item of the list:
    the call returns a reveal of some recorded safe cell that was not
    acted on, whichever comes first, and, when there is none, of some
    possible move.  This covers every iteration order, the one of
    [safe_move] among them. *)
Definition may_return (st : state) (action : Action) : Prop :=
  (∃ safe, safe ∈ safes st ∧ safe ∉ moves_made st
           ∧ action = (safe.1, safe.2, 0))
  ∨ (safes st ⊆ moves_made st
     ∧ ∃ move, move ∈ possible_moves st ∧ action = (move.1, move.2, 0)).

(** The pairs of environment and agent the loop
    [action = agent.get_action(obs); obs, ... = env.step(action)] passes
    through, from [env.reset()] and [CSPAgent(env)], whatever action
    [get_action] picks among those it may return.  The loop leaves when
    [done] is set or the agent returns [None]; the pairs below include
    the ones it would reach if it went on. *)
Inductive reachable (width height mines : Z)
  : Env.state → CSPAgent.state → Prop :=
| start :
    reachable width height mines (Env.fresh width height mines)
              (init height width)
| round env st (fuel fuel' seed : nat) st' action env' reward done info :
    reachable width height mines env st →
    sync fuel (Env.get_obs env) (grid st) st = Some st' →
    may_return st' action →
    Env.step fuel' seed action env = Some (env', reward, done, info) →
    reachable width height mines env' st'.

End Game.

(** ** Boards for the environment *)
Module Rounds.

(** A 3 by 3 board with one mine at [(0, 0)], nothing revealed. *)
Definition one_corner : Env.state :=
  Env.mk 3 3 1
    (list_to_map [((0, 0), -1); ((0, 1), 1); ((1, 0), 1); ((1, 1), 1)])
    ∅ ∅ true false.

End Rounds.

(** ** Numbers no board gives *)
Module Untruthful.
Import CSPAgent.

(** A 2 by 3 board on which [(0, 1)] shows 1 and [(1, 1)] shows 5: the
    agent after [add_knowledge((0, 1), 1)], and after
    [add_knowledge((1, 1), 5)] as well. *)
Definition four : gset Cell := {[(0, 2); (0, 0); (1, 0); (1, 2)]}.

Definition after_one : state :=
  mk 2 3 {[(0, 1)]} ∅ {[(0, 1)]}
     [Sentence.mk ({[(1, 1)]} ∪ four) 1].

Definition after_two : state :=
  mk 2 3 {[(0, 1); (1, 1)]} ∅ {[(0, 1); (1, 1)]}
     [Sentence.mk four 1; Sentence.mk four 5].

(** The cell sets the loop works on once [(0, 0)] shows 2. *)
Definition three : gset Cell := {[(0, 2); (1, 0); (1, 2)]}.
Definition one : gset Cell := {[(1, 0)]}.
Definition two : gset Cell := {[(0, 2); (1, 2)]}.

(** The knowledge bases the loop passes through from there: [three]
    holds 1 mine and also 5, and the counts of [one] and of [two] move
    in steps of 4. *)
Definition wandering_sentence (s : Sentence.t) : Prop :=
  (Sentence.cells s = three ∧ (Sentence.count s = 1 ∨ Sentence.count s = 5))
  ∨ (Sentence.cells s = one ∧ ∃ k, Sentence.count s = 4 * k + 2)
  ∨ (Sentence.cells s = two ∧ ∃ k, Sentence.count s = 4 * k + 3).

Definition wandering (st : state) : Prop :=
  Sentence.mk three 1 ∈ knowledge st ∧ Sentence.mk three 5 ∈ knowledge st
  ∧ (∃ x, Sentence.mk one x ∈ knowledge st)
  ∧ Forall wandering_sentence (knowledge st).

End Untruthful.

(** ** Components without a valid assignment *)
Module Skipped.
Import CSPAgent.

(** The numbered component goes to the exact estimator, and the
    enumeration finds no valid world for it. *)
Definition unsatisfiable (st : state) (kc : nat * gset Cell) : Prop :=
  Z.of_nat (size kc.2) <= 18
  ∧ (HybridAgent.exact_count st (elements kc.2)).1 = 0.

#[global] Instance unsatisfiable_dec st kc : Decision (unsatisfiable st kc).
Proof. unfold unsatisfiable. apply _. Defined.

(** [for comp in components] with its counter. *)
Definition numbered (comps : list (gset Cell)) : list (nat * gset Cell) :=
  imap (λ k comp, (k, comp)) comps.

(** A 1 by 7 knowledge base with two clusters: [{(0, 0), (0, 1)} = 5],
    which no assignment satisfies, and [{(0, 5), (0, 6)} = 1]. *)
Definition two_clusters : state :=
  mk 1 7 ∅ ∅ ∅
     [Sentence.mk {[(0, 0); (0, 1)]} 5; Sentence.mk {[(0, 5); (0, 6)]} 1].

End Skipped.

(** * Proofs *)

Import CSPAgent Play Graph.

(** Deciding a closed proposition by evaluation. *)
Ltac by_evaluation :=
  match goal with
  | |- ?P => let d := constr:(_ : Decision P) in
             refine (@bool_decide_unpack P d _); vm_compute; exact I
  end.

(** * Marking cells *)

Section Marks.
Implicit Types (st : state) (cell c : Cell) (s : Sentence.t)
               (K : list Sentence.t) (M S : gset Cell).

Lemma safes_mark_safe cell st : safes (mark_safe cell st) = {[cell]} ∪ safes st.
Proof. unfold mark_safe. case_decide; simpl; set_solver. Qed.

Lemma mines_mark_safe cell st : mines (mark_safe cell st) = mines st.
Proof. unfold mark_safe. by case_decide. Qed.

Lemma mines_mark_mine cell st : mines (mark_mine cell st) = {[cell]} ∪ mines st.
Proof. unfold mark_mine. case_decide; simpl; set_solver. Qed.

Lemma safes_mark_mine cell st : safes (mark_mine cell st) = safes st.
Proof. unfold mark_mine. by case_decide. Qed.

Lemma cells_mark_safe cell s :
  Sentence.cells (Sentence.mark_safe cell s) = Sentence.cells s ∖ {[cell]}.
Proof. unfold Sentence.mark_safe. case_decide; simpl; set_solver. Qed.

Lemma cells_mark_mine cell s :
  Sentence.cells (Sentence.mark_mine cell s) = Sentence.cells s ∖ {[cell]}.
Proof. unfold Sentence.mark_mine. case_decide; simpl; set_solver. Qed.

Lemma in_foldl_union {A} (f : A → gset Cell) (l : list A) (X : gset Cell) c :
  c ∈ foldl (λ acc a, acc ∪ f a) X l ↔ c ∈ X ∨ ∃ a, a ∈ l ∧ c ∈ f a.
Proof.
  revert X. induction l as [|a l IH]; intros X; simpl.
  - split; [auto | intros [?|(s & Hs & _)]; [done | by apply elem_of_nil in Hs]].
  - rewrite IH. split.
    + intros [[?|?]%elem_of_union | (s & Hs & Hc)]; eauto.
      * right. exists a. split; [left | done].
      * right. exists s. split; [by right | done].
    + intros [? | (s & Hs & Hc)]; [left; set_solver |].
      apply elem_of_cons in Hs as [Heq | Hs]; [subst; left; set_solver | right; eauto].
Qed.

Lemma elem_of_safes_to_mark K c :
  c ∈ safes_to_mark K ↔ ∃ s, s ∈ K ∧ Sentence.count s = 0 ∧ c ∈ Sentence.cells s.
Proof.
  unfold safes_to_mark. rewrite in_foldl_union. split.
  - intros [?|(s & Hs & Hc)]; [set_solver|]. exists s. split; [done|].
    unfold Sentence.known_safes in Hc. case_decide; [done | set_solver].
  - intros (s & Hs & H0 & Hc). right. exists s. split; [done|].
    unfold Sentence.known_safes. by rewrite decide_True.
Qed.

Lemma elem_of_mines_to_mark K c :
  c ∈ mines_to_mark K ↔
  ∃ s, s ∈ K ∧ Sentence.len s = Sentence.count s ∧ Sentence.count s > 0
       ∧ c ∈ Sentence.cells s.
Proof.
  unfold mines_to_mark. rewrite in_foldl_union. split.
  - intros [?|(s & Hs & Hc)]; [set_solver|]. exists s. split; [done|].
    unfold Sentence.known_mines in Hc. case_decide; [naive_solver | set_solver].
  - intros (s & Hs & H0 & H1 & Hc). right. exists s. split; [done|].
    unfold Sentence.known_mines. by rewrite decide_True.
Qed.

Lemma elem_of_live st c :
  c ∈ live st ↔ ∃ s, s ∈ knowledge st ∧ c ∈ Sentence.cells s.
Proof.
  unfold live, HybridAgent.fringe_cells. rewrite in_foldl_union. set_solver.
Qed.

(** Marking a list of cells one after the other. *)
Lemma safes_mark_list_safe (l : list Cell) st :
  safes (foldl (λ st safe, mark_safe safe st) st l) = list_to_set l ∪ safes st.
Proof.
  revert st. induction l as [|a l IH]; intros st; simpl; [set_solver|].
  rewrite IH, safes_mark_safe. set_solver.
Qed.

Lemma mines_mark_list_safe (l : list Cell) st :
  mines (foldl (λ st safe, mark_safe safe st) st l) = mines st.
Proof.
  revert st. induction l as [|a l IH]; intros st; simpl; [done|].
  by rewrite IH, mines_mark_safe.
Qed.

Lemma mines_mark_list_mine (l : list Cell) st :
  mines (foldl (λ st mine, mark_mine mine st) st l) = list_to_set l ∪ mines st.
Proof.
  revert st. induction l as [|a l IH]; intros st; simpl; [set_solver|].
  rewrite IH, mines_mark_mine. set_solver.
Qed.

Lemma safes_mark_list_mine (l : list Cell) st :
  safes (foldl (λ st mine, mark_mine mine st) st l) = safes st.
Proof.
  revert st. induction l as [|a l IH]; intros st; simpl; [done|].
  by rewrite IH, safes_mark_mine.
Qed.

Lemma safes_apply_marks st :
  safes (apply_marks st) = safes_to_mark (knowledge st) ∪ safes st.
Proof.
  unfold apply_marks, mark_all_mine, mark_all_safe.
  rewrite safes_mark_list_mine, safes_mark_list_safe, list_to_set_elements_L.
  done.
Qed.

Lemma mines_apply_marks st :
  mines (apply_marks st) = mines_to_mark (knowledge st) ∪ mines st.
Proof.
  unfold apply_marks, mark_all_mine, mark_all_safe.
  rewrite mines_mark_list_mine, mines_mark_list_safe, list_to_set_elements_L.
  done.
Qed.

Lemma rows_cols_mark_safe cell st :
  rows (mark_safe cell st) = rows st ∧ cols (mark_safe cell st) = cols st
  ∧ moves_made (mark_safe cell st) = moves_made st.
Proof. unfold mark_safe. by case_decide. Qed.

Lemma rows_cols_mark_mine cell st :
  rows (mark_mine cell st) = rows st ∧ cols (mark_mine cell st) = cols st
  ∧ moves_made (mark_mine cell st) = moves_made st.
Proof. unfold mark_mine. by case_decide. Qed.

(** ** Agreement with the board is kept by truthful marks *)

Lemma sentence_true_mark_safe M cell s :
  cell ∉ M → sentence_true M s → sentence_true M (Sentence.mark_safe cell s).
Proof.
  unfold sentence_true, Sentence.mark_safe. intros Hc Hs.
  case_decide; simpl; [|done]. rewrite Hs. do 2 f_equal. set_solver.
Qed.

Lemma sentence_true_mark_mine M cell s :
  cell ∈ M → sentence_true M s → sentence_true M (Sentence.mark_mine cell s).
Proof.
  unfold sentence_true, Sentence.mark_mine. intros Hc Hs.
  case_decide as Hin; simpl; [|done]. rewrite Hs.
  assert (Sentence.cells s ∩ M = {[cell]} ∪ (Sentence.cells s ∖ {[cell]}) ∩ M)
    as ->.
  { apply set_eq. intros x. destruct (decide (x = cell)); set_solver. }
  rewrite size_union by set_solver. rewrite size_singleton. lia.
Qed.

Lemma agrees_mark_safe M cell st :
  cell ∉ M → agrees M st → agrees M (mark_safe cell st).
Proof.
  intros Hc [H1 H2 H3 H4]. unfold mark_safe. case_decide; [done|].
  split; simpl.
  - set_solver.
  - done.
  - rewrite Forall_fmap. eapply Forall_impl; [exact H3|].
    intros s. by apply sentence_true_mark_safe.
  - rewrite Forall_fmap. eapply Forall_impl; [exact H4|].
    intros s [Ha Hb]. simpl. rewrite cells_mark_safe. set_solver.
Qed.

Lemma agrees_mark_mine M cell st :
  cell ∈ M → agrees M st → agrees M (mark_mine cell st).
Proof.
  intros Hc [H1 H2 H3 H4]. unfold mark_mine. case_decide; [done|].
  split; simpl.
  - done.
  - set_solver.
  - rewrite Forall_fmap. eapply Forall_impl; [exact H3|].
    intros s. by apply sentence_true_mark_mine.
  - rewrite Forall_fmap. eapply Forall_impl; [exact H4|].
    intros s [Ha Hb]. simpl. rewrite cells_mark_mine. set_solver.
Qed.

Lemma agrees_mark_list_safe M (l : list Cell) st :
  (∀ c, c ∈ l → c ∉ M) → agrees M st →
  agrees M (foldl (λ st safe, mark_safe safe st) st l).
Proof.
  revert st. induction l as [|a l IH]; intros st Hl Hst; simpl; [done|].
  apply IH; [set_solver|]. apply agrees_mark_safe; [|done]. set_solver.
Qed.

Lemma agrees_mark_list_mine M (l : list Cell) st :
  (∀ c, c ∈ l → c ∈ M) → agrees M st →
  agrees M (foldl (λ st mine, mark_mine mine st) st l).
Proof.
  revert st. induction l as [|a l IH]; intros st Hl Hst; simpl; [done|].
  apply IH; [set_solver|]. apply agrees_mark_mine; [|done]. set_solver.
Qed.

(** What a true sentence with count 0, or with as many mines as cells,
    says about its cells. *)
Lemma true_zero_safe M s c :
  sentence_true M s → Sentence.count s = 0 → c ∈ Sentence.cells s → c ∉ M.
Proof.
  unfold sentence_true. intros Hs H0 Hc Hm. rewrite H0 in Hs.
  assert (size (Sentence.cells s ∩ M) = 0%nat) as Hz by lia.
  apply size_empty_inv in Hz. set_solver.
Qed.

Lemma true_full_mine M s c :
  sentence_true M s → Sentence.len s = Sentence.count s →
  c ∈ Sentence.cells s → c ∈ M.
Proof.
  unfold sentence_true, Sentence.len. intros Hs Hl Hc. rewrite Hs in Hl.
  assert (Sentence.cells s ∩ M = Sentence.cells s) as Heq.
  { apply set_subseteq_size_eq; [set_solver | lia]. }
  set_solver.
Qed.

Lemma true_well_formed M s : sentence_true M s → Sentence.well_formed s.
Proof.
  unfold sentence_true, Sentence.well_formed, Sentence.len. intros ->.
  split; [lia|]. apply inj_le, subseteq_size. set_solver.
Qed.

Lemma agrees_apply_marks M st : agrees M st → agrees M (apply_marks st).
Proof.
  intros Hst. unfold apply_marks, mark_all_mine, mark_all_safe.
  pose proof (agrees_true _ _ Hst) as Ht. rewrite Forall_forall in Ht.
  apply agrees_mark_list_mine.
  - intros c Hc%elem_of_elements%elem_of_mines_to_mark.
    destruct Hc as (s & Hs & Hl & _ & Hc). eapply true_full_mine; eauto.
  - apply agrees_mark_list_safe; [|done].
    intros c Hc%elem_of_elements%elem_of_safes_to_mark.
    destruct Hc as (s & Hs & Hl & Hc). eapply true_zero_safe; eauto.
Qed.

End Marks.

(** * Subset inference *)

Section SubsetInference.
Implicit Types (s A B : Sentence.t) (K new : list Sentence.t).

Lemma elem_of_subset_step K A B new s :
  s ∈ subset_step K A B new ↔
  s ∈ new ∨ (resolvable A B ∧ s = resolvent A B ∧ s ∉ K).
Proof.
  unfold subset_step, resolvable, resolvent.
  destruct (decide (A = B)) as [->|Hne]; [naive_solver|].
  destruct (decide (Sentence.cells A ⊆ Sentence.cells B)) as [Hsub|Hns];
    [|naive_solver].
  destruct (decide (Z.of_nat (size (Sentence.cells B ∖ Sentence.cells A)) > 0))
    as [Hpos|Hz].
  - assert (Sentence.cells B ∖ Sentence.cells A ≠ ∅) as Hne'.
    { intros Heq. rewrite Heq, size_empty in Hpos. lia. }
    case_decide as Hfresh.
    + rewrite elem_of_app, list_elem_of_singleton. naive_solver.
    + split; [auto|]. intros [?|(_ & -> & HK)]; [done|].
      apply not_and_l in Hfresh as [Hfresh|Hfresh];
        apply dec_stable in Hfresh; done.
  - split; [auto|]. intros [?|((_ & _ & Hd) & _)]; [done|].
    exfalso. apply Hd, leibniz_equiv, size_empty_inv. lia.
Qed.

Lemma elem_of_subset_inner K A (L : list Sentence.t) new s :
  s ∈ foldl (λ new B, subset_step K A B new) new L ↔
  s ∈ new ∨ ∃ B, B ∈ L ∧ resolvable A B ∧ s = resolvent A B ∧ s ∉ K.
Proof.
  revert new. induction L as [|B L IH]; intros new; simpl.
  - set_solver.
  - rewrite IH, elem_of_subset_step. set_solver.
Qed.

Lemma elem_of_subset_outer K (L1 L2 : list Sentence.t) new s :
  s ∈ foldl (λ new A, foldl (λ new B, subset_step K A B new) new L2) new L1 ↔
  s ∈ new ∨ ∃ A B, A ∈ L1 ∧ B ∈ L2 ∧ resolvable A B ∧ s = resolvent A B ∧ s ∉ K.
Proof.
  revert new. induction L1 as [|A L1 IH]; intros new; simpl.
  - set_solver.
  - rewrite IH, elem_of_subset_inner. set_solver.
Qed.

Lemma elem_of_subset_inference K s :
  s ∈ subset_inference K ↔
  ∃ A B, A ∈ K ∧ B ∈ K ∧ resolvable A B ∧ s = resolvent A B ∧ s ∉ K.
Proof.
  unfold subset_inference. rewrite elem_of_subset_outer.
  split; [intros [Hn|?]; [by apply elem_of_nil in Hn | done] | by right].
Qed.

Lemma NoDup_subset_step K A B new : NoDup new → NoDup (subset_step K A B new).
Proof.
  intros Hnd. unfold subset_step. repeat case_decide; try done.
  apply NoDup_app. split_and!; [done | | apply NoDup_singleton].
  intros x Hx ->%list_elem_of_singleton. naive_solver.
Qed.

Lemma NoDup_subset_inner K A (L : list Sentence.t) new :
  NoDup new → NoDup (foldl (λ new B, subset_step K A B new) new L).
Proof.
  revert new. induction L as [|B L IH]; intros new Hnew; simpl; [done|].
  by apply IH, NoDup_subset_step.
Qed.

Lemma NoDup_subset_inference K : NoDup (subset_inference K).
Proof.
  unfold subset_inference.
  assert (∀ L1 L2 new, NoDup new →
            NoDup (foldl (λ new A, foldl (λ new B, subset_step K A B new) new L2)
                         new L1)) as Hgen.
  { induction L1 as [|A L1 IH]; intros L2 new Hnew; simpl; [done|].
    by apply IH, NoDup_subset_inner. }
  apply Hgen. constructor.
Qed.

End SubsetInference.

(** * One iteration of the inference loop *)

Section Pass.
Implicit Types (st : state) (c : Cell) (s A B : Sentence.t)
               (K : list Sentence.t) (M : gset Cell).

Lemma knowledge_infer_pass st :
  knowledge (infer_pass st).1
  = simplified st ++ subset_inference (simplified st).
Proof. done. Qed.

Lemma safes_infer_pass st : safes (infer_pass st).1 = safes (apply_marks st).
Proof. done. Qed.

Lemma mines_infer_pass st : mines (infer_pass st).1 = mines (apply_marks st).
Proof. done. Qed.

Lemma elem_of_simplified st s :
  s ∈ simplified st ↔ s ∈ knowledge (apply_marks st) ∧ Sentence.cells s ≠ ∅.
Proof.
  unfold simplified, remove_empty. rewrite list_elem_of_filter.
  unfold Sentence.len. split; intros [H1 H2]; split; try done.
  - intros Heq. rewrite Heq, size_empty in H1. lia.
  - destruct (size (Sentence.cells s)) eqn:Hsz; [|lia].
    apply size_empty_inv, leibniz_equiv in Hsz. done.
Qed.

Lemma sentence_true_resolvent M A B :
  sentence_true M A → sentence_true M B →
  Sentence.cells A ⊆ Sentence.cells B → sentence_true M (resolvent A B).
Proof.
  unfold sentence_true, resolvent. simpl. intros HA HB Hsub.
  rewrite HA, HB.
  assert ((Sentence.cells B ∖ Sentence.cells A) ∩ M
          = (Sentence.cells B ∩ M) ∖ (Sentence.cells A ∩ M)) as -> by set_solver.
  rewrite (size_difference (Sentence.cells B ∩ M) (Sentence.cells A ∩ M))
    by set_solver.
  assert (size (Sentence.cells A ∩ M) ≤ size (Sentence.cells B ∩ M))%nat
    by (apply subseteq_size; set_solver).
  lia.
Qed.

Lemma agrees_infer_pass M st : agrees M st → agrees M (infer_pass st).1.
Proof.
  intros Hst. apply agrees_apply_marks in Hst as [H1 H2 H3 H4].
  rewrite Forall_forall in H3, H4.
  split.
  - by rewrite safes_infer_pass.
  - by rewrite mines_infer_pass.
  - rewrite knowledge_infer_pass, Forall_app, !Forall_forall. split.
    + intros s [Hs _]%elem_of_simplified. auto.
    + intros s (A & B & [HA _]%elem_of_simplified & [HB _]%elem_of_simplified
                & (_ & Hsub & _) & -> & _)%elem_of_subset_inference.
      apply sentence_true_resolvent; auto.
  - rewrite knowledge_infer_pass, safes_infer_pass, mines_infer_pass.
    rewrite Forall_app, !Forall_forall. split.
    + intros s [Hs _]%elem_of_simplified. auto.
    + intros s (A & B & _ & [HB _]%elem_of_simplified
                & _ & -> & _)%elem_of_subset_inference.
      destruct (H4 B HB). simpl. set_solver.
Qed.

(** ** The live cells only shrink *)

Lemma live_mark_safe c st : live (mark_safe c st) ⊆ live st.
Proof.
  intros x. rewrite !elem_of_live. unfold mark_safe. case_decide; [done|].
  simpl. intros (s & (s0 & -> & Hs0)%list_elem_of_fmap & Hx).
  rewrite cells_mark_safe in Hx. exists s0. set_solver.
Qed.

Lemma live_mark_mine c st : live (mark_mine c st) ⊆ live st.
Proof.
  intros x. rewrite !elem_of_live. unfold mark_mine. case_decide; [done|].
  simpl. intros (s & (s0 & -> & Hs0)%list_elem_of_fmap & Hx).
  rewrite cells_mark_mine in Hx. exists s0. set_solver.
Qed.

Lemma live_apply_marks st : live (apply_marks st) ⊆ live st.
Proof.
  unfold apply_marks, mark_all_mine, mark_all_safe.
  generalize (elements (mines_to_mark (knowledge st))).
  generalize (elements (safes_to_mark (knowledge st))).
  intros l1 l2. transitivity (live (foldl (λ st safe, mark_safe safe st) st l1)).
  - generalize (foldl (λ st safe, mark_safe safe st) st l1). clear.
    induction l2 as [|a l IH]; intros st; simpl; [done|].
    etransitivity; [apply IH | apply live_mark_mine].
  - clear. revert st. induction l1 as [|a l IH]; intros st; simpl; [done|].
    etransitivity; [apply IH | apply live_mark_safe].
Qed.

Lemma live_infer_pass st : live (infer_pass st).1 ⊆ live (apply_marks st).
Proof.
  intros x. rewrite !elem_of_live, knowledge_infer_pass.
  intros (s & [Hs|Hs]%elem_of_app & Hx).
  - apply elem_of_simplified in Hs as [Hs _]. eauto.
  - apply elem_of_subset_inference in Hs
      as (A & B & _ & [HB _]%elem_of_simplified & _ & -> & _).
    exists B. simpl in Hx. set_solver.
Qed.

Lemma apply_marks_nothing st :
  safes_to_mark (knowledge st) = ∅ → mines_to_mark (knowledge st) = ∅ →
  apply_marks st = st.
Proof.
  intros Hs Hm. unfold apply_marks, mark_all_mine, mark_all_safe.
  by rewrite Hs, Hm, elements_empty.
Qed.

(** A cell that part A marks was live and is no longer. *)
Lemma marked_was_live st c :
  c ∈ safes_to_mark (knowledge st) ∪ mines_to_mark (knowledge st) →
  c ∈ live st.
Proof.
  rewrite elem_of_union, elem_of_safes_to_mark, elem_of_mines_to_mark,
    elem_of_live. naive_solver.
Qed.

Lemma marked_not_live M st c :
  agrees M st →
  c ∈ safes_to_mark (knowledge st) ∪ mines_to_mark (knowledge st) →
  c ∉ live (apply_marks st).
Proof.
  intros Hst Hc. apply agrees_apply_marks in Hst as [_ _ _ H4].
  rewrite Forall_forall in H4. rewrite elem_of_live. intros (s & Hs & Hx).
  destruct (H4 s Hs) as [Ha Hb].
  rewrite safes_apply_marks in Ha. rewrite mines_apply_marks in Hb.
  set_solver.
Qed.

End Pass.

(** * Termination of the inference loop *)

Section Termination.
Implicit Types (st : state) (c : Cell) (s A B : Sentence.t)
               (K : list Sentence.t) (M X Y : gset Cell).

Lemma length_filter_split {T} (P : T → Prop) `{!∀ x, Decision (P x)}
    (l : list T) :
  (length l = length (filter P l) + length (filter (λ x, ¬ P x) l))%nat.
Proof.
  induction l as [|a l IH]; [done|].
  rewrite !filter_cons. destruct (decide (P a)).
  - rewrite decide_False by tauto. simpl. lia.
  - rewrite decide_True by tauto. simpl. lia.
Qed.

Lemma strict_subset_by_elem `{Countable T} (X1 X2 : gset T) x :
  X1 ⊆ X2 → x ∈ X2 → x ∉ X1 → X1 ⊂ X2.
Proof. intros Hsub Hin Hni. split; [done|]. intros Hback. by apply Hni, Hback. Qed.

(** A list of distinct subsets of [X] has at most [2 ^ |X|] entries. *)
Lemma subsets_bound X (l : list (gset Cell)) :
  NoDup l → (∀ Y, Y ∈ l → Y ⊆ X) → (length l ≤ 2 ^ size X)%nat.
Proof.
  revert l. induction X as [|x X Hx IH] using set_ind_L; intros l Hnd Hsub.
  - rewrite size_empty. simpl.
    destruct l as [|a [|b l]]; simpl; [lia | lia |].
    assert (a = ∅) as -> by (apply leibniz_equiv; set_solver).
    assert (b = ∅) as -> by (apply leibniz_equiv; set_solver).
    apply NoDup_cons in Hnd as [Hnd _]. set_solver.
  - rewrite size_union, size_singleton by set_solver.
    rewrite (length_filter_split (λ Y, x ∈ Y) l).
    assert (length (filter (λ Y, x ∉ Y) l) ≤ 2 ^ size X)%nat as H0.
    { apply IH; [by apply NoDup_filter|].
      intros Y [HY Hin]%list_elem_of_filter. specialize (Hsub Y Hin). set_solver. }
    assert (length (filter (λ Y, x ∈ Y) l) ≤ 2 ^ size X)%nat as H1.
    { rewrite <-(length_fmap (λ Y, Y ∖ {[x]})). apply IH.
      - apply NoDup_fmap_2_strong; [|by apply NoDup_filter].
        intros Y1 Y2 [H1 _]%list_elem_of_filter [H2 _]%list_elem_of_filter Heq.
        apply set_eq. intros y. destruct (decide (y = x)); set_solver.
      - intros Y (Y' & -> & [HY Hin]%list_elem_of_filter)%list_elem_of_fmap.
        specialize (Hsub Y' Hin). set_solver. }
    change (2 ^ (1 + size X))%nat with (2 * 2 ^ size X)%nat. lia.
Qed.

Lemma elem_of_shapes st Y :
  Y ∈ shapes st ↔ ∃ s, s ∈ knowledge st ∧ Sentence.cells s = Y ∧ Y ≠ ∅.
Proof.
  unfold shapes. rewrite elem_of_list_to_set, list_elem_of_fmap.
  split.
  - intros (s & -> & [Hne Hs]%list_elem_of_filter). eauto.
  - intros (s & Hs & <- & Hne). exists s. by rewrite list_elem_of_filter.
Qed.

Lemma shapes_bound st : (size (shapes st) < 2 ^ size (live st))%nat.
Proof.
  pose proof (subsets_bound (live st) (∅ :: elements (shapes st))) as Hb.
  simpl in Hb. apply Hb.
  - apply NoDup_cons. split; [|apply NoDup_elements].
    rewrite elem_of_elements, elem_of_shapes. naive_solver.
  - intros Y [->|HY%elem_of_elements]%elem_of_cons; [set_solver|].
    apply elem_of_shapes in HY as (s & Hs & <- & _).
    intros x Hx. apply elem_of_live. eauto.
Qed.

(** Every iteration that sets [changes] lowers the measure. *)
Lemma pass_decreases M st :
  agrees M st → (infer_pass st).2 = true →
  (measure (infer_pass st).1 < measure st)%nat.
Proof.
  intros Hst Hch. unfold measure.
  pose proof (shapes_bound st) as Hb.
  pose proof (shapes_bound (infer_pass st).1) as Hb'.
  pose proof (live_infer_pass st) as Hl1.
  pose proof (live_apply_marks st) as Hl2.
  set (st' := (infer_pass st).1) in *.
  assert (size (live st') ≤ size (live st))%nat as Hle
    by (apply subseteq_size; set_solver).
  destruct (decide (safes_to_mark (knowledge st) ∪ mines_to_mark (knowledge st)
                    = ∅)) as [Hnone|Hsome].
  - (* nothing was marked: a sentence of a new shape was added *)
    assert (safes_to_mark (knowledge st) = ∅) as Hs by set_solver.
    assert (mines_to_mark (knowledge st) = ∅) as Hm by set_solver.
    unfold infer_pass in Hch. simpl in Hch. rewrite Hs, Hm in Hch.
    rewrite bool_decide_false in Hch by naive_solver. simpl in Hch.
    apply bool_decide_eq_true in Hch.
    fold (simplified st) in Hch.
    destruct (subset_inference (simplified st)) as [|new_s new] eqn:Hnew; [done|].
    assert (new_s ∈ subset_inference (simplified st)) as Hin
      by (rewrite Hnew; left).
    pose proof Hin as Hin'.
    apply elem_of_subset_inference in Hin
      as (A & B & HA & HB & (Hne & Hsub & Hdiff) & Heq & Hfresh).
    assert (apply_marks st = st) as Hid by by apply apply_marks_nothing.
    assert (shapes st ⊂ shapes st') as Hlt.
    { apply (strict_subset_by_elem _ _ (Sentence.cells new_s)).
      - intros Y (s & Hs' & <- & Hne')%elem_of_shapes.
        apply elem_of_shapes. exists s. split; [|done].
        subst st'. rewrite knowledge_infer_pass, elem_of_app. left.
        apply elem_of_simplified. by rewrite Hid.
      - apply elem_of_shapes. exists new_s. split_and!; [|done|].
        + subst st'. rewrite knowledge_infer_pass, elem_of_app. by right.
        + by rewrite Heq.
      - intros (s & Hs' & Hcells & _)%elem_of_shapes.
          apply Hfresh. replace new_s with s.
          { apply elem_of_simplified. rewrite Hid. split; [done|].
            rewrite Hcells, Heq. done. }
          pose proof (agrees_true _ _ Hst) as Ht.
          rewrite Forall_forall in Ht.
          assert (sentence_true M new_s) as Htn.
          { rewrite Heq. apply elem_of_simplified in HA as [HA _].
            apply elem_of_simplified in HB as [HB _]. rewrite Hid in HA, HB.
            apply sentence_true_resolvent; auto. }
          specialize (Ht s Hs'). unfold sentence_true in Ht, Htn.
          destruct s, new_s; simpl in *. congruence. }
    apply subset_size in Hlt.
    assert (2 ^ size (live st') ≤ 2 ^ size (live st))%nat
      by (apply Nat.pow_le_mono_r; lia).
    rewrite !Nat.add_1_r, !Nat.pow_succ_r'. lia.
  - (* some cell was marked: it is no longer live *)
    apply set_choose_L in Hsome as [c Hc].
    assert (live st' ⊂ live st) as Hlt.
    { apply (strict_subset_by_elem _ _ c); [set_solver | by eapply marked_was_live |].
      intros Hc'. eapply marked_not_live; eauto. }
    apply subset_size in Hlt.
    assert (2 ^ (size (live st') + 1) ≤ 2 ^ size (live st))%nat
      by (apply Nat.pow_le_mono_r; lia).
    rewrite (Nat.add_1_r (size (live st))), Nat.pow_succ_r'. lia.
Qed.

End Termination.

Section Loop.
Implicit Types (st : state) (c : Cell) (s A B : Sentence.t)
               (K : list Sentence.t) (M X Y : gset Cell).

Lemma remove_empty_idem K : remove_empty (remove_empty K) = remove_empty K.
Proof.
  unfold remove_empty. rewrite list_filter_filter.
  apply list_filter_iff. tauto.
Qed.

Lemma safes_to_mark_mono K K' :
  K ⊆ K' → safes_to_mark K' = ∅ → safes_to_mark K = ∅.
Proof.
  intros Hsub He. apply set_eq. intros c.
  split; [|set_solver]. intros (s & Hs & Hc)%elem_of_safes_to_mark.
  rewrite <-He. apply elem_of_safes_to_mark. eauto.
Qed.

Lemma mines_to_mark_mono K K' :
  K ⊆ K' → mines_to_mark K' = ∅ → mines_to_mark K = ∅.
Proof.
  intros Hsub He. apply set_eq. intros c.
  split; [|set_solver]. intros (s & Hs & Hc)%elem_of_mines_to_mark.
  rewrite <-He. apply elem_of_mines_to_mark. eauto.
Qed.

(** What an iteration that leaves [changes] unset has done. *)
Lemma infer_pass_unchanged st :
  (infer_pass st).2 = false →
  safes_to_mark (knowledge st) = ∅ ∧ mines_to_mark (knowledge st) = ∅
  ∧ subset_inference (remove_empty (knowledge st)) = []
  ∧ (infer_pass st).1
    = mk (rows st) (cols st) (moves_made st) (mines st) (safes st)
         (remove_empty (knowledge st)).
Proof.
  unfold infer_pass. simpl. intros [Hm Hn]%orb_false_elim.
  apply bool_decide_eq_false in Hm. apply bool_decide_eq_false in Hn.
  assert (safes_to_mark (knowledge st) = ∅) as Hs.
  { destruct (decide (safes_to_mark (knowledge st) = ∅)); [done|tauto]. }
  assert (mines_to_mark (knowledge st) = ∅) as Hmi.
  { destruct (decide (mines_to_mark (knowledge st) = ∅)); [done|tauto]. }
  rewrite (apply_marks_nothing st Hs Hmi) in *.
  assert (subset_inference (remove_empty (knowledge st)) = []) as Hnew.
  { destruct (subset_inference (remove_empty (knowledge st))); [done|].
    exfalso. by apply Hn. }
  by rewrite Hnew, app_nil_r.
Qed.

(** The state the loop stops in is a fixpoint of the iteration. *)
Lemma infer_pass_stable st :
  (infer_pass st).2 = false →
  infer_pass (infer_pass st).1 = ((infer_pass st).1, false).
Proof.
  intros (Hs & Hm & Hnew & Heq)%infer_pass_unchanged. rewrite Heq.
  assert (remove_empty (knowledge st) ⊆ knowledge st) as Hsub.
  { intros s. unfold remove_empty. rewrite list_elem_of_filter. tauto. }
  pose proof (safes_to_mark_mono _ _ Hsub Hs) as Hs'.
  pose proof (mines_to_mark_mono _ _ Hsub Hm) as Hm'.
  unfold infer_pass. simpl.
  rewrite apply_marks_nothing by done. simpl.
  rewrite remove_empty_idem, Hnew, app_nil_r, Hs', Hm'.
  done.
Qed.

Lemma infer_knowledge_S (fuel : nat) st :
  infer_knowledge (S fuel) st
  = if (infer_pass st).2 then infer_knowledge fuel (infer_pass st).1
    else Some (infer_pass st).1.
Proof. cbn [infer_knowledge]. by destruct (infer_pass st) as [st' []]. Qed.

Lemma infer_knowledge_enough M (fuel : nat) st :
  agrees M st → (measure st < fuel)%nat →
  ∃ st', infer_knowledge fuel st = Some st' ∧ agrees M st'
         ∧ infer_pass st' = (st', false).
Proof.
  revert st. induction fuel as [|fuel IH]; intros st Hst Hlt; [lia|].
  rewrite infer_knowledge_S. destruct (infer_pass st).2 eqn:Hch.
  - apply IH; [by apply agrees_infer_pass|].
    pose proof (pass_decreases M st Hst Hch). lia.
  - eexists. split_and!; [done | by apply agrees_infer_pass |].
    by apply infer_pass_stable.
Qed.

End Loop.

(** * Ingesting an observation *)

Section Ingest.
Implicit Types (st : state) (n cell : Cell) (s A B : Sentence.t)
               (K : list Sentence.t) (M X Y : gset Cell).

Lemma window_eq r c :
  window (r, c)
  = [(r + -1, c + -1); (r + -1, c + 0); (r + -1, c + 1);
     (r + 0, c + -1); (r + 0, c + 0); (r + 0, c + 1);
     (r + 1, c + -1); (r + 1, c + 0); (r + 1, c + 1)].
Proof.
  unfold window, range, seqZ. simpl.
  replace (r + 2 - (r - 1)) with 3 by lia.
  replace (c + 2 - (c - 1)) with 3 by lia.
  change (Z.to_nat 3) with 3%nat. cbn.
  repeat (apply (f_equal2 cons); [apply (f_equal2 pair); lia|]). done.
Qed.

Lemma elem_of_window cell n :
  n ∈ window cell ↔
  cell.1 - 1 <= n.1 <= cell.1 + 1 ∧ cell.2 - 1 <= n.2 <= cell.2 + 1.
Proof.
  destruct cell as [r c], n as [r' c']. rewrite window_eq. simpl.
  rewrite !elem_of_cons, elem_of_nil. split.
  - intros H. repeat (destruct H as [H|H]; [injection H as -> ->; lia|]). done.
  - intros [H1 H2].
    assert (r' = r + -1 ∨ r' = r + 0 ∨ r' = r + 1) as Hr by lia.
    assert (c' = c + -1 ∨ c' = c + 0 ∨ c' = c + 1) as Hc by lia.
    destruct Hr as [-> | [-> | ->]], Hc as [-> | [-> | ->]]; tauto.
Qed.

Lemma NoDup_window cell : NoDup (window cell).
Proof.
  destruct cell as [r c]. rewrite window_eq.
  change (NoDup ((λ d : Z * Z, (r + d.1, c + d.2))
                   <$> [(-1, -1); (-1, 0); (-1, 1); (0, -1); (0, 0); (0, 1);
                        (1, -1); (1, 0); (1, 1)])).
  apply NoDup_fmap_2.
  - intros [a b] [a' b'] [=]. f_equal; lia.
  - refine (bool_decide_unpack _ _). vm_compute. exact I.
Qed.

Lemma elem_of_neighbours st cell n :
  n ∈ neighbours st cell ↔
  n ≠ cell ∧ (cell.1 - 1 <= n.1 <= cell.1 + 1 ∧ cell.2 - 1 <= n.2 <= cell.2 + 1)
  ∧ (0 <= n.1 < rows st ∧ 0 <= n.2 < cols st).
Proof.
  unfold neighbours.
  rewrite elem_of_list_to_set, list_elem_of_filter, elem_of_window. tauto.
Qed.

Lemma scan_neighbors_fold st cell (l : list Cell) (acc : list Cell * Z) :
  foldl (scan_neighbor st cell) acc l
  = (acc.1 ++ filter (λ n, (n ≠ cell ∧ in_bounds st n)
                           ∧ (n ∉ mines st) ∧ (n ∉ safes st)) l,
     acc.2 + Z.of_nat (length (filter (λ n, (n ≠ cell ∧ in_bounds st n)
                                           ∧ n ∈ mines st) l))).
Proof.
  revert acc. induction l as [|n l IH]; intros [cs mf]; simpl.
  - by rewrite app_nil_r, Z.add_0_r.
  - rewrite IH, !filter_cons. unfold scan_neighbor, in_bounds. simpl.
    destruct (decide (n = cell)) as [Heq|Hne].
    { rewrite !decide_False by tauto. done. }
    destruct (decide (0 <= n.1 < rows st ∧ 0 <= n.2 < cols st)) as [Hin|Hout].
    2: { rewrite !decide_False by tauto. done. }
    destruct (decide (n ∈ mines st)) as [Hm|Hm].
    { rewrite decide_False by tauto. rewrite decide_True by tauto.
      simpl. f_equal. lia. }
    destruct (decide (n ∉ safes st)) as [Hs|Hs].
    { rewrite decide_True by tauto. rewrite decide_False by tauto.
      simpl. by rewrite <-app_assoc. }
    rewrite !decide_False by tauto. done.
Qed.

Lemma size_filter_list (P : Cell → Prop) `{!∀ n, Decision (P n)}
    (l : list Cell) :
  NoDup l →
  length (filter P l) = size (filter P (list_to_set l : gset Cell)).
Proof.
  intros Hnd.
  rewrite <-(size_list_to_set (C := gset Cell) (filter P l))
    by by apply NoDup_filter.
  f_equal. apply set_eq. intros x.
  rewrite elem_of_filter, !elem_of_list_to_set, list_elem_of_filter. done.
Qed.

(** What the neighbour scan of [add_knowledge] returns. *)
Lemma hidden_neighbors_spec st cell :
  list_to_set (hidden_neighbors st cell).1
    =@{gset Cell} neighbours st cell ∖ mines st ∖ safes st
  ∧ (hidden_neighbors st cell).2
    = Z.of_nat (size (neighbours st cell ∩ mines st)).
Proof.
  unfold hidden_neighbors. rewrite scan_neighbors_fold. simpl. split.
  - apply set_eq. intros n.
    rewrite elem_of_list_to_set, list_elem_of_filter, !elem_of_difference.
    unfold neighbours. rewrite elem_of_list_to_set, list_elem_of_filter.
    unfold in_bounds. tauto.
  - rewrite Z.add_0_l. f_equal.
    rewrite <-(size_list_to_set (C := gset Cell))
      by apply NoDup_filter, NoDup_window.
    f_equal. apply set_eq. intros n.
    rewrite elem_of_list_to_set, list_elem_of_filter, elem_of_intersection.
    unfold neighbours. rewrite elem_of_list_to_set, list_elem_of_filter.
    unfold in_bounds. tauto.
Qed.

Lemma list_to_set_nil_iff (l : list Cell) :
  list_to_set l =@{gset Cell} ∅ ↔ l = [].
Proof.
  split; [|by intros ->]. destruct l as [|a l]; [done|]. simpl. set_solver.
Qed.

(** The number the board shows on a cell without a mine counts the mines
    among the cell's neighbours. *)
Lemma sum_bind_count (P : Cell → Prop) `{!∀ n, Decision (P n)}
    (l : list Cell) :
  foldr Z.add 0 (l ≫= λ n, if decide (P n) then [1] else [])
  = Z.of_nat (length (filter P l)).
Proof.
  induction l as [|n l IH]; [done|].
  rewrite bind_cons, filter_cons, foldr_app.
  destruct (decide (P n)); simpl; rewrite IH; lia.
Qed.

Lemma decide_nested (P Q : Prop) `{!Decision P, !Decision Q} :
  (if decide P then if decide Q then [1] else [] else [])
  = if decide (P ∧ Q) then [1] else [].
Proof. repeat case_decide; done || tauto. Qed.

Lemma number_neighbours M st cell :
  cell ∉ M →
  MinesweeperEnv.number (rows st) (cols st) M cell
  = Z.of_nat (size (neighbours st cell ∩ M)).
Proof.
  intros Hcell.
  transitivity (foldr Z.add 0
                  (window cell ≫= λ n, if decide (in_bounds st n ∧ n ∈ M)
                                        then [1] else [])).
  - destruct cell as [r c]. rewrite window_eq.
    unfold MinesweeperEnv.number, in_bounds. cbn [mbind list_bind app foldr].
    cbn -[Z.add]. rewrite !decide_nested, !app_nil_r, <-!app_assoc. done.
  - rewrite sum_bind_count. f_equal.
    rewrite <-(size_list_to_set (C := gset Cell))
      by apply NoDup_filter, NoDup_window.
    f_equal. apply set_eq. intros n.
    rewrite elem_of_list_to_set, list_elem_of_filter, elem_of_intersection.
    unfold neighbours. rewrite elem_of_list_to_set, list_elem_of_filter.
    unfold in_bounds. split; [|tauto].
    intros [[Hb Hm] Hw]. split_and!; try done; try lia. by intros ->.
Qed.

(** Steps 1 to 3 of [add_knowledge], field by field. *)
Lemma ingest_fields cell cnt st :
  rows (ingest cell cnt st) = rows st
  ∧ cols (ingest cell cnt st) = cols st
  ∧ moves_made (ingest cell cnt st) = {[cell]} ∪ moves_made st
  ∧ mines (ingest cell cnt st) = mines st
  ∧ safes (ingest cell cnt st) = {[cell]} ∪ safes st.
Proof.
  unfold ingest.
  destruct (rows_cols_mark_safe cell st) as (Hr & Hc & Hmm).
  destruct (hidden_neighbors _ cell) as [[|n cs] mf]; simpl;
    rewrite Hr, Hc, Hmm, mines_mark_safe, safes_mark_safe; done.
Qed.

Lemma neighbours_ext st st' cell :
  rows st' = rows st → cols st' = cols st →
  neighbours st' cell = neighbours st cell.
Proof. unfold neighbours. by intros -> ->. Qed.

Lemma knowledge_ingest cell cnt st :
  let hidden := neighbours st cell ∖ mines st ∖ ({[cell]} ∪ safes st) in
  knowledge (ingest cell cnt st)
  = knowledge (mark_safe cell st)
    ++ (if decide (hidden = ∅) then []
        else [Sentence.mk hidden
                (cnt - Z.of_nat (size (neighbours st cell ∩ mines st)))]).
Proof.
  intros hidden. unfold ingest.
  destruct (rows_cols_mark_safe cell st) as (Hr & Hc & Hmm).
  set (st2 := mk _ _ _ _ _ _).
  destruct (hidden_neighbors_spec st2 cell) as [Hcs Hmf].
  assert (neighbours st2 cell = neighbours st cell) as Hnb
    by (by apply neighbours_ext).
  assert (mines st2 = mines st) as Hm2 by apply mines_mark_safe.
  assert (safes st2 = {[cell]} ∪ safes st) as Hs2 by apply safes_mark_safe.
  rewrite Hnb, Hm2 in Hmf. rewrite Hnb, Hm2, Hs2 in Hcs. fold hidden in Hcs.
  destruct (hidden_neighbors st2 cell) as [cs mf]. cbn [fst snd] in Hcs, Hmf.
  destruct cs as [|n cs].
  - rewrite decide_True by (symmetry; exact Hcs). by rewrite app_nil_r.
  - rewrite decide_False.
    + by rewrite Hcs, Hmf.
    + rewrite <-Hcs. rewrite list_to_set_nil_iff. done.
Qed.

Lemma agrees_ingest M cell st :
  agrees M st → cell ∉ M →
  agrees M (ingest cell (MinesweeperEnv.number (rows st) (cols st) M cell) st).
Proof.
  intros Hst Hcell.
  pose proof (agrees_mark_safe M cell st Hcell Hst) as [H1 H2 H3 H4].
  destruct (ingest_fields cell (MinesweeperEnv.number (rows st) (cols st) M cell) st)
    as (_ & _ & _ & Hmi & Hsa).
  rewrite safes_mark_safe in H1, H4. rewrite mines_mark_safe in H2, H4.
  destruct Hst as [Hs0 Hm0 _ _].
  split.
  - by rewrite Hsa.
  - by rewrite Hmi.
  - rewrite knowledge_ingest, Forall_app. split; [done|].
    case_decide; [constructor|]. apply Forall_singleton.
    unfold sentence_true. simpl. rewrite number_neighbours by done.
    assert ((neighbours st cell ∖ mines st ∖ ({[cell]} ∪ safes st)) ∩ M
            = (neighbours st cell ∩ M) ∖ (neighbours st cell ∩ mines st)) as ->.
    { apply set_eq. intros n. set_solver. }
    rewrite (size_difference (neighbours st cell ∩ M)
                             (neighbours st cell ∩ mines st)) by set_solver.
    assert (size (neighbours st cell ∩ mines st)
            ≤ size (neighbours st cell ∩ M))%nat
      by (apply subseteq_size; set_solver).
    lia.
  - rewrite knowledge_ingest, Hsa, Hmi, Forall_app. split; [done|].
    case_decide; [constructor|]. apply Forall_singleton. simpl. set_solver.
Qed.

Lemma reachable_dims M height width st :
  reachable M height width st → rows st = height ∧ cols st = width.
Proof.
  induction 1 as [|st cell _ [IHr IHc] _|st _ [IHr IHc]].
  - done.
  - destruct (ingest_fields cell (MinesweeperEnv.number height width M cell) st)
      as (-> & -> & _). done.
  - unfold infer_pass, apply_marks, mark_all_mine, mark_all_safe. simpl.
    generalize (elements (mines_to_mark (knowledge st))).
    generalize (elements (safes_to_mark (knowledge st))). intros l1 l2.
    assert (∀ l st, rows (foldl (λ st mine, mark_mine mine st) st l) = rows st
                    ∧ cols (foldl (λ st mine, mark_mine mine st) st l) = cols st)
      as Hmine.
    { clear. induction l as [|a l IH]; intros st; simpl; [done|].
      destruct (IH (mark_mine a st)) as [-> ->].
      destruct (rows_cols_mark_mine a st) as (-> & -> & _). done. }
    assert (∀ l st, rows (foldl (λ st safe, mark_safe safe st) st l) = rows st
                    ∧ cols (foldl (λ st safe, mark_safe safe st) st l) = cols st)
      as Hsafe.
    { clear. induction l as [|a l IH]; intros st; simpl; [done|].
      destruct (IH (mark_safe a st)) as [-> ->].
      destruct (rows_cols_mark_safe a st) as (-> & -> & _). done. }
    destruct (Hmine l2 (foldl (λ st safe, mark_safe safe st) st l1)) as [-> ->].
    destruct (Hsafe l1 st) as [-> ->]. done.
Qed.

Lemma reachable_agrees M height width st :
  reachable M height width st → agrees M st.
Proof.
  induction 1 as [|st cell Hreach IH Hcell|st _ IH].
  - split; simpl; [set_solver | set_solver | constructor | constructor].
  - destruct (reachable_dims _ _ _ _ Hreach) as [<- <-].
    by apply agrees_ingest.
  - by apply agrees_infer_pass.
Qed.

End Ingest.

(** * The knowledge base: what the specification claims *)

Lemma zero_count_marked_safe st s c :
  s ∈ knowledge st → Sentence.count s = 0 → c ∈ Sentence.cells s →
  c ∈ safes (infer_pass st).1.
Proof.
  intros Hs H0 Hc. rewrite safes_infer_pass, safes_apply_marks.
  apply elem_of_union_l, elem_of_safes_to_mark. eauto.
Qed.

(** C1. In an iteration of the inference loop, let [K] be the knowledge
    base part C works on.  For every two sentences [A], [B] of [K] with
    [A ≠ B], [A.cells ⊆ B.cells] and a non-empty difference, the sentence
    [{B.cells − A.cells, B.count − A.count}], when no equal sentence is in
    [K], is appended (once) by this iteration, which therefore sets
    [changes]; and when its count is 0 the next iteration records every
    cell of the difference as safe. *)
Theorem subset_resolution_derives st A B :
  A ∈ simplified st → B ∈ simplified st →
  A ≠ B → Sentence.cells A ⊆ Sentence.cells B →
  Sentence.cells B ∖ Sentence.cells A ≠ ∅ →
  resolvent A B ∉ simplified st →
  knowledge (infer_pass st).1 = simplified st ++ subset_inference (simplified st)
  ∧ resolvent A B ∈ subset_inference (simplified st)
  ∧ NoDup (subset_inference (simplified st))
  ∧ (infer_pass st).2 = true
  ∧ (Sentence.count B = Sentence.count A →
     ∀ c, c ∈ Sentence.cells B ∖ Sentence.cells A →
          c ∈ safes (infer_pass (infer_pass st).1).1).
Proof.
  intros HA HB Hne Hsub Hdiff Hfresh.
  assert (resolvent A B ∈ subset_inference (simplified st)) as Hin.
  { apply elem_of_subset_inference. exists A, B. by repeat split. }
  split_and!.
  - apply knowledge_infer_pass.
  - done.
  - apply NoDup_subset_inference.
  - unfold infer_pass. cbn [snd]. apply orb_true_iff. right.
    apply bool_decide_eq_true. fold (simplified st).
    intros Hnil. rewrite Hnil in Hin. by apply elem_of_nil in Hin.
  - intros Hcount c Hc.
    apply (zero_count_marked_safe _ (resolvent A B)).
    + rewrite knowledge_infer_pass, elem_of_app. by right.
    + simpl. lia.
    + done.
Qed.

(** Scenario C: from [{A, B, C} = 1] and [{A, B} = 1] the first iteration
    derives [{C} = 0], the second records [C] as safe, and the loop stops
    after the third with [C] safe. *)
Lemma subset_resolution_scenario_C :
  let A := Sentence.mk {[Examples.cA; Examples.cB]} 1 in
  let B := Sentence.mk {[Examples.cA; Examples.cB; Examples.cC]} 1 in
  (A ∈ simplified Examples.scenario_C ∧ B ∈ simplified Examples.scenario_C
   ∧ A ≠ B ∧ Sentence.cells A ⊆ Sentence.cells B
   ∧ Sentence.cells B ∖ Sentence.cells A ≠ ∅
   ∧ resolvent A B ∉ simplified Examples.scenario_C)
  ∧ resolvent A B = Sentence.mk {[Examples.cC]} 0
  ∧ knowledge (infer_pass Examples.scenario_C).1
    = [B; A; Sentence.mk {[Examples.cC]} 0]
  ∧ Examples.cC ∈ safes (infer_pass (infer_pass Examples.scenario_C).1).1
  ∧ ∃ st', infer_knowledge 3 Examples.scenario_C = Some st'
           ∧ Examples.cC ∈ safes st'.
Proof.
  intros A B.
  assert (A ∈ simplified Examples.scenario_C) as H1 by by_evaluation.
  assert (B ∈ simplified Examples.scenario_C) as H2 by by_evaluation.
  assert (A ≠ B) as H3 by by_evaluation.
  assert (Sentence.cells A ⊆ Sentence.cells B) as H4 by by_evaluation.
  assert (Sentence.cells B ∖ Sentence.cells A ≠ ∅) as H5 by by_evaluation.
  assert (resolvent A B ∉ simplified Examples.scenario_C) as H6 by by_evaluation.
  destruct (subset_resolution_derives Examples.scenario_C A B H1 H2 H3 H4 H5 H6)
    as (_ & _ & _ & _ & Hsafe).
  split; [done|]. split; [by_evaluation|]. split; [by_evaluation|].
  split; [apply Hsafe; [done | by_evaluation]|].
  eexists. split; [vm_compute; reflexivity | by_evaluation].
Defined.

(** C2, amended.  From every state a game against a fixed board drives
    the agent through, where each number taken in is the board's, the loop
    of [infer_knowledge] stops: within [measure st + 1] iterations it
    returns a state in which a further iteration marks no cell, adds no
    sentence and leaves [changes] unset. *)
Theorem infer_knowledge_terminates M height width st :
  reachable M height width st →
  ∃ st', infer_knowledge (S (measure st)) st = Some st'
         ∧ infer_pass st' = (st', false).
Proof.
  intros Hreach. apply reachable_agrees in Hreach.
  destruct (infer_knowledge_enough M (S (measure st)) st Hreach) as (st' & ? & _ & ?);
    eauto.
Qed.

Lemma infer_knowledge_terminates_first_look :
  reachable Examples.corner_mine 2 2 Examples.first_look
  ∧ ∃ st', infer_knowledge (S (measure Examples.first_look)) Examples.first_look
           = Some st'
           ∧ infer_pass st' = (st', false).
Proof.
  assert (reachable Examples.corner_mine 2 2 Examples.first_look) as Hreach.
  { apply reach_ingest; [apply reach_init | by_evaluation]. }
  split; [exact Hreach|].
  exact (infer_knowledge_terminates _ _ _ _ Hreach).
Defined.

(** C3, as the code has it.  [mark_safe] and [mark_mine] do not check the
    count: marking the only cell of [{(0, 0)} = 1] safe leaves [{} = 1], and
    marking the only cell of [{(0, 0)} = 0] a mine leaves [{} = -1]. *)
Lemma marks_break_well_formed :
  Forall Sentence.well_formed (knowledge Examples.one_mine)
  ∧ ¬ Forall Sentence.well_formed (knowledge (mark_safe (0, 0) Examples.one_mine))
  ∧ Forall Sentence.well_formed (knowledge Examples.one_safe)
  ∧ ¬ Forall Sentence.well_formed (knowledge (mark_mine (0, 0) Examples.one_safe)).
Proof. split_and!; by_evaluation. Qed.

(** C3, amended.  When the knowledge base agrees with the board, every
    sentence satisfies [0 ≤ count ≤ |cells|], and still does after marking
    safe a cell without a mine, after marking as a mine a cell with one,
    after part A of an iteration, after a whole iteration, and after
    ingesting the board's number for a cell without a mine. *)
Theorem well_formed_on_truthful_board M st :
  agrees M st →
  Forall Sentence.well_formed (knowledge st)
  ∧ (∀ cell, cell ∉ M →
       Forall Sentence.well_formed (knowledge (mark_safe cell st)))
  ∧ (∀ cell, cell ∈ M →
       Forall Sentence.well_formed (knowledge (mark_mine cell st)))
  ∧ Forall Sentence.well_formed (knowledge (apply_marks st))
  ∧ Forall Sentence.well_formed (knowledge (infer_pass st).1)
  ∧ (∀ cell, cell ∉ M →
       Forall Sentence.well_formed
         (knowledge (ingest cell
                       (MinesweeperEnv.number (rows st) (cols st) M cell) st))).
Proof.
  assert (∀ st', agrees M st' → Forall Sentence.well_formed (knowledge st'))
    as Hwf.
  { intros st' [_ _ Ht _]. eapply Forall_impl; [exact Ht|].
    intros s. apply true_well_formed. }
  intros Hst. split_and!.
  - by apply Hwf.
  - intros cell Hc. by apply Hwf, agrees_mark_safe.
  - intros cell Hc. by apply Hwf, agrees_mark_mine.
  - by apply Hwf, agrees_apply_marks.
  - by apply Hwf, agrees_infer_pass.
  - intros cell Hc. by apply Hwf, agrees_ingest.
Qed.

Lemma well_formed_on_truthful_board_first_look :
  agrees Examples.corner_mine Examples.first_look
  ∧ Forall Sentence.well_formed (knowledge Examples.first_look)
  ∧ Forall Sentence.well_formed
      (knowledge (mark_safe (1, 1) Examples.first_look))
  ∧ Forall Sentence.well_formed
      (knowledge (mark_mine (0, 0) Examples.first_look)).
Proof.
  assert (agrees Examples.corner_mine Examples.first_look) as Hag.
  { apply (reachable_agrees _ 2 2).
    apply reach_ingest; [apply reach_init | by_evaluation]. }
  destruct (well_formed_on_truthful_board _ _ Hag) as (H1 & H2 & H3 & _).
  split_and!; [done | done | |].
  - apply H2. by_evaluation.
  - apply H3. by_evaluation.
Defined.

(** C4. Steps 1 to 3 of [add_knowledge] record the cell as safe and as a
    move made, leave the known mines alone, and append to the (simplified)
    sentences exactly one sentence when the cell has in-bounds neighbours
    that are neither known safe nor known mines: its cells are those
    neighbours and its count is the number seen minus the number of
    neighbours that are known mines.  When there is no such neighbour no
    sentence is appended. *)
Theorem ingest_appends_hidden_neighbours cell h st :
  let hidden := neighbours st cell ∖ mines st ∖ safes st in
  let flagged := neighbours st cell ∩ mines st in
  (∀ n, n ∈ neighbours st cell ↔
        n ≠ cell
        ∧ (cell.1 - 1 <= n.1 <= cell.1 + 1 ∧ cell.2 - 1 <= n.2 <= cell.2 + 1)
        ∧ (0 <= n.1 < rows st ∧ 0 <= n.2 < cols st))
  ∧ safes (ingest cell h st) = {[cell]} ∪ safes st
  ∧ moves_made (ingest cell h st) = {[cell]} ∪ moves_made st
  ∧ mines (ingest cell h st) = mines st
  ∧ knowledge (ingest cell h st)
    = knowledge (mark_safe cell st)
      ++ (if decide (hidden = ∅) then []
          else [Sentence.mk hidden (h - Z.of_nat (size flagged))]).
Proof.
  intros hidden flagged.
  destruct (ingest_fields cell h st) as (_ & _ & Hmm & Hmi & Hsa).
  split_and!; try done.
  - intros n. apply elem_of_neighbours.
  - rewrite knowledge_ingest.
    assert (neighbours st cell ∖ mines st ∖ ({[cell]} ∪ safes st) = hidden) as ->.
    { subst hidden. apply set_eq. intros n.
      rewrite !elem_of_difference, elem_of_union, elem_of_singleton,
        elem_of_neighbours. tauto. }
    done.
Qed.

(** C9. Calling [mark_safe], or [mark_mine], a second time with the same
    cell leaves the whole state as the first call left it. *)
Theorem mark_twice_same cell st :
  mark_safe cell (mark_safe cell st) = mark_safe cell st
  ∧ mark_mine cell (mark_mine cell st) = mark_mine cell st.
Proof.
  split.
  - unfold mark_safe at 2 3. case_decide.
    + unfold mark_safe. by rewrite decide_True.
    + unfold mark_safe. simpl. rewrite decide_True; [done | set_solver].
  - unfold mark_mine at 2 3. case_decide.
    + unfold mark_mine. by rewrite decide_True.
    + unfold mark_mine. simpl. rewrite decide_True; [done | set_solver].
Qed.

(** * Outside the reachable states *)

Section Drift.
Import Examples.
Implicit Types (st : state) (s : Sentence.t).

Lemma row_facts :
  row4 ⊆ row5 ∧ last ⊆ row5 ∧ row5 ∖ row4 = last ∧ row5 ∖ last = row4
  ∧ row5 ⊈ row4 ∧ row5 ⊈ last ∧ row4 ⊈ last ∧ last ⊈ row4
  ∧ row4 ≠ ∅ ∧ row5 ≠ ∅ ∧ last ≠ ∅ ∧ row4 ≠ row5 ∧ last ≠ row5
  ∧ size row5 = 5%nat ∧ size row4 = 4%nat ∧ size last = 1%nat.
Proof. split_and!; by_evaluation. Qed.

Lemma drifting_nonempty s : drifting_sentence s → Sentence.cells s ≠ ∅.
Proof.
  destruct row_facts as (_ & _ & _ & _ & _ & _ & _ & _ & H4 & H5 & Hl & _).
  intros [[-> _] | [[-> | ->] _]]; done.
Qed.

Lemma drifting_no_marks st :
  drifting st →
  safes_to_mark (knowledge st) = ∅ ∧ mines_to_mark (knowledge st) = ∅.
Proof.
  intros (_ & _ & _ & Hall). rewrite Forall_forall in Hall.
  destruct row_facts
    as (_ & _ & _ & _ & _ & _ & _ & _ & _ & _ & _ & _ & _ & S5 & S4 & S1).
  split; apply set_eq; intros c; (split; [|set_solver]).
  - intros (s & Hs & H0 & _)%elem_of_safes_to_mark.
    destruct (Hall s Hs) as [[_ ?] | [_ [k ?]]]; lia.
  - intros (s & Hs & Hl & _ & _)%elem_of_mines_to_mark.
    unfold Sentence.len in Hl.
    destruct (Hall s Hs) as [[Hc ?] | [[Hc | Hc] [k ?]]];
      rewrite Hc, ?S5, ?S4, ?S1 in Hl; lia.
Qed.

Lemma drifting_simplified st s :
  drifting st → (s ∈ simplified st ↔ s ∈ knowledge st).
Proof.
  intros Hd. destruct (drifting_no_marks st Hd) as [Hs Hm].
  rewrite elem_of_simplified, apply_marks_nothing by done.
  destruct Hd as (_ & _ & _ & Hall). rewrite Forall_forall in Hall.
  split; [tauto|]. intros Hin. split; [done|].
  by apply drifting_nonempty, Hall.
Qed.

Lemma drifting_resolvent A B :
  drifting_sentence A → drifting_sentence B → resolvable A B →
  drifting_sentence (resolvent A B).
Proof.
  destruct row_facts
    as (_ & _ & D4 & Dl & N54 & N5l & N4l & Nl4 & _).
  intros HA HB (_ & Hsub & Hdiff).
  assert (∀ X : gset Cell, X ∖ X = ∅) as Hdiag by (intros X; apply difference_diag_L).
  unfold drifting_sentence, resolvent. cbn [Sentence.cells Sentence.count].
  destruct HA as [[HA HcA] | [[HA | HA] [k HcA]]];
    destruct HB as [[HB HcB] | [[HB | HB] [k' HcB]]];
    rewrite HA, HB in Hsub, Hdiff; rewrite HA, HB;
    try (exfalso; apply Hdiff, Hdiag);
    try (exfalso; contradiction).
  - right. rewrite D4. split; [by right|].
    destruct HcB as [-> | ->]; [exists (- k - 1) | exists (- k)]; lia.
  - right. rewrite Dl. split; [by left|].
    destruct HcB as [-> | ->]; [exists (- k - 1) | exists (- k)]; lia.
Qed.

Lemma drifting_pass st :
  drifting st → (infer_pass st).2 = true ∧ drifting (infer_pass st).1.
Proof.
  intros Hd. pose proof Hd as (H1 & H4 & [x Hx] & Hall).
  rewrite Forall_forall in Hall.
  destruct row_facts
    as (S45 & Sl5 & D4 & Dl & _ & _ & _ & _ & N4 & _ & Nl & N45 & Nl5 & _).
  split.
  - destruct (infer_pass st).2 eqn:Hch; [done|]. exfalso.
    apply infer_pass_unchanged in Hch as (Hs & Hm & Hnew & _).
    assert (∀ A B, A ∈ knowledge st → B ∈ knowledge st → resolvable A B →
                   resolvent A B ∈ knowledge st) as Hclosed.
    { intros A B HA HB Hres.
      destruct (decide (resolvent A B ∈ simplified st)) as [Hin|Hni].
      - by apply drifting_simplified in Hin.
      - assert (resolvent A B ∈ subset_inference (simplified st)) as Hin.
        { apply elem_of_subset_inference. exists A, B.
          split_and!; [by apply drifting_simplified
                      | by apply drifting_simplified | done | done | done]. }
        unfold simplified in Hin.
        rewrite (apply_marks_nothing st Hs Hm), Hnew in Hin.
        by apply elem_of_nil in Hin. }
    assert (∀ y, Sentence.mk row4 y ∈ knowledge st →
                 Sentence.mk row4 (y - 3) ∈ knowledge st) as Hstep.
    { intros y Hy.
      assert (Sentence.mk last (4 - y) ∈ knowledge st) as Hl.
      { specialize (Hclosed _ _ Hy H4). unfold resolvent in Hclosed.
        cbn [Sentence.cells Sentence.count] in Hclosed.
        rewrite D4 in Hclosed. apply Hclosed.
        split; [|split]; cbn [Sentence.cells].
        - intros Heq. apply (f_equal Sentence.cells) in Heq. exact (N45 Heq).
        - exact S45.
        - rewrite D4. exact Nl. }
      specialize (Hclosed _ _ Hl H1). unfold resolvent in Hclosed.
      cbn [Sentence.cells Sentence.count] in Hclosed. rewrite Dl in Hclosed.
      replace (1 - (4 - y)) with (y - 3) in Hclosed by lia.
      apply Hclosed. split; [|split]; cbn [Sentence.cells].
      - intros Heq. apply (f_equal Sentence.cells) in Heq. exact (Nl5 Heq).
      - exact Sl5.
      - rewrite Dl. exact N4. }
    assert (∀ k : nat, Sentence.mk row4 (x - 3 * Z.of_nat k) ∈ knowledge st)
      as Hall_k.
    { induction k as [|k IH].
      - by replace (x - 3 * Z.of_nat 0) with x by lia.
      - replace (x - 3 * Z.of_nat (S k)) with (x - 3 * Z.of_nat k - 3) by lia.
        by apply Hstep. }
    set (l := (λ k : nat, Sentence.mk row4 (x - 3 * Z.of_nat k))
                <$> seq 0 (S (length (knowledge st)))).
    assert (l ⊆+ knowledge st) as Hsub.
    { apply NoDup_submseteq.
      - apply NoDup_fmap_2; [|apply NoDup_seq].
        intros k k' [= Heq]. lia.
      - intros s (k & -> & _)%list_elem_of_fmap. apply Hall_k. }
    apply submseteq_length in Hsub. subst l.
    rewrite length_fmap, length_seq in Hsub. lia.
  - assert (∀ s, s ∈ knowledge (infer_pass st).1 →
                 s ∈ knowledge st
                 ∨ ∃ A B, A ∈ knowledge st ∧ B ∈ knowledge st
                          ∧ resolvable A B ∧ s = resolvent A B) as Hk.
    { intros s. rewrite knowledge_infer_pass, elem_of_app.
      intros [Hs | (A & B & HA & HB & Hres & -> & _)%elem_of_subset_inference].
      - left. by apply drifting_simplified in Hs.
      - right. exists A, B. by rewrite <-!drifting_simplified. }
    assert (∀ s, s ∈ knowledge st → s ∈ knowledge (infer_pass st).1) as Hkeep.
    { intros s Hs. rewrite knowledge_infer_pass, elem_of_app. left.
      by apply drifting_simplified. }
    split_and!; [by apply Hkeep | by apply Hkeep | exists x; by apply Hkeep |].
    apply Forall_forall. intros s [Hs | (A & B & HA & HB & Hres & ->)]%Hk.
    + by apply Hall.
    + apply drifting_resolvent; auto.
Qed.

(** On a knowledge base that agrees with no board the loop need not
    stop: from [mismatch], whose three sentences each satisfy
    [0 ≤ count ≤ |cells|], every iteration adds a sentence. *)
Lemma infer_knowledge_runs_on (fuel : nat) :
  Forall Sentence.well_formed (knowledge mismatch)
  ∧ infer_knowledge fuel mismatch = None.
Proof.
  split; [by_evaluation|].
  assert (drifting mismatch) as Hd.
  { split_and!; [by_evaluation | by_evaluation | exists 2; by_evaluation |].
    apply Forall_cons. split; [left; split; [done | by left]|].
    apply Forall_cons. split; [left; split; [done | by right]|].
    apply Forall_cons. split; [right; split; [by left | by exists 0]|].
    apply Forall_nil_2. }
  revert Hd. generalize mismatch.
  induction fuel as [|fuel IH]; intros st Hd; [done|].
  rewrite infer_knowledge_S.
  destruct (drifting_pass st Hd) as [-> Hd']. by apply IH.
Qed.

End Drift.

(** * Numbers no board gives *)

Section Wander.
Import Untruthful.
Implicit Types (st : state) (s : Sentence.t).

Lemma wander_facts :
  one ⊆ three ∧ two ⊆ three ∧ three ∖ one = two ∧ three ∖ two = one
  ∧ three ⊈ one ∧ three ⊈ two ∧ one ⊈ two ∧ two ⊈ one
  ∧ one ≠ ∅ ∧ three ≠ ∅ ∧ two ≠ ∅ ∧ one ≠ three ∧ two ≠ three
  ∧ size three = 3%nat ∧ size one = 1%nat ∧ size two = 2%nat.
Proof. split_and!; by_evaluation. Qed.

Lemma wandering_nonempty s : wandering_sentence s → Sentence.cells s ≠ ∅.
Proof.
  destruct wander_facts as (_ & _ & _ & _ & _ & _ & _ & _ & H1 & H3 & H2 & _).
  intros [[-> _] | [[-> _] | [-> _]]]; done.
Qed.

Lemma wandering_no_marks st :
  wandering st →
  safes_to_mark (knowledge st) = ∅ ∧ mines_to_mark (knowledge st) = ∅.
Proof.
  intros (_ & _ & _ & Hall). rewrite Forall_forall in Hall.
  destruct wander_facts
    as (_ & _ & _ & _ & _ & _ & _ & _ & _ & _ & _ & _ & _ & S3 & S1 & S2).
  split; apply set_eq; intros c; (split; [|set_solver]).
  - intros (s & Hs & H0 & _)%elem_of_safes_to_mark.
    destruct (Hall s Hs) as [[_ ?] | [[_ [k ?]] | [_ [k ?]]]]; lia.
  - intros (s & Hs & Hl & _ & _)%elem_of_mines_to_mark.
    unfold Sentence.len in Hl.
    destruct (Hall s Hs) as [[Hc ?] | [[Hc [k ?]] | [Hc [k ?]]]];
      rewrite Hc, ?S3, ?S1, ?S2 in Hl; lia.
Qed.

Lemma wandering_simplified st s :
  wandering st → (s ∈ simplified st ↔ s ∈ knowledge st).
Proof.
  intros Hd. destruct (wandering_no_marks st Hd) as [Hs Hm].
  rewrite elem_of_simplified, apply_marks_nothing by done.
  destruct Hd as (_ & _ & _ & Hall). rewrite Forall_forall in Hall.
  split; [tauto|]. intros Hin. split; [done|].
  by apply wandering_nonempty, Hall.
Qed.

Lemma wandering_resolvent A B :
  wandering_sentence A → wandering_sentence B → resolvable A B →
  wandering_sentence (resolvent A B).
Proof.
  destruct wander_facts
    as (_ & _ & D1 & D2 & N31 & N32 & N12 & N21 & _).
  intros HA HB (_ & Hsub & Hdiff).
  assert (∀ X : gset Cell, X ∖ X = ∅) as Hdiag
    by (intros X; apply difference_diag_L).
  unfold wandering_sentence, resolvent. cbn [Sentence.cells Sentence.count].
  destruct HA as [[HA HcA] | [[HA [k HcA]] | [HA [k HcA]]]];
    destruct HB as [[HB HcB] | [[HB [k' HcB]] | [HB [k' HcB]]]];
    rewrite HA, HB in Hsub, Hdiff; rewrite HA, HB;
    try (exfalso; apply Hdiff, Hdiag);
    try (exfalso; contradiction).
  - right; right. rewrite D1. split; [done|].
    destruct HcB as [-> | ->]; [exists (- k - 1) | exists (- k)]; lia.
  - right; left. rewrite D2. split; [done|].
    destruct HcB as [-> | ->]; [exists (- k - 1) | exists (- k)]; lia.
Qed.

Lemma wandering_pass st :
  wandering st → (infer_pass st).2 = true ∧ wandering (infer_pass st).1.
Proof.
  intros Hd. pose proof Hd as (H1 & H5 & [x Hx] & Hall).
  rewrite Forall_forall in Hall.
  destruct wander_facts
    as (S13 & S23 & D1 & D2 & _ & _ & _ & _ & N1 & _ & N2 & N13 & N23 & _).
  split.
  - destruct (infer_pass st).2 eqn:Hch; [done|]. exfalso.
    apply infer_pass_unchanged in Hch as (Hs & Hm & Hnew & _).
    assert (∀ A B, A ∈ knowledge st → B ∈ knowledge st → resolvable A B →
                   resolvent A B ∈ knowledge st) as Hclosed.
    { intros A B HA HB Hres.
      destruct (decide (resolvent A B ∈ simplified st)) as [Hin|Hni].
      - by apply wandering_simplified in Hin.
      - assert (resolvent A B ∈ subset_inference (simplified st)) as Hin.
        { apply elem_of_subset_inference. exists A, B.
          split_and!; [by apply wandering_simplified
                      | by apply wandering_simplified | done | done | done]. }
        unfold simplified in Hin.
        rewrite (apply_marks_nothing st Hs Hm), Hnew in Hin.
        by apply elem_of_nil in Hin. }
    assert (∀ y, Sentence.mk one y ∈ knowledge st →
                 Sentence.mk one (y - 4) ∈ knowledge st) as Hstep.
    { intros y Hy.
      assert (Sentence.mk two (5 - y) ∈ knowledge st) as Hl.
      { specialize (Hclosed _ _ Hy H5). unfold resolvent in Hclosed.
        cbn [Sentence.cells Sentence.count] in Hclosed.
        rewrite D1 in Hclosed. apply Hclosed.
        split; [|split]; cbn [Sentence.cells].
        - intros Heq. apply (f_equal Sentence.cells) in Heq. exact (N13 Heq).
        - exact S13.
        - rewrite D1. exact N2. }
      specialize (Hclosed _ _ Hl H1). unfold resolvent in Hclosed.
      cbn [Sentence.cells Sentence.count] in Hclosed. rewrite D2 in Hclosed.
      replace (1 - (5 - y)) with (y - 4) in Hclosed by lia.
      apply Hclosed. split; [|split]; cbn [Sentence.cells].
      - intros Heq. apply (f_equal Sentence.cells) in Heq. exact (N23 Heq).
      - exact S23.
      - rewrite D2. exact N1. }
    assert (∀ k : nat, Sentence.mk one (x - 4 * Z.of_nat k) ∈ knowledge st)
      as Hall_k.
    { induction k as [|k IH].
      - by replace (x - 4 * Z.of_nat 0) with x by lia.
      - replace (x - 4 * Z.of_nat (S k)) with (x - 4 * Z.of_nat k - 4) by lia.
        by apply Hstep. }
    set (l := (λ k : nat, Sentence.mk one (x - 4 * Z.of_nat k))
                <$> seq 0 (S (length (knowledge st)))).
    assert (l ⊆+ knowledge st) as Hsub.
    { apply NoDup_submseteq.
      - apply NoDup_fmap_2; [|apply NoDup_seq].
        intros k k' [= Heq]. lia.
      - intros s (k & -> & _)%list_elem_of_fmap. apply Hall_k. }
    apply submseteq_length in Hsub. subst l.
    rewrite length_fmap, length_seq in Hsub. lia.
  - assert (∀ s, s ∈ knowledge (infer_pass st).1 →
                 s ∈ knowledge st
                 ∨ ∃ A B, A ∈ knowledge st ∧ B ∈ knowledge st
                          ∧ resolvable A B ∧ s = resolvent A B) as Hk.
    { intros s. rewrite knowledge_infer_pass, elem_of_app.
      intros [Hs | (A & B & HA & HB & Hres & -> & _)%elem_of_subset_inference].
      - left. by apply wandering_simplified in Hs.
      - right. exists A, B. by rewrite <-!wandering_simplified. }
    assert (∀ s, s ∈ knowledge st → s ∈ knowledge (infer_pass st).1) as Hkeep.
    { intros s Hs. rewrite knowledge_infer_pass, elem_of_app. left.
      by apply wandering_simplified. }
    split_and!; [by apply Hkeep | by apply Hkeep | exists x; by apply Hkeep |].
    apply Forall_forall. intros s [Hs | (A & B & HA & HB & Hres & ->)]%Hk.
    + by apply Hall.
    + apply wandering_resolvent; auto.
Qed.

Lemma wandering_runs_on (fuel : nat) st :
  wandering st → infer_knowledge fuel st = None.
Proof.
  revert st. induction fuel as [|fuel IH]; intros st Hd; [done|].
  rewrite infer_knowledge_S.
  destruct (wandering_pass st Hd) as [-> Hd']. by apply IH.
Qed.

Lemma wandering_after_three :
  wandering (ingest (0, 0) 2 after_two).
Proof.
  assert (knowledge (ingest (0, 0) 2 after_two)
          = [Sentence.mk three 1; Sentence.mk three 5; Sentence.mk one 2])
    as Hk by (vm_compute; reflexivity).
  unfold wandering. rewrite Hk.
  split_and!; [by_evaluation | by_evaluation | exists 2; by_evaluation |].
  apply Forall_cons. split; [left; split; [done | by left]|].
  apply Forall_cons. split; [left; split; [done | by right]|].
  apply Forall_cons. split; [right; left; split; [done | by exists 0]|].
  apply Forall_nil_2.
Qed.

End Wander.

(** C2, as the code has it.  The states the agent reaches through
    [add_knowledge] include ones on which the loop never stops: on a 2 by
    3 grid, after [add_knowledge((0, 1), 1)] and
    [add_knowledge((1, 1), 5)], both of which return, the call
    [add_knowledge((0, 0), 2)] leaves [{(0,2),(1,0),(1,2)} = 1], the same
    cells [= 5] and [{(1,0)} = 2], and from there every iteration of the
    loop of [infer_knowledge] appends a sentence: no number of iterations
    suffices. *)
Lemma untruthful_numbers_run_on :
  add_knowledge 2 (0, 1) 1 (init 2 3) = Some Untruthful.after_one
  ∧ add_knowledge 2 (1, 1) 5 Untruthful.after_one = Some Untruthful.after_two
  ∧ ∀ fuel : nat, add_knowledge fuel (0, 0) 2 Untruthful.after_two = None.
Proof.
  split_and!; [vm_compute; reflexivity | vm_compute; reflexivity |].
  intros fuel. unfold add_knowledge.
  apply wandering_runs_on, wandering_after_three.
Qed.

(** * The adjacency dictionary *)

Section Adjacency.
Import HybridAgent.
Implicit Types (nb : gmap Cell (gset Cell)) (c n : Cell)
               (l fringe : list Cell) (K : list Sentence.t).

Lemma extends_refl nb : extends nb nb.
Proof. by repeat split. Qed.

Lemma extends_trans nb1 nb2 nb3 :
  extends nb1 nb2 → extends nb2 nb3 → extends nb1 nb3.
Proof.
  intros (Hd & Ha & Hs & Hc) (Hd' & Ha' & Hs' & Hc').
  split_and!; [congruence | auto | auto | auto].
Qed.

Lemma dom_link c1 c2 nb : dom (link c1 c2 nb) = dom nb.
Proof. unfold link. case_decide; [|done]. by rewrite !dom_alter_L. Qed.

Lemma adj_link c1 c2 nb c n :
  adj (link c1 c2 nb) c n ↔
  adj nb c n
  ∨ (c1 ∈ dom nb ∧ c2 ∈ dom nb ∧ ((c = c1 ∧ n = c2) ∨ (c = c2 ∧ n = c1))).
Proof.
  unfold link, adj. case_decide as Hd; [|naive_solver].
  destruct Hd as [[ns1 H1]%elem_of_dom [ns2 H2]%elem_of_dom].
  split.
  - intros (ns & Hl & Hn). rewrite !lookup_alter in Hl.
    destruct (decide (c2 = c)) as [->|Hne2], (decide (c1 = c)) as [->|Hne1];
      simpl in Hl.
    + rewrite H2 in Hl. simpl in Hl. injection Hl as <-.
      apply elem_of_union in Hn as [Hn|Hn].
      * apply elem_of_singleton in Hn as ->. right.
        split_and!; [by eapply elem_of_dom_2 .. | by right].
      * apply elem_of_union in Hn as [Hn|Hn]; [|by eauto].
        apply elem_of_singleton in Hn as ->. right.
        split_and!; [by eapply elem_of_dom_2 .. | by right].
    + rewrite H2 in Hl. simpl in Hl. injection Hl as <-.
      apply elem_of_union in Hn as [Hn|Hn]; [|by eauto].
      apply elem_of_singleton in Hn as ->. right.
      split_and!; [by eapply elem_of_dom_2 .. | by right].
    + rewrite H1 in Hl. simpl in Hl. injection Hl as <-.
      apply elem_of_union in Hn as [Hn|Hn]; [|by eauto].
      apply elem_of_singleton in Hn as ->. right.
      split_and!; [by eapply elem_of_dom_2 .. | by left].
    + eauto.
  - intros [(ns & Hl & Hn) | (_ & _ & [[-> ->] | [-> ->]])].
    + rewrite !lookup_alter.
      destruct (decide (c2 = c)) as [->|Hne2], (decide (c1 = c)) as [->|Hne1];
        simpl; rewrite Hl; simpl; eexists; (split; [done|]); set_solver.
    + rewrite !lookup_alter.
      destruct (decide (c2 = c1)) as [->|Hne]; simpl.
      * rewrite decide_True by done. rewrite H1. simpl.
        eexists; (split; [done|]); set_solver.
      * rewrite decide_True by done. rewrite H1. simpl.
        eexists; (split; [done|]); set_solver.
    + rewrite !lookup_alter. rewrite decide_True by done. simpl.
      destruct (decide (c1 = c2)) as [->|Hne]; simpl; rewrite ?H1, ?H2; simpl;
        eexists; (split; [done|]); set_solver.
Qed.

Lemma extends_link c1 c2 nb : extends nb (link c1 c2 nb).
Proof.
  split_and!.
  - apply dom_link.
  - intros c n H. apply adj_link. by left.
  - intros Hsym c n [H | (H1 & H2 & [[-> ->] | [-> ->]])]%adj_link;
      apply adj_link; [left; by apply Hsym | right; tauto ..].
  - intros Hcl c n [H | (H1 & H2 & [[-> ->] | [-> ->]])]%adj_link;
      rewrite dom_link; [by eapply Hcl | done ..].
Qed.

Lemma extends_link_row c1 l nb :
  extends nb (foldl (λ nb c2, link c1 c2 nb) nb l).
Proof.
  revert nb. induction l as [|c2 l IH]; intros nb; simpl.
  - apply extends_refl.
  - eapply extends_trans; [apply extends_link | apply IH].
Qed.

Lemma extends_link_pairs l nb : extends nb (link_pairs l nb).
Proof.
  revert nb. induction l as [|c1 l IH]; intros nb; simpl.
  - apply extends_refl.
  - eapply extends_trans; [apply extends_link_row | apply IH].
Qed.

Lemma adj_link_row c1 l nb c2 :
  c1 ∈ dom nb → c2 ∈ dom nb → c2 ∈ l →
  adj (foldl (λ nb c2, link c1 c2 nb) nb l) c1 c2
  ∧ adj (foldl (λ nb c2, link c1 c2 nb) nb l) c2 c1.
Proof.
  revert nb. induction l as [|a l IH]; intros nb H1 H2 Hin.
  - by apply elem_of_nil in Hin.
  - simpl. apply elem_of_cons in Hin as [->|Hin].
    + destruct (extends_link_row c1 l (link c1 a nb)) as (_ & Hmono & _).
      split; apply Hmono, adj_link; right; tauto.
    + apply IH; [by rewrite dom_link .. | done].
Qed.

(** All pairs of distinct cells of the list become adjacent. *)
Lemma adj_link_pairs l nb c n :
  c ∈ dom nb → n ∈ dom nb → c ∈ l → n ∈ l → c ≠ n →
  adj (link_pairs l nb) c n.
Proof.
  revert nb. induction l as [|a l IH]; intros nb Hc Hn Hcl Hnl Hne.
  - by apply elem_of_nil in Hcl.
  - simpl.
    destruct (extends_link_row a l nb) as (Hdom & _).
    destruct (extends_link_pairs l (foldl (λ nb c2, link a c2 nb) nb l))
      as (_ & Hmono & _).
    apply elem_of_cons in Hcl as [->|Hcl], Hnl as [->|Hnl].
    + done.
    + apply Hmono. by apply adj_link_row.
    + apply Hmono. by apply adj_link_row.
    + apply IH; [by rewrite Hdom .. | done | done | done].
Qed.

Lemma neighbors_init_lookup fringe c :
  neighbors_init fringe !! c = if decide (c ∈ fringe) then Some ∅ else None.
Proof.
  unfold neighbors_init.
  assert (∀ m : gmap Cell (gset Cell),
            foldl (λ neighbors cell, <[cell:=∅]> neighbors) m fringe !! c
            = if decide (c ∈ fringe) then Some ∅ else m !! c) as Hgen.
  { induction fringe as [|a l IH]; intros m; simpl.
    - destruct (decide (c ∈ [])) as [Hin|]; [by apply elem_of_nil in Hin | done].
    - rewrite IH. repeat case_decide; try done.
      + exfalso. set_solver.
      + assert (c = a) as -> by set_solver. by rewrite lookup_insert_eq.
      + rewrite lookup_insert_ne; [done | set_solver]. }
  rewrite Hgen. by case_decide.
Qed.

Lemma dom_neighbors_init fringe : dom (neighbors_init fringe) = list_to_set fringe.
Proof.
  apply set_eq. intros c.
  rewrite elem_of_dom, neighbors_init_lookup, elem_of_list_to_set.
  case_decide; [by split; eauto | split; [by intros [? ?] | done]].
Qed.

Lemma extends_build_neighbors K fringe :
  extends (neighbors_init fringe) (build_neighbors K fringe).
Proof.
  unfold build_neighbors. generalize (neighbors_init fringe).
  induction K as [|s K IH]; intros nb; simpl.
  - apply extends_refl.
  - eapply extends_trans; [apply extends_link_pairs | apply IH].
Qed.

(** The dictionary [get_components] builds. *)
Lemma build_neighbors_spec K fringe :
  let nb := build_neighbors K fringe in
  dom nb = list_to_set fringe ∧ symmetric nb ∧ closed nb
  ∧ ∀ s c n, s ∈ K → c ∈ Sentence.cells s → n ∈ Sentence.cells s →
             c ∈ fringe → n ∈ fringe → c ≠ n → adj nb c n.
Proof.
  intros nb. destruct (extends_build_neighbors K fringe) as (Hd & _ & Hs & Hc).
  assert (∀ c n, ¬ adj (neighbors_init fringe) c n) as Hempty.
  { intros c n (ns & Hl & Hn). rewrite neighbors_init_lookup in Hl.
    case_decide; [|done]. injection Hl as <-. set_solver. }
  split_and!.
  - subst nb. by rewrite Hd, dom_neighbors_init.
  - apply Hs. intros c n H. by apply Hempty in H.
  - apply Hc. intros c n H. by apply Hempty in H.
  - subst nb. unfold build_neighbors.
    assert (∀ nb0, dom nb0 = list_to_set fringe →
              ∀ s c n, s ∈ K → c ∈ Sentence.cells s → n ∈ Sentence.cells s →
                c ∈ fringe → n ∈ fringe → c ≠ n →
                adj (foldl (λ nb s, link_pairs (elements (Sentence.cells s)) nb)
                           nb0 K) c n) as Hgen.
    { clear. induction K as [|s0 K IH]; intros nb0 Hdom s c n Hs Hc Hn Hcf Hnf Hne.
      - by apply elem_of_nil in Hs.
      - simpl.
        destruct (extends_link_pairs (elements (Sentence.cells s0)) nb0)
          as (Hd1 & _).
        apply elem_of_cons in Hs as [->|Hs].
        + assert (extends (link_pairs (elements (Sentence.cells s0)) nb0)
                    (foldl (λ nb s, link_pairs (elements (Sentence.cells s)) nb)
                       (link_pairs (elements (Sentence.cells s0)) nb0) K))
            as (_ & Hmono & _).
          { generalize (link_pairs (elements (Sentence.cells s0)) nb0).
            clear. induction K as [|s K IH]; intros nb; simpl.
            - apply extends_refl.
            - eapply extends_trans; [apply extends_link_pairs | apply IH]. }
          apply Hmono, adj_link_pairs;
            rewrite ?Hdom, ?elem_of_list_to_set, ?elem_of_elements; done.
        + eapply IH; eauto. by rewrite Hd1. }
    apply Hgen, dom_neighbors_init.
Qed.

End Adjacency.

(** * The traversal of [get_components] *)

Section Traversal.
Import HybridAgent.
Implicit Types (nb : gmap Cell (gset Cell)) (c n : Cell)
               (l stack : list Cell) (visited comp V : gset Cell).

Lemma visit_neighbors_fold l stack visited :
  NoDup l →
  ∃ new, foldl visit_neighbor (stack, visited) l
         = (new ++ stack, visited ∪ list_to_set l)
         ∧ NoDup new ∧ ∀ x, x ∈ new ↔ x ∈ l ∧ x ∉ visited.
Proof.
  revert stack visited. induction l as [|a l IH]; intros stack visited Hnd.
  - exists []. simpl. split_and!; [f_equal; set_solver | constructor |].
    intros x. rewrite elem_of_nil. tauto.
  - apply NoDup_cons in Hnd as [Ha Hnd]. simpl.
    unfold visit_neighbor at 2. simpl.
    destruct (decide (a ∉ visited)) as [Hv|Hv].
    + destruct (IH (a :: stack) ({[a]} ∪ visited) Hnd) as (new & -> & Hnew & Hmem).
      exists (new ++ [a]). split_and!.
      * rewrite <-app_assoc. f_equal. set_solver.
      * apply NoDup_app. split_and!; [done | | apply NoDup_singleton].
        intros x Hx ->%list_elem_of_singleton. apply Hmem in Hx. set_solver.
      * intros x. rewrite elem_of_app, Hmem, list_elem_of_singleton, elem_of_cons.
        split; [|destruct (decide (x = a)); set_solver]. set_solver.
    + apply dec_stable in Hv.
      destruct (IH stack visited Hnd) as (new & -> & Hnew & Hmem).
      exists new. split_and!; [f_equal; set_solver | done |].
      intros x. rewrite Hmem, elem_of_cons. set_solver.
Qed.

Lemma length_NoDup_size l : NoDup l → length l = size (list_to_set l : gset Cell).
Proof. intros. by rewrite size_list_to_set. Qed.

Section Explore.
Variables (nb : gmap Cell (gset Cell)) (V0 : gset Cell).
Hypothesis (Hsym : symmetric nb) (Hclosed : closed nb).
Hypothesis (Hsealed : sealed nb V0).

Lemma explore_spec (fuel : nat) stack visited comp :
  NoDup stack →
  visited = V0 ∪ comp ∪ list_to_set stack →
  comp ## list_to_set stack →
  (comp ∪ list_to_set stack) ## V0 →
  (∀ c n, c ∈ comp → adj nb c n → n ∈ visited) →
  visited ⊆ dom nb →
  (size (dom nb ∖ visited) + length stack ≤ fuel)%nat →
  ∃ comp', explore fuel nb stack visited comp = Some (comp', V0 ∪ comp')
           ∧ comp ∪ list_to_set stack ⊆ comp'
           ∧ comp' ## V0 ∧ V0 ∪ comp' ⊆ dom nb ∧ sealed nb comp'.
Proof.
  revert stack visited comp.
  induction fuel as [|fuel IH];
    intros stack visited comp Hnd Hvis Hcs Hv0 Hdone Hdom Hfuel.
  - destruct stack as [|curr stack]; [|simpl in Hfuel; lia].
    simpl in *. exists comp. split_and!.
    + do 2 f_equal. set_solver.
    + set_solver.
    + set_solver.
    + set_solver.
    + intros c n Hc Hadj. specialize (Hdone c n Hc Hadj).
      rewrite Hvis in Hdone.
      destruct (decide (n ∈ V0)) as [Hn|Hn]; [|set_solver].
      exfalso. apply Hsym in Hadj. apply (Hsealed n c Hn) in Hadj. set_solver.
  - destruct stack as [|curr stack].
    { simpl in *. exists comp. split_and!.
      + do 2 f_equal. set_solver.
      + set_solver.
      + set_solver.
      + set_solver.
      + intros c n Hc Hadj. specialize (Hdone c n Hc Hadj).
        rewrite Hvis in Hdone.
        destruct (decide (n ∈ V0)) as [Hn|Hn]; [|set_solver].
        exfalso. apply Hsym in Hadj. apply (Hsealed n c Hn) in Hadj.
        set_solver. }
    apply NoDup_cons in Hnd as [Hcurr Hnd]. simpl in Hvis, Hcs, Hv0, Hfuel.
    assert (curr ∈ dom nb) as [ns Hns]%elem_of_dom by set_solver.
    cbn [explore]. rewrite Hns. simpl.
    destruct (visit_neighbors_fold (elements ns) stack visited (NoDup_elements ns))
      as (new & -> & Hnew & Hmem).
    rewrite list_to_set_elements_L. simpl.
    assert (∀ x, x ∈ new ↔ x ∈ ns ∧ x ∉ visited) as Hmem'.
    { intros x. rewrite Hmem, elem_of_elements. done. }
    assert (ns ⊆ dom nb) as Hnsd.
    { intros n Hn. apply (Hclosed curr n). by exists ns. }
    assert (list_to_set new =@{gset Cell} ns ∖ visited) as Hnewset.
    { apply set_eq. intros x.
      rewrite elem_of_list_to_set, Hmem', elem_of_difference. done. }
    destruct (IH (new ++ stack) (visited ∪ ns) ({[curr]} ∪ comp))
      as (comp' & Hex & Hsub & Hd0 & Hdd & Hse).
    + apply NoDup_app. split_and!; [done | | done].
      intros x Hx%Hmem' Hx'. set_solver.
    + rewrite list_to_set_app_L, Hnewset. apply set_eq. intros x.
      destruct (decide (x ∈ visited)) as [Hx|Hx].
      * split; [|set_solver]. intros _. rewrite Hvis in Hx. set_solver.
      * split; [|rewrite Hvis in Hx; set_solver].
        intros [?|?]%elem_of_union; [done|]. set_solver.
    + rewrite list_to_set_app_L, Hnewset. set_solver.
    + rewrite list_to_set_app_L, Hnewset. set_solver.
    + intros c n [->%elem_of_singleton|Hc]%elem_of_union Hadj.
      * destruct Hadj as (ns' & Hl & Hn). set_solver.
      * apply elem_of_union_l. by eapply Hdone.
    + set_solver.
    + rewrite length_app.
      rewrite (length_NoDup_size new), Hnewset by done.
      assert (dom nb ∖ visited
              = (dom nb ∖ (visited ∪ ns)) ∪ (ns ∖ visited)) as Hsplit.
      { apply set_eq. intros x. destruct (decide (x ∈ ns)); set_solver. }
      rewrite Hsplit, size_union in Hfuel by set_solver. lia.
    + exists comp'. split_and!; [done | | done | done | done].
      rewrite list_to_set_app_L in Hsub. set_solver.
Qed.

End Explore.

Lemma pairwise_disjoint_snoc (comps : list (gset Cell)) C :
  pairwise_disjoint comps → C ## ⋃ comps → pairwise_disjoint (comps ++ [C]).
Proof.
  intros Hpd HC i j C1 C2 Hij H1 H2.
  apply lookup_app_Some in H1 as [H1|[Hi H1]],
        H2 as [H2|[Hj H2]].
  - by eapply Hpd.
  - apply list_lookup_singleton_Some in H2 as [_ <-].
    apply list_elem_of_lookup_2 in H1.
    intros x Hx1 Hx2. apply (HC x Hx2). apply elem_of_union_list. eauto.
  - apply list_lookup_singleton_Some in H1 as [_ <-].
    apply list_elem_of_lookup_2 in H2.
    intros x Hx1 Hx2. apply (HC x Hx1). apply elem_of_union_list. eauto.
  - apply list_lookup_singleton_Some in H1 as [? _].
    apply list_lookup_singleton_Some in H2 as [? _]. lia.
Qed.

Section Collect.
Variables (nb : gmap Cell (gset Cell)).
Hypothesis (Hsym : symmetric nb) (Hclosed : closed nb).

Lemma collect_spec (fuel : nat) (todo : list Cell) visited
    (comps : list (gset Cell)) :
  (size (dom nb) ≤ fuel)%nat →
  (∀ c, c ∈ todo → c ∈ dom nb) →
  visited = ⋃ comps → visited ⊆ dom nb → sealed nb visited →
  pairwise_disjoint comps → Forall (sealed nb) comps →
  ∃ comps', collect fuel nb todo visited comps = Some comps'
            ∧ ⋃ comps' ⊆ dom nb
            ∧ list_to_set todo ∪ visited ⊆ ⋃ comps'
            ∧ pairwise_disjoint comps' ∧ Forall (sealed nb) comps'.
Proof.
  intros Hfuel. revert visited comps.
  induction todo as [|cell todo IH];
    intros visited comps Htodo Hvis Hdom Hseal Hpd Hall; simpl.
  - exists comps. subst visited. split_and!; try done. set_solver.
  - case_decide as Hin.
    + destruct (IH visited comps) as (comps' & -> & H1 & H2 & H3 & H4);
        try done.
      { intros c Hc. apply Htodo. by right. }
      exists comps'. split_and!; try done. set_solver.
    + assert (cell ∈ dom nb) as Hcell by (apply Htodo; by left).
      destruct (explore_spec nb visited Hsym Hclosed Hseal fuel
                  [cell] ({[cell]} ∪ visited) ∅)
        as (comp & Hex & Hsub & Hd0 & Hdd & Hse).
      * apply NoDup_singleton.
      * simpl. set_solver.
      * set_solver.
      * simpl. set_solver.
      * set_solver.
      * set_solver.
      * simpl.
        assert (dom nb ∖ ({[cell]} ∪ visited) ⊂ dom nb) as Hlt.
        { apply (strict_subset_by_elem _ _ cell); set_solver. }
        apply subset_size in Hlt. lia.
      * rewrite Hex. simpl.
        destruct (IH (visited ∪ comp) (comps ++ [comp]))
          as (comps' & -> & H1 & H2 & H3 & H4).
        { intros c Hc. apply Htodo. by right. }
        { rewrite union_list_app_L. simpl. rewrite Hvis. set_solver. }
        { done. }
        { intros c n [Hc|Hc]%elem_of_union Hadj.
          - apply elem_of_union_l. by eapply Hseal.
          - apply elem_of_union_r. by eapply Hse. }
        { apply pairwise_disjoint_snoc; [done|]. by rewrite <-Hvis. }
        { apply Forall_app. split; [done|]. by apply Forall_singleton. }
        exists comps'. split_and!; try done.
        simpl in Hsub. set_solver.
Qed.

End Collect.

End Traversal.

(** * Components, estimators and the choice of a move *)

(** C7. Given the cells the sentences mention, in any order, and enough
    fuel for the traversal, [get_components] returns a list of components
    such that: a cell is mentioned by a sentence exactly when some
    component holds it; two components at different positions share no
    cell; and every sentence that mentions a cell has all its cells in one
    component. *)
Theorem get_components_partition (fuel : nat) (K : list Sentence.t)
    (fringe : list Cell) :
  list_to_set fringe = HybridAgent.fringe_cells K →
  (size (HybridAgent.fringe_cells K) ≤ fuel)%nat →
  ∃ comps, HybridAgent.get_components fuel K fringe = Some comps
    ∧ (∀ c, (∃ s, s ∈ K ∧ c ∈ Sentence.cells s) ↔ ∃ C, C ∈ comps ∧ c ∈ C)
    ∧ pairwise_disjoint comps
    ∧ (∀ s c, s ∈ K → c ∈ Sentence.cells s →
              ∃ C, C ∈ comps ∧ Sentence.cells s ⊆ C).
Proof.
  intros Hfringe Hfuel. unfold HybridAgent.get_components.
  destruct (build_neighbors_spec K fringe) as (Hdom & Hsym & Hclosed & Hadj).
  set (nb := HybridAgent.build_neighbors K fringe) in *.
  assert (∀ c, c ∈ HybridAgent.fringe_cells K ↔ ∃ s, s ∈ K ∧ c ∈ Sentence.cells s)
    as Hfc.
  { intros c. unfold HybridAgent.fringe_cells. rewrite in_foldl_union. set_solver. }
  destruct (collect_spec nb Hsym Hclosed fuel fringe ∅ [])
    as (comps & Hcol & Hsub & Hcover & Hpd & Hsealed).
  - by rewrite Hdom, Hfringe.
  - intros c Hc. rewrite Hdom. by apply elem_of_list_to_set.
  - done.
  - set_solver.
  - intros c n Hc. set_solver.
  - intros i j C1 C2 _ H. by rewrite lookup_nil in H.
  - constructor.
  - exists comps. split; [done|].
    assert (∀ c, c ∈ HybridAgent.fringe_cells K ↔ ∃ C, C ∈ comps ∧ c ∈ C) as Hin.
    { intros c. rewrite <-elem_of_union_list. split.
      - intros Hc. apply Hcover. rewrite Hfringe. set_solver.
      - intros Hc. apply Hsub in Hc. by rewrite Hdom, Hfringe in Hc. }
    split_and!.
    + intros c. by rewrite <-Hfc.
    + done.
    + intros s c Hs Hc.
      assert (c ∈ HybridAgent.fringe_cells K) as Hcf by (apply Hfc; eauto).
      destruct (proj1 (Hin c) Hcf) as (C & HC & HcC).
      exists C. split; [done|]. intros n Hn.
      destruct (decide (c = n)) as [<-|Hne]; [done|].
      rewrite Forall_forall in Hsealed. apply (Hsealed C HC c n HcC).
      apply (Hadj s); try done.
      * apply (elem_of_list_to_set (C := gset Cell)). by rewrite Hfringe.
      * apply (elem_of_list_to_set (C := gset Cell)). rewrite Hfringe.
        apply Hfc. eauto.
Qed.

Lemma get_components_partition_two_islands :
  let K := Examples.two_islands in
  let fringe := elements (HybridAgent.fringe_cells K) in
  (list_to_set fringe = HybridAgent.fringe_cells K
   ∧ (size (HybridAgent.fringe_cells K) ≤ 4)%nat)
  ∧ HybridAgent.get_components 4 K fringe
    = Some [{[(0, 0); (0, 1)]}; {[(2, 2); (2, 3)]}]
  ∧ ∃ comps, HybridAgent.get_components 4 K fringe = Some comps
    ∧ (∀ c, (∃ s, s ∈ K ∧ c ∈ Sentence.cells s) ↔ ∃ C, C ∈ comps ∧ c ∈ C)
    ∧ pairwise_disjoint comps
    ∧ (∀ s c, s ∈ K → c ∈ Sentence.cells s →
              ∃ C, C ∈ comps ∧ Sentence.cells s ⊆ C).
Proof.
  intros K fringe.
  assert (list_to_set fringe = HybridAgent.fringe_cells K) as H1
    by apply list_to_set_elements_L.
  assert (size (HybridAgent.fringe_cells K) ≤ 4)%nat as H2 by (vm_compute; lia).
  split; [done|]. split; [by_evaluation|].
  exact (get_components_partition 4 K fringe H1 H2).
Defined.

(** ** Routing by size *)

Lemma route_exact_iff comp :
  HybridAgent.route comp = HybridAgent.Exact ↔ Z.of_nat (size comp) <= 18.
Proof. unfold HybridAgent.route. case_decide; split; (done || lia). Qed.


(** ** Scenario A *)

(** C8. For the single sentence [{(0, 0), (0, 1)} = 1], whichever order the
    component's cells are listed in, the exact estimator counts 2 valid
    assignments, each cell is a mine in 1 of them, so both ratios are 1/2,
    and it returns the first cell listed with 1/2; the MCMC agent's copy of
    the estimator returns the same. *)
Theorem exact_scenario_A :
  Forall (λ comp,
            (HybridAgent.exact_count Examples.scenario_A comp).1 = 2
            ∧ Forall (λ cell,
                        HybridAgent.prob
                          (HybridAgent.exact_count Examples.scenario_A comp).2
                          (HybridAgent.exact_count Examples.scenario_A comp).1
                          cell = (1 # 2)%Q) comp
            ∧ HybridAgent.solve_component_exact Examples.scenario_A comp
              = (head comp, (1 # 2)%Q)
            ∧ MCMCAgent.solve_component_exact Examples.scenario_A comp
              = (head comp, (1 # 2)%Q))
         [[(0, 0); (0, 1)]; [(0, 1); (0, 0)]].
Proof.
  repeat constructor; vm_compute; reflexivity.
Qed.

(** ** The action returned *)

Section Actions.
Implicit Types (st : state) (a : Action) (rnd : HybridAgent.Random).

Lemma safe_move_reveals st a : safe_move st = Some a → a.2 = 0.
Proof.
  unfold safe_move. destruct (filter _ _) as [|safe l]; [done|].
  by intros [= <-].
Qed.

Lemma reveal_choice_reveals (seed : nat) (l : list Cell) a :
  HybridAgent.reveal <$> random_choice seed l = Some a → a.2 = 0.
Proof. destruct (random_choice seed l); [by intros [= <-] | done]. Qed.

Lemma random_choice_is_Some {A} (seed : nat) (l : list A) :
  l ≠ [] → is_Some (random_choice seed l).
Proof.
  intros Hl. unfold random_choice. apply lookup_lt_is_Some.
  destruct l; [done|]. apply Nat.mod_upper_bound. simpl. lia.
Qed.

Lemma hybrid_smart_guess_reveals rnd st a :
  HybridAgent.get_smart_guess rnd st = Some a → a.2 = 0.
Proof.
  unfold HybridAgent.get_smart_guess.
  destruct (filter (HybridAgent.free st) (HybridAgent.shuffle _ _)) as [|c l];
    [|by intros [= <-]].
  destruct (filter _ (grid st)) as [|e edges].
  - destruct (filter (HybridAgent.free st) (grid st)); [done|].
    apply reveal_choice_reveals.
  - apply reveal_choice_reveals.
Qed.

Lemma mcmc_smart_guess_reveals rnd st a :
  MCMCAgent.get_smart_guess rnd st = Some a → a.2 = 0.
Proof.
  unfold MCMCAgent.get_smart_guess.
  destruct (filter (HybridAgent.free st) (HybridAgent.shuffle _ _)) as [|c l];
    [|by intros [= <-]].
  destruct (filter (HybridAgent.free st) (filter _ (grid st))) as [|e edges].
  - destruct (filter (HybridAgent.free st) (grid st)); [done|].
    apply reveal_choice_reveals.
  - apply reveal_choice_reveals.
Qed.

Lemma hybrid_guess_reveals (fuel : nat) rnd approx st a :
  HybridAgent.guess fuel rnd approx st = Some (Some a) → a.2 = 0.
Proof.
  unfold HybridAgent.guess.
  destruct (elements _) as [|c l].
  - intros [= H]. by eapply hybrid_smart_guess_reveals.
  - destruct (HybridAgent.get_components _ _ _) as [comps|]; [|done]. simpl.
    destruct (foldl _ _ _).1 as [move|].
    + by intros [= <-].
    + intros [= H]. by eapply hybrid_smart_guess_reveals.
Qed.

Lemma mcmc_guess_reveals solve_component_mcmc (fuel : nat) rnd st a :
  MCMCAgent.guess solve_component_mcmc fuel rnd st = Some (Some a) → a.2 = 0.
Proof.
  unfold MCMCAgent.guess.
  destruct (elements _) as [|c l].
  - intros [= H]. by eapply mcmc_smart_guess_reveals.
  - destruct (MCMCAgent.get_components _ _ _) as [comps|]; [|done]. simpl.
    destruct (foldl _ _ _).1 as [move|].
    + by intros [= <-].
    + intros [= H]. by eapply mcmc_smart_guess_reveals.
Qed.

End Actions.

(** C10. Whatever the observation, the state and the random numbers, an
    action returned by [get_action] of the CSP agent, of the hybrid agent
    or of the MCMC agent has type 0 (reveal). *)
Theorem agents_only_reveal (fuel seed : nat) (rnd : HybridAgent.Random)
    (solve_component_mcmc : nat → state → list Cell → option Cell * Q)
    (obs : Observation) (st st' : state) (a : Action) :
  CSPAgent.get_action fuel seed obs st = Some (st', Some a)
  ∨ HybridAgent.get_action fuel rnd obs st = Some (st', Some a)
  ∨ MCMCAgent.get_action solve_component_mcmc fuel rnd obs st
    = Some (st', Some a) →
  a.2 = 0.
Proof.
  intros [H | [H | H]].
  - unfold CSPAgent.get_action in H.
    destruct (sync fuel obs (grid st) st) as [st1|]; [|done]. simpl in H.
    destruct (safe_move st1) as [a'|] eqn:Hsafe.
    + injection H as _ <-. by eapply safe_move_reveals.
    + destruct (possible_moves st1) as [|m l]; [done|].
      injection H as _ H. destruct (random_choice seed (m :: l)); [|done].
      by injection H as <-.
  - unfold HybridAgent.get_action in H.
    destruct (sync fuel obs (grid st) st) as [st1|]; [|done]. simpl in H.
    destruct (safe_move st1) as [a'|] eqn:Hsafe.
    + injection H as _ <-. by eapply safe_move_reveals.
    + destruct (HybridAgent.guess _ _ _ _) as [r|] eqn:Hg; [|done].
      simpl in H. injection H as _ ->. by eapply hybrid_guess_reveals.
  - unfold MCMCAgent.get_action in H.
    destruct (sync fuel obs (grid st) st) as [st1|]; [|done]. simpl in H.
    destruct (safe_move st1) as [a'|] eqn:Hsafe.
    + injection H as _ <-. by eapply safe_move_reveals.
    + destruct (MCMCAgent.guess _ _ _ _) as [r|] eqn:Hg; [|done].
      simpl in H. injection H as _ ->. by eapply mcmc_guess_reveals.
Qed.

Lemma agents_only_reveal_covered_board :
  CSPAgent.get_action 5 0 Examples.covered (init 1 3)
  = Some (init 1 3, Some (0, 0, 0))
  ∧ (0, 0, 0).2 = 0.
Proof.
  assert (CSPAgent.get_action 5 0 Examples.covered (init 1 3)
          = Some (init 1 3, Some (0, 0, 0))) as H by (vm_compute; reflexivity).
  split; [exact H|].
  exact (agents_only_reveal 5 0 Examples.zeros Examples.no_sample
           Examples.covered (init 1 3) (init 1 3) (0, 0, 0) (or_introl H)).
Defined.

(** ** A component without a valid assignment *)

Section Unsatisfiable.
Implicit Types (st : state) (rnd : HybridAgent.Random)
               (approx : nat → state → list Cell → option Cell * Q)
               (best : option Cell * Q).

Lemma exact_unsatisfiable st (comp : list Cell) :
  (HybridAgent.exact_count st comp).1 = 0 →
  HybridAgent.solve_component_exact st comp = (None, 1%Q).
Proof.
  unfold HybridAgent.solve_component_exact.
  destruct (HybridAgent.exact_count st comp) as [valid_worlds mine_counts].
  simpl. intros ->. done.
Qed.

Lemma consider_skips st approx best (kc : nat * gset Cell) :
  (HybridAgent.estimate st approx kc).1 = None →
  HybridAgent.consider st approx best kc = best.
Proof.
  unfold HybridAgent.consider.
  destruct (HybridAgent.estimate st approx kc) as [move p]. simpl.
  by intros ->.
Qed.

Lemma consider_all_skipped st approx best (l : list (nat * gset Cell)) :
  Forall (λ kc, (HybridAgent.estimate st approx kc).1 = None) l →
  foldl (HybridAgent.consider st approx) best l = best.
Proof.
  induction 1 as [|kc l Hkc _ IH]; simpl; [done|].
  by rewrite consider_skips.
Qed.

Lemma unsatisfiable_estimate st approx (kc : nat * gset Cell) :
  Skipped.unsatisfiable st kc →
  HybridAgent.estimate st approx kc = (None, 1%Q).
Proof.
  intros [Hsize H0]. unfold HybridAgent.estimate. cbn zeta.
  rewrite (proj2 (route_exact_iff kc.2)) by done.
  by apply exact_unsatisfiable.
Qed.

Lemma consider_filter st approx best (l : list (nat * gset Cell)) :
  foldl (HybridAgent.consider st approx) best l
  = foldl (HybridAgent.consider st approx) best
      (filter (λ kc, ¬ Skipped.unsatisfiable st kc) l).
Proof.
  revert best. induction l as [|kc l IH]; intros best; [done|].
  rewrite filter_cons. cbn [foldl].
  destruct (decide (¬ Skipped.unsatisfiable st kc)) as [Hk|Hk].
  - cbn [foldl]. apply IH.
  - apply dec_stable in Hk. rewrite consider_skips; [apply IH|].
    by rewrite unsatisfiable_estimate.
Qed.

Lemma smart_guess_finds_free_cell rnd st :
  (∃ cell, cell ∈ grid st ∧ HybridAgent.free st cell) →
  is_Some (HybridAgent.get_smart_guess rnd st).
Proof.
  intros (cell & Hg & Hf). unfold HybridAgent.get_smart_guess.
  destruct (filter (HybridAgent.free st) (HybridAgent.shuffle _ _)) as [|c l];
    [|done].
  destruct (filter _ (grid st)) as [|e edges] eqn:He.
  - destruct (filter (HybridAgent.free st) (grid st)) as [|p l] eqn:Hp.
    + assert (cell ∈ filter (HybridAgent.free st) (grid st)) as Hin
        by by apply list_elem_of_filter.
      rewrite Hp in Hin. by apply elem_of_nil in Hin.
    + apply fmap_is_Some, random_choice_is_Some. done.
  - apply fmap_is_Some, random_choice_is_Some. done.
Qed.

End Unsatisfiable.

(** C5, as the code has it.  On a 1 by 3 board that shows 5 on its middle
    cell the knowledge base holds [{(0, 0), (0, 2)} = 5]; the exact
    enumeration of that component finds no valid assignment and returns
    [(None, 1.0)]; [get_action] of the hybrid agent, and of the MCMC agent,
    nevertheless returns the move [(0, 0, 0)]. *)
Lemma contradiction_still_moves :
  HybridAgent.get_components 5 (knowledge Examples.after_five)
    (elements (HybridAgent.fringe_cells (knowledge Examples.after_five)))
  = Some [{[(0, 0); (0, 2)]}]
  ∧ (HybridAgent.exact_count Examples.after_five
       (elements ({[(0, 0); (0, 2)]} : gset Cell))).1 = 0
  ∧ HybridAgent.solve_component_exact Examples.after_five
      (elements ({[(0, 0); (0, 2)]} : gset Cell)) = (None, 1%Q)
  ∧ HybridAgent.get_action 5 Examples.zeros Examples.shows_five (init 1 3)
    = Some (Examples.after_five, Some (0, 0, 0))
  ∧ MCMCAgent.get_action Examples.no_sample 5 Examples.zeros
      Examples.shows_five (init 1 3)
    = Some (Examples.after_five, Some (0, 0, 0)).
Proof. split_and!; vm_compute; reflexivity. Qed.

(** C5, amended.  A component of at most 18 cells whose exact enumeration
    finds no valid assignment gets [(None, 1.0)] from
    [solve_component_exact], no failure is raised, and the loop over the
    components skips it: it leaves the running best move and probability
    as they are, so that the loop ends as it does on the other components
    alone.  [get_action] goes on to reveal the best cell of those, and
    falls back on [get_smart_guess] when they give none, in particular
    when every component is without a valid assignment; the fallback is a
    move whenever a cell of the board is neither in [moves_made] nor a
    known mine. *)
Theorem unsatisfiable_components_skipped (fuel : nat)
    (rnd : HybridAgent.Random)
    (approx : nat → state → list Cell → option Cell * Q) (st : state)
    (comps : list (gset Cell)) :
  HybridAgent.get_components fuel (knowledge st)
    (elements (HybridAgent.fringe_cells (knowledge st))) = Some comps →
  let others :=
    filter (λ kc, ¬ Skipped.unsatisfiable st kc) (Skipped.numbered comps) in
  (∀ kc, Skipped.unsatisfiable st kc →
         HybridAgent.solve_component_exact st (elements kc.2) = (None, 1%Q)
         ∧ ∀ best, HybridAgent.consider st approx best kc = best)
  ∧ foldl (HybridAgent.consider st approx) (None, 1%Q) (Skipped.numbered comps)
    = foldl (HybridAgent.consider st approx) (None, 1%Q) others
  ∧ HybridAgent.guess fuel rnd approx st
    = Some (match (foldl (HybridAgent.consider st approx) (None, 1%Q)
                     others).1 with
            | Some move => Some (HybridAgent.reveal move)
            | None => HybridAgent.get_smart_guess rnd st
            end)
  ∧ (others = [] →
     HybridAgent.guess fuel rnd approx st
     = Some (HybridAgent.get_smart_guess rnd st))
  ∧ ((∃ cell, cell ∈ grid st ∧ HybridAgent.free st cell) →
     is_Some (HybridAgent.get_smart_guess rnd st)).
Proof.
  intros Hcomps others.
  assert (HybridAgent.guess fuel rnd approx st
          = Some (match (foldl (HybridAgent.consider st approx) (None, 1%Q)
                           others).1 with
                  | Some move => Some (HybridAgent.reveal move)
                  | None => HybridAgent.get_smart_guess rnd st
                  end)) as Hguess.
  { unfold others. rewrite <-consider_filter. unfold HybridAgent.guess.
    destruct (elements (HybridAgent.fringe_cells (knowledge st)))
      as [|c l] eqn:Hfr.
    - unfold HybridAgent.get_components in Hcomps. cbn in Hcomps.
      injection Hcomps as <-. done.
    - rewrite Hcomps. cbn. unfold Skipped.numbered.
      by destruct (foldl _ _ _).1. }
  split_and!.
  - intros kc [Hsize H0]. split; [by apply exact_unsatisfiable|].
    intros best. apply consider_skips.
    by rewrite unsatisfiable_estimate.
  - apply consider_filter.
  - done.
  - intros Hnone. rewrite Hguess, Hnone. done.
  - apply smart_guess_finds_free_cell.
Qed.

Lemma unsatisfiable_components_skipped_two_clusters :
  HybridAgent.get_components 5 (knowledge Skipped.two_clusters)
    (elements (HybridAgent.fringe_cells (knowledge Skipped.two_clusters)))
  = Some [{[(0, 5); (0, 6)]}; {[(0, 0); (0, 1)]}]
  ∧ Skipped.unsatisfiable Skipped.two_clusters (1%nat, {[(0, 0); (0, 1)]})
  ∧ filter (λ kc, ¬ Skipped.unsatisfiable Skipped.two_clusters kc)
      (Skipped.numbered [{[(0, 5); (0, 6)]}; {[(0, 0); (0, 1)]}])
    = [(0%nat, {[(0, 5); (0, 6)]})]
  ∧ HybridAgent.guess 5 Examples.zeros
      (λ k, HybridAgent.solve_component_monte_carlo
              (HybridAgent.coin Examples.zeros k))
      Skipped.two_clusters
    = Some (Some (0, 5, 0)).
Proof.
  assert (HybridAgent.get_components 5 (knowledge Skipped.two_clusters)
            (elements (HybridAgent.fringe_cells
                         (knowledge Skipped.two_clusters)))
          = Some [{[(0, 5); (0, 6)]}; {[(0, 0); (0, 1)]}]) as H1
    by (vm_compute; reflexivity).
  assert (filter (λ kc, ¬ Skipped.unsatisfiable Skipped.two_clusters kc)
            (Skipped.numbered [{[(0, 5); (0, 6)]}; {[(0, 0); (0, 1)]}])
          = [(0%nat, {[(0, 5); (0, 6)]})]) as H3
    by (vm_compute; reflexivity).
  split_and!; [done | by_evaluation | done |].
  destruct (unsatisfiable_components_skipped 5 Examples.zeros
              (λ k, HybridAgent.solve_component_monte_carlo
                      (HybridAgent.coin Examples.zeros k))
              Skipped.two_clusters _ H1) as (_ & _ & Hguess & _).
  rewrite Hguess, H3. vm_compute. reflexivity.
Defined.

Import Worlds Fringe Tidy.

(** * More on the inference loop *)

Section LoopResult.
Implicit Types (st : state) (c : Cell) (s A B : Sentence.t).

(** The state the loop returns is the result of an iteration that left
    [changes] unset. *)
Lemma infer_knowledge_last_pass (fuel : nat) st st' :
  infer_knowledge fuel st = Some st' →
  ∃ st0, (infer_pass st0).2 = false ∧ st' = (infer_pass st0).1.
Proof.
  revert st. induction fuel as [|fuel IH]; intros st; [done|].
  rewrite infer_knowledge_S. destruct (infer_pass st).2 eqn:Hch.
  - apply IH.
  - intros [= <-]. eauto.
Qed.

Lemma safes_mono_pass st : safes st ⊆ safes (infer_pass st).1.
Proof. rewrite safes_infer_pass, safes_apply_marks. set_solver. Qed.

Lemma mines_mono_pass st : mines st ⊆ mines (infer_pass st).1.
Proof. rewrite mines_infer_pass, mines_apply_marks. set_solver. Qed.

Lemma safes_pass_from_live st : safes (infer_pass st).1 ⊆ safes st ∪ live st.
Proof.
  rewrite safes_infer_pass, safes_apply_marks. intros c [Hc|Hc]%elem_of_union.
  - apply elem_of_union_r. eapply marked_was_live. by apply elem_of_union_l.
  - by apply elem_of_union_l.
Qed.

Lemma mines_pass_from_live st : mines (infer_pass st).1 ⊆ mines st ∪ live st.
Proof.
  rewrite mines_infer_pass, mines_apply_marks. intros c [Hc|Hc]%elem_of_union.
  - apply elem_of_union_r. eapply marked_was_live. by apply elem_of_union_r.
  - by apply elem_of_union_l.
Qed.

Lemma fixed_apply_marks st :
  rows (apply_marks st) = rows st ∧ cols (apply_marks st) = cols st
  ∧ moves_made (apply_marks st) = moves_made st.
Proof.
  unfold apply_marks, mark_all_mine, mark_all_safe.
  generalize (elements (mines_to_mark (knowledge st))).
  generalize (elements (safes_to_mark (knowledge st))). intros l1 l2.
  assert (∀ l st, rows (foldl (λ st mine, mark_mine mine st) st l) = rows st
                  ∧ cols (foldl (λ st mine, mark_mine mine st) st l) = cols st
                  ∧ moves_made (foldl (λ st mine, mark_mine mine st) st l)
                    = moves_made st) as Hmine.
  { clear. induction l as [|a l IH]; intros st; simpl; [done|].
    destruct (IH (mark_mine a st)) as (-> & -> & ->).
    apply rows_cols_mark_mine. }
  assert (∀ l st, rows (foldl (λ st safe, mark_safe safe st) st l) = rows st
                  ∧ cols (foldl (λ st safe, mark_safe safe st) st l) = cols st
                  ∧ moves_made (foldl (λ st safe, mark_safe safe st) st l)
                    = moves_made st) as Hsafe.
  { clear. induction l as [|a l IH]; intros st; simpl; [done|].
    destruct (IH (mark_safe a st)) as (-> & -> & ->).
    apply rows_cols_mark_safe. }
  destruct (Hmine l2 (foldl (λ st safe, mark_safe safe st) st l1))
    as (-> & -> & ->).
  apply Hsafe.
Qed.

Lemma fixed_infer_pass st :
  rows (infer_pass st).1 = rows st ∧ cols (infer_pass st).1 = cols st
  ∧ moves_made (infer_pass st).1 = moves_made st.
Proof. apply fixed_apply_marks. Qed.

End LoopResult.

(** X1. Whenever the loop of [infer_knowledge] returns, the knowledge base
    it leaves is saturated: no sentence is empty, none has count 0 or as
    many mines as cells, subset inference has nothing to add, and one more
    iteration changes nothing. *)
Theorem infer_knowledge_saturated (fuel : nat) (st st' : state) :
  infer_knowledge fuel st = Some st' →
  Forall (λ s, Sentence.cells s ≠ ∅ ∧ Sentence.count s ≠ 0
               ∧ Sentence.len s ≠ Sentence.count s) (knowledge st')
  ∧ (∀ A B, A ∈ knowledge st' → B ∈ knowledge st' → resolvable A B →
            resolvent A B ∈ knowledge st')
  ∧ infer_pass st' = (st', false).
Proof.
  intros (st0 & Hch & ->)%infer_knowledge_last_pass.
  pose proof (infer_pass_stable st0 Hch) as Hstable.
  destruct (infer_pass_unchanged st0 Hch) as (Hs & Hm & Hnew & Heq).
  assert (∀ s, s ∈ knowledge (infer_pass st0).1 ↔
               s ∈ knowledge st0 ∧ Sentence.cells s ≠ ∅) as Hk.
  { intros s. rewrite knowledge_infer_pass.
    fold (simplified (infer_pass st0).1). unfold simplified at 2.
    rewrite (apply_marks_nothing st0 Hs Hm), Hnew, app_nil_r.
    rewrite elem_of_simplified, (apply_marks_nothing st0 Hs Hm). done. }
  split_and!; [| |done].
  - apply Forall_forall. intros s [Hin Hne]%Hk. split_and!; [done| |].
    + intros H0. apply set_choose_L in Hne as [c Hc].
      assert (c ∈ safes_to_mark (knowledge st0)) as Hc'
        by (apply elem_of_safes_to_mark; eauto).
      rewrite Hs in Hc'. set_solver.
    + intros Hl. apply set_choose_L in Hne as [c Hc].
      assert (Sentence.count s > 0).
      { rewrite <-Hl. unfold Sentence.len.
        assert (size (Sentence.cells s) ≠ 0%nat); [|lia].
        intros Hz. apply size_empty_inv in Hz. set_solver. }
      assert (c ∈ mines_to_mark (knowledge st0)) as Hc'
        by (apply elem_of_mines_to_mark; eauto 6).
      rewrite Hm in Hc'. set_solver.
  - intros A B HA HB Hres.
    destruct (decide (resolvent A B ∈ knowledge (infer_pass st0).1))
      as [|Hni]; [done|]. exfalso.
    assert (resolvent A B ∈ subset_inference (remove_empty (knowledge st0)))
      as Hin; [|rewrite Hnew in Hin; by apply elem_of_nil in Hin].
    assert (∀ s, s ∈ remove_empty (knowledge st0)
                 ↔ s ∈ knowledge (infer_pass st0).1) as Hre.
    { intros s. rewrite Hk. pose proof (elem_of_simplified st0 s) as He.
      unfold simplified in He. by rewrite (apply_marks_nothing st0 Hs Hm) in He. }
    apply elem_of_subset_inference. exists A, B. rewrite !Hre. done.
Qed.

Lemma infer_knowledge_saturated_scenario_C :
  ∃ st', infer_knowledge 3 Examples.scenario_C = Some st'
    ∧ Forall (λ s, Sentence.cells s ≠ ∅ ∧ Sentence.count s ≠ 0
                   ∧ Sentence.len s ≠ Sentence.count s) (knowledge st')
    ∧ (∀ A B, A ∈ knowledge st' → B ∈ knowledge st' → resolvable A B →
              resolvent A B ∈ knowledge st')
    ∧ infer_pass st' = (st', false).
Proof.
  eexists. split; [vm_compute; reflexivity|].
  apply (infer_knowledge_saturated 3 Examples.scenario_C).
  vm_compute; reflexivity.
Defined.

(** X2. The loop of [infer_knowledge] never retracts a fact and never
    touches [moves_made] or the board size; every cell it newly records as
    safe or as a mine was mentioned by a sentence before the loop, and no
    sentence afterwards mentions a cell that no sentence mentioned
    before. *)
Theorem infer_knowledge_monotone (fuel : nat) (st st' : state) :
  infer_knowledge fuel st = Some st' →
  safes st ⊆ safes st' ∧ mines st ⊆ mines st'
  ∧ safes st' ⊆ safes st ∪ live st ∧ mines st' ⊆ mines st ∪ live st
  ∧ live st' ⊆ live st
  ∧ moves_made st' = moves_made st ∧ rows st' = rows st ∧ cols st' = cols st.
Proof.
  revert st. induction fuel as [|fuel IH]; intros st; [done|].
  rewrite infer_knowledge_S.
  pose proof (safes_mono_pass st). pose proof (mines_mono_pass st).
  pose proof (safes_pass_from_live st). pose proof (mines_pass_from_live st).
  pose proof (live_infer_pass st). pose proof (live_apply_marks st).
  destruct (fixed_infer_pass st) as (Hr & Hc & Hmm).
  destruct (infer_pass st).2.
  - intros (? & ? & ? & ? & ? & -> & -> & ->)%IH.
    rewrite Hr, Hc, Hmm. split_and!; try done; set_solver.
  - intros [= <-]. split_and!; try done; set_solver.
Qed.

Lemma infer_knowledge_monotone_scenario_C :
  ∃ st', infer_knowledge 3 Examples.scenario_C = Some st'
    ∧ safes Examples.scenario_C ⊆ safes st'
    ∧ live st' ⊆ live Examples.scenario_C
    ∧ moves_made st' = moves_made Examples.scenario_C.
Proof.
  eexists. split; [vm_compute; reflexivity|].
  destruct (infer_knowledge_monotone 3 Examples.scenario_C _
              ltac:(vm_compute; reflexivity))
    as (H1 & _ & _ & _ & H5 & H6 & _).
  done.
Defined.

(** X3. In a game against a board with mines [M], every state the agent
    passes through is sound: no cell recorded as safe holds a mine, every
    cell recorded as a mine holds one, no cell is recorded as both, and
    the move taken from [self.safes] never reveals a mine. *)
Theorem knowledge_sound_in_play M height width (st : state) :
  reachable M height width st →
  safes st ## M ∧ mines st ⊆ M ∧ safes st ## mines st
  ∧ ∀ a : Action, safe_move st = Some a → (a.1.1, a.1.2) ∉ M.
Proof.
  intros [Hs Hm _ _]%reachable_agrees. split_and!; [done | done | set_solver |].
  intros a. unfold safe_move.
  destruct (filter _ _) as [|safe l] eqn:Hf; [done|]. intros [= <-]. simpl.
  assert (safe ∈ filter (λ safe, safe ∉ moves_made st) (elements (safes st)))
    as Hin by (rewrite Hf; left).
  apply list_elem_of_filter in Hin as [_ Hin%elem_of_elements].
  destruct safe as [r c]. simpl. set_solver.
Qed.

Lemma knowledge_sound_in_play_first_look :
  reachable Examples.corner_mine 2 2 Examples.first_look
  ∧ safes Examples.first_look ## Examples.corner_mine
  ∧ mines Examples.first_look ⊆ Examples.corner_mine.
Proof.
  assert (reachable Examples.corner_mine 2 2 Examples.first_look) as Hreach.
  { apply reach_ingest; [apply reach_init | by_evaluation]. }
  destruct (knowledge_sound_in_play _ _ _ _ Hreach) as (H1 & H2 & _).
  done.
Defined.

(** * Which cell is chosen *)

Section Choice.
Implicit Types (st : state) (cell : Cell) (a : Action)
               (rnd : HybridAgent.Random).

Lemma elem_of_grid st cell : cell ∈ grid st ↔ in_bounds st cell.
Proof.
  unfold grid, in_bounds, range. destruct cell as [r c].
  rewrite list_elem_of_bind. split.
  - intros (r' & (c' & Hc & ?%elem_of_seqZ)%list_elem_of_bind & ?%elem_of_seqZ).
    apply list_elem_of_singleton in Hc as [= -> ->]. simpl. lia.
  - simpl. intros [? ?]. exists r. split; [|apply elem_of_seqZ; lia].
    apply list_elem_of_bind. exists c. split; [by left | apply elem_of_seqZ; lia].
Qed.

Lemma random_choice_elem {A} (seed : nat) (l : list A) x :
  random_choice seed l = Some x → x ∈ l.
Proof. apply list_elem_of_lookup_2. Qed.

Lemma shuffle_Permutation {A} (seed : nat) (l : list A) :
  l ≡ₚ HybridAgent.shuffle seed l.
Proof.
  unfold HybridAgent.shuffle.
  destruct (permutations l !! _) as [l'|] eqn:Hl; [|done].
  apply list_elem_of_lookup_2 in Hl. by apply permutations_Permutation.
Qed.

Lemma safe_move_spec st :
  match safe_move st with
  | Some a => a.2 = 0 ∧ (a.1.1, a.1.2) ∈ safes st
              ∧ (a.1.1, a.1.2) ∉ moves_made st
  | None => safes st ⊆ moves_made st
  end.
Proof.
  unfold safe_move.
  destruct (filter _ _) as [|safe l] eqn:Hf.
  - intros c Hc. destruct (decide (c ∈ moves_made st)) as [|Hn]; [done|].
    assert (c ∈ filter (λ safe, safe ∉ moves_made st) (elements (safes st)))
      as Hin by (apply list_elem_of_filter; by rewrite elem_of_elements).
    rewrite Hf in Hin. by apply elem_of_nil in Hin.
  - assert (safe ∈ filter (λ safe, safe ∉ moves_made st) (elements (safes st)))
      as Hin by (rewrite Hf; left).
    apply list_elem_of_filter in Hin as [Hn Hin%elem_of_elements].
    destruct safe as [r c]. simpl. done.
Qed.

End Choice.

(** X4. [CSPAgent.get_action] never returns a cell it has already acted
    on: the cell is either recorded as safe, or an in-bounds cell that is
    not a known mine; a recorded safe cell that was not yet acted on is
    always preferred; and [None] is returned exactly when every safe cell
    was acted on and every cell of the board is acted on or a known
    mine. *)
Theorem csp_get_action_choice (fuel seed : nat) (obs : Observation)
    (st st' : state) (r : option Action) :
  CSPAgent.get_action fuel seed obs st = Some (st', r) →
  (∀ a, r = Some a →
        (a.1.1, a.1.2) ∉ moves_made st'
        ∧ ((a.1.1, a.1.2) ∈ safes st'
           ∨ (in_bounds st' (a.1.1, a.1.2) ∧ (a.1.1, a.1.2) ∉ mines st')))
  ∧ (¬ safes st' ⊆ moves_made st' →
     ∃ a, r = Some a ∧ (a.1.1, a.1.2) ∈ safes st')
  ∧ (r = None ↔
     safes st' ⊆ moves_made st'
     ∧ ∀ cell, in_bounds st' cell → cell ∈ moves_made st' ∨ cell ∈ mines st').
Proof.
  unfold CSPAgent.get_action.
  destruct (sync fuel obs (grid st) st) as [st1|]; [|done]. simpl.
  pose proof (safe_move_spec st1) as Hsafe.
  destruct (safe_move st1) as [a0|].
  - intros [= <- <-]. destruct Hsafe as (_ & Hin & Hnm). split_and!.
    + intros a [= <-]. auto.
    + intros _. eauto.
    + split; [done|]. intros [Hsub _]. exfalso. by apply Hnm, Hsub.
  - assert (∀ cell, cell ∈ possible_moves st1 ↔
              in_bounds st1 cell ∧ cell ∉ moves_made st1 ∧ cell ∉ mines st1)
      as Hpm.
    { intros cell. unfold possible_moves.
      rewrite list_elem_of_filter, elem_of_grid. tauto. }
    destruct (possible_moves st1) as [|m l] eqn:Hp.
    + intros [= <- <-]. split_and!; [done | done |].
      split; [|done]. intros _. split; [done|]. intros cell Hb.
      destruct (decide (cell ∈ moves_made st1)); [by left|].
      destruct (decide (cell ∈ mines st1)); [by right|].
      exfalso. assert (cell ∈ @nil Cell) as Hn by by apply Hpm.
      by apply elem_of_nil in Hn.
    + intros [= <- <-].
      destruct (random_choice_is_Some seed (m :: l)) as [move Hmove]; [done|].
      rewrite Hmove. simpl.
      apply random_choice_elem, Hpm in Hmove as (Hb & Hnm & Hmi).
      destruct move as [r0 c0]. split_and!.
      * intros a [= <-]. simpl. auto.
      * intros Hns. by exfalso.
      * split; [done|]. intros [_ Hall]. exfalso.
        destruct (Hall (r0, c0) Hb); done.
Qed.

Lemma csp_get_action_choice_covered_board :
  CSPAgent.get_action 5 0 Examples.covered (init 1 3)
  = Some (init 1 3, Some (0, 0, 0))
  ∧ (0, 0) ∉ moves_made (init 1 3)
  ∧ (Some (0, 0, 0) = None ↔
     safes (init 1 3) ⊆ moves_made (init 1 3)
     ∧ ∀ cell, in_bounds (init 1 3) cell →
               cell ∈ moves_made (init 1 3) ∨ cell ∈ mines (init 1 3)).
Proof.
  assert (CSPAgent.get_action 5 0 Examples.covered (init 1 3)
          = Some (init 1 3, Some (0, 0, 0))) as H by (vm_compute; reflexivity).
  destruct (csp_get_action_choice 5 0 Examples.covered _ _ _ H)
    as (H1 & _ & H3).
  split; [exact H|]. split; [|exact H3].
  by destruct (H1 (0, 0, 0) eq_refl).
Defined.

(** * The copies in [mcmc_agent.py] *)

Section Copies.
Implicit Types (st : state) (cell : Cell) (a : Action)
               (rnd : HybridAgent.Random) (s : Sentence.t).

Lemma mcmc_smart_guess_eq rnd st :
  MCMCAgent.get_smart_guess rnd st = HybridAgent.get_smart_guess rnd st.
Proof.
  unfold MCMCAgent.get_smart_guess, HybridAgent.get_smart_guess.
  rewrite list_filter_filter.
  rewrite (list_filter_iff
             (λ x : Cell, HybridAgent.free st x
                          ∧ (x.1 = 0 ∨ x.1 = rows st - 1
                             ∨ x.2 = 0 ∨ x.2 = cols st - 1))
             (λ x : Cell, (x.1 = 0 ∨ x.1 = rows st - 1
                           ∨ x.2 = 0 ∨ x.2 = cols st - 1)
                          ∧ HybridAgent.free st x)) by (intros; tauto).
  done.
Qed.

Lemma count_assigned_sums (assignment : gmap Cell Z) (l : list Cell)
    (acc : Z * Z) :
  foldl (λ acc cell,
           match assignment !! cell with
           | Some v => (acc.1 + v, acc.2)
           | None => (acc.1, acc.2 + 1)
           end) acc l
  = (acc.1 + foldr Z.add 0 (HybridAgent.lookup0 assignment
                              <$> filter (λ c, is_Some (assignment !! c)) l),
     acc.2 + foldr Z.add 0 ((λ _, 1)
                              <$> filter (λ c, assignment !! c = None) l)).
Proof.
  revert acc. induction l as [|c l IH]; intros [m u]; simpl.
  - f_equal; lia.
  - rewrite IH, !filter_cons.
    destruct (decide (is_Some (assignment !! c))) as [[v Hc]|Hn].
    + rewrite Hc. rewrite decide_False by done. simpl.
      unfold HybridAgent.lookup0 at 2. rewrite Hc. simpl.
      f_equal. symmetry. apply Z.add_assoc.
    + assert (assignment !! c = None) as Hc.
      { destruct (assignment !! c); [exfalso; eauto | done]. }
      rewrite Hc. rewrite decide_True by done. simpl.
      f_equal. symmetry. apply Z.add_assoc.
Qed.

Lemma mcmc_consistent_eq (assignment : gmap Cell Z) s :
  MCMCAgent.consistent assignment s = HybridAgent.sentence_ok assignment s.
Proof.
  unfold MCMCAgent.consistent, HybridAgent.sentence_ok,
    HybridAgent.count_assigned.
  rewrite count_assigned_sums. simpl. done.
Qed.

Lemma mcmc_count_world_eq (sentences : list Sentence.t) (comp : list Cell)
    (acc : Z * gmap Cell Z) (assignment : gmap Cell Z) :
  MCMCAgent.count_world sentences comp acc assignment
  = HybridAgent.count_world sentences comp acc assignment.
Proof.
  unfold MCMCAgent.count_world, HybridAgent.count_world,
    HybridAgent.check_consistent.
  assert (forallb (MCMCAgent.consistent assignment) sentences
          = forallb (HybridAgent.sentence_ok assignment) sentences) as ->; [|done].
  induction sentences as [|s l IH]; simpl; [done|].
  by rewrite IH, mcmc_consistent_eq.
Qed.

Lemma mcmc_exact_count_eq st (comp : list Cell) :
  MCMCAgent.exact_count st comp = HybridAgent.exact_count st comp.
Proof.
  unfold MCMCAgent.exact_count, HybridAgent.exact_count, HybridAgent.tally.
  generalize (0, foldl (λ mc cell, <[cell:=0]> mc) (∅ : gmap Cell Z) comp).
  generalize (HybridAgent.exact_worlds comp).
  induction l as [|w l IH]; intros acc; simpl; [done|].
  by rewrite IH, mcmc_count_world_eq.
Qed.

Lemma mcmc_solve_exact_eq st (comp : list Cell) :
  MCMCAgent.solve_component_exact st comp
  = HybridAgent.solve_component_exact st comp.
Proof.
  unfold MCMCAgent.solve_component_exact, HybridAgent.solve_component_exact.
  by rewrite mcmc_exact_count_eq.
Qed.

End Copies.

(** X5. [get_smart_guess] only returns reveals of cells that are neither
    acted on nor known mines; the cell is one of the four corners or a cell
    of the board; a free corner is always preferred, then a free cell on
    an edge of the board; and [None] means that no corner and no cell of
    the board is free. *)
Theorem smart_guess_choice (rnd : HybridAgent.Random) (st : state) :
  let corners : list Cell :=
    [(0, 0); (0, cols st - 1); (rows st - 1, 0); (rows st - 1, cols st - 1)] in
  let edge := λ cell : Cell, cell.1 = 0 ∨ cell.1 = rows st - 1
                             ∨ cell.2 = 0 ∨ cell.2 = cols st - 1 in
  match HybridAgent.get_smart_guess rnd st with
  | Some a =>
      a.2 = 0 ∧ HybridAgent.free st a.1
      ∧ (a.1 ∈ corners ∨ in_bounds st a.1)
      ∧ ((∃ c, c ∈ corners ∧ HybridAgent.free st c) → a.1 ∈ corners)
      ∧ ((∃ c, in_bounds st c ∧ edge c ∧ HybridAgent.free st c) →
         a.1 ∈ corners ∨ edge a.1)
  | None =>
      ∀ cell, cell ∈ corners ∨ in_bounds st cell → ¬ HybridAgent.free st cell
  end.
Proof.
  intros corners edge. unfold HybridAgent.get_smart_guess. fold corners.
  assert (∀ c, c ∈ filter (HybridAgent.free st)
                     (HybridAgent.shuffle (HybridAgent.shuffle_seed rnd) corners)
               ↔ HybridAgent.free st c ∧ c ∈ corners) as Hcorner.
  { intros c. rewrite list_elem_of_filter.
    by rewrite <-(shuffle_Permutation _ corners). }
  destruct (filter (HybridAgent.free st) (HybridAgent.shuffle _ _))
    as [|c0 l0] eqn:Hc.
  2: { assert (HybridAgent.free st c0 ∧ c0 ∈ corners) as [Hf Hin]
         by (apply Hcorner; left).
       destruct c0 as [r c]. simpl. split_and!; auto. }
  assert (∀ c, c ∈ corners → ¬ HybridAgent.free st c) as Hnocorner.
  { intros c Hin Hf. assert (c ∈ @nil Cell) as Hn by (apply Hcorner; done).
    by apply elem_of_nil in Hn. }
  set (edges := filter (λ cell : Cell, _ ∧ HybridAgent.free st cell) (grid st)).
  assert (∀ c, c ∈ edges ↔ in_bounds st c ∧ edge c ∧ HybridAgent.free st c)
    as Hedges.
  { intros c. unfold edges. rewrite list_elem_of_filter, elem_of_grid.
    unfold edge. tauto. }
  destruct edges as [|e0 l1] eqn:He.
  - assert (∀ c, c ∈ filter (HybridAgent.free st) (grid st)
                 ↔ HybridAgent.free st c ∧ in_bounds st c) as Hposs.
    { intros c. by rewrite list_elem_of_filter, elem_of_grid. }
    destruct (filter (HybridAgent.free st) (grid st)) as [|p0 l2] eqn:Hp.
    + intros cell [Hin|Hin] Hf; [by eapply Hnocorner|].
      assert (cell ∈ @nil Cell) as Hn by (apply Hposs; done).
      by apply elem_of_nil in Hn.
    + destruct (random_choice_is_Some (HybridAgent.choice_seed rnd) (p0 :: l2))
        as [x Hx]; [done|].
      rewrite Hx. simpl. apply random_choice_elem, Hposs in Hx as [Hf Hb].
      destruct x as [r c]. simpl. split_and!; auto.
      * intros (c' & Hin & Hf'). exfalso. by eapply Hnocorner.
      * intros (c' & Hc'). exfalso. assert (c' ∈ @nil Cell) as Hn by by apply Hedges.
        by apply elem_of_nil in Hn.
  - destruct (random_choice_is_Some (HybridAgent.choice_seed rnd) (e0 :: l1))
      as [x Hx]; [done|].
    rewrite Hx. simpl. apply random_choice_elem, Hedges in Hx as (Hb & He' & Hf).
    destruct x as [r c]. simpl. split_and!; auto.
    intros (c' & Hin & Hf'). exfalso. by eapply Hnocorner.
Qed.

(** X6. The code that [mcmc_agent.py] repeats behaves as the original in
    [hybrid_agent.py]: its inline consistency test and exact estimator, and
    its [get_smart_guess], return the same values, so that the MCMC agent
    handed Monte Carlo as its approximate estimator acts exactly as the
    hybrid agent. *)
Theorem mcmc_copies_agree (fuel : nat) (rnd : HybridAgent.Random)
    (obs : Observation) (st : state) (comp : list Cell) :
  MCMCAgent.solve_component_exact st comp
  = HybridAgent.solve_component_exact st comp
  ∧ MCMCAgent.get_smart_guess rnd st = HybridAgent.get_smart_guess rnd st
  ∧ MCMCAgent.get_action
      (λ k, HybridAgent.solve_component_monte_carlo (HybridAgent.coin rnd k))
      fuel rnd obs st
    = HybridAgent.get_action fuel rnd obs st.
Proof.
  split_and!; [apply mcmc_solve_exact_eq | apply mcmc_smart_guess_eq |].
  unfold MCMCAgent.get_action, HybridAgent.get_action.
  destruct (sync fuel obs (grid st) st) as [st1|]; [|done]. simpl.
  destruct (safe_move st1); [done|].
  assert (MCMCAgent.guess
            (λ k, HybridAgent.solve_component_monte_carlo (HybridAgent.coin rnd k))
            fuel rnd st1
          = HybridAgent.guess fuel rnd
              (λ k, HybridAgent.solve_component_monte_carlo (HybridAgent.coin rnd k))
              st1) as ->; [|done].
  unfold MCMCAgent.guess, HybridAgent.guess, MCMCAgent.get_components.
  rewrite mcmc_smart_guess_eq.
  destruct (elements _); [done|].
  destruct (HybridAgent.get_components _ _ _) as [comps|]; [|done]. simpl.
  assert (∀ l best,
            foldl (MCMCAgent.consider
                     (λ k, HybridAgent.solve_component_monte_carlo
                             (HybridAgent.coin rnd k)) st1) best l
            = foldl (HybridAgent.consider st1
                       (λ k, HybridAgent.solve_component_monte_carlo
                               (HybridAgent.coin rnd k))) best l) as ->; [|done].
  induction l0 as [|kc l0 IH]; intros best; simpl; [done|].
  rewrite IH. f_equal.
  unfold MCMCAgent.consider, HybridAgent.consider, MCMCAgent.estimate,
    HybridAgent.estimate.
  by rewrite mcmc_solve_exact_eq.
Qed.

(** * What [check_consistent] tests *)

Section Consistency.
Implicit Types (a : gmap Cell Z) (s : Sentence.t) (l : list Cell)
               (X : gset Cell).

Lemma elem_of_mines_of a c : c ∈ mines_of a ↔ a !! c = Some 1.
Proof.
  unfold mines_of. rewrite elem_of_dom. split.
  - intros [v [Hv Hp]%map_lookup_filter_Some]. simpl in Hp. by subst.
  - intros Hc. exists 1. by apply map_lookup_filter_Some.
Qed.

Lemma sum_assigned_binary a l :
  binary a →
  foldr Z.add 0 (HybridAgent.lookup0 a <$> filter (λ c, is_Some (a !! c)) l)
  = Z.of_nat (length (filter (λ c, c ∈ mines_of a) l)).
Proof.
  intros Hbin. induction l as [|c l IH]; [done|].
  rewrite !filter_cons.
  destruct (decide (is_Some (a !! c))) as [[v Hv]|Hn].
  - rewrite fmap_cons. cbn [foldr]. rewrite IH.
    unfold HybridAgent.lookup0. rewrite Hv. simpl.
    destruct (Hbin c v Hv) as [-> | ->].
    + rewrite decide_False; [lia|]. rewrite elem_of_mines_of, Hv. done.
    + rewrite decide_True; [cbn [length]; lia|]. by rewrite elem_of_mines_of.
  - rewrite decide_False; [done|].
    rewrite elem_of_mines_of. intros Hc. apply Hn. eauto.
Qed.

Lemma sum_ones_length {A} (l : list A) :
  foldr Z.add 0 ((λ _, 1) <$> l) = Z.of_nat (length l).
Proof.
  induction l as [|x l IH]; [done|].
  rewrite fmap_cons. cbn [foldr length]. rewrite IH. lia.
Qed.

Lemma count_assigned_spec a s :
  binary a →
  HybridAgent.count_assigned a s
  = (Z.of_nat (size (Sentence.cells s ∩ mines_of a)),
     Z.of_nat (size (Sentence.cells s ∖ dom a))).
Proof.
  intros Hbin. unfold HybridAgent.count_assigned.
  rewrite count_assigned_sums, sum_assigned_binary, sum_ones_length by done.
  simpl. rewrite !Z.add_0_l. f_equal; f_equal.
  - rewrite <-(size_list_to_set (C := gset Cell))
      by apply NoDup_filter, NoDup_elements.
    f_equal. apply set_eq. intros c.
    rewrite elem_of_list_to_set, list_elem_of_filter, elem_of_elements.
    set_solver.
  - rewrite <-(size_list_to_set (C := gset Cell))
      by apply NoDup_filter, NoDup_elements.
    f_equal. apply set_eq. intros c.
    rewrite elem_of_list_to_set, list_elem_of_filter, elem_of_elements,
      elem_of_difference, not_elem_of_dom. tauto.
Qed.

Lemma sentence_ok_spec a s :
  binary a →
  HybridAgent.sentence_ok a s = true ↔
  if decide (Sentence.cells s ⊆ dom a)
  then sentence_true (mines_of a) s
  else Z.of_nat (size (Sentence.cells s ∩ mines_of a)) <= Sentence.count s.
Proof.
  intros Hbin. unfold HybridAgent.sentence_ok, sentence_true.
  rewrite count_assigned_spec by done.
  assert (Z.of_nat (size (Sentence.cells s ∖ dom a)) = 0
          ↔ Sentence.cells s ⊆ dom a) as Hz.
  { split.
    - intros Hs. assert (size (Sentence.cells s ∖ dom a) = 0%nat) as Hs' by lia.
      apply size_empty_inv in Hs'. set_solver.
    - intros Hsub. assert (Sentence.cells s ∖ dom a = ∅) as -> by set_solver.
      by rewrite size_empty. }
  destruct (decide (Sentence.cells s ⊆ dom a)) as [Hsub|Hns].
  - pose proof (proj2 Hz Hsub) as Hu.
    repeat case_decide; split; intros; try done; lia.
  - assert (Z.of_nat (size (Sentence.cells s ∖ dom a)) ≠ 0) as Hu
      by (intros Hu; apply Hns, Hz, Hu).
    repeat case_decide; split; intros; try done; lia.
Qed.

End Consistency.

Lemma check_consistent_each (assignment : gmap Cell Z)
    (sentences : list Sentence.t) :
  HybridAgent.check_consistent assignment sentences = true ↔
  ∀ s, s ∈ sentences → HybridAgent.sentence_ok assignment s = true.
Proof.
  unfold HybridAgent.check_consistent. rewrite forallb_forall.
  split; intros Hall s Hs; apply Hall; by apply list_elem_of_In.
Qed.

(** X7. For an assignment with values 0 and 1, [check_consistent] accepts
    exactly when every sentence all of whose cells are assigned has
    exactly [count] cells assigned 1, and every sentence with an
    unassigned cell has at most [count] cells assigned 1. *)
Theorem check_consistent_meaning (assignment : gmap Cell Z)
    (sentences : list Sentence.t) :
  binary assignment →
  HybridAgent.check_consistent assignment sentences = true ↔
  ∀ s, s ∈ sentences →
       if decide (Sentence.cells s ⊆ dom assignment)
       then Sentence.count s
            = Z.of_nat (size (Sentence.cells s ∩ mines_of assignment))
       else Z.of_nat (size (Sentence.cells s ∩ mines_of assignment))
            <= Sentence.count s.
Proof.
  intros Hbin. rewrite check_consistent_each.
  split; intros Hall s Hs; by apply (sentence_ok_spec assignment s Hbin), Hall.
Qed.

Lemma check_consistent_meaning_scenario_A :
  binary {[(0, 0) := 1; (0, 1) := 0]}
  ∧ HybridAgent.check_consistent {[(0, 0) := 1; (0, 1) := 0]}
      (knowledge Examples.scenario_A) = true
  ∧ HybridAgent.check_consistent {[(0, 0) := 1; (0, 1) := 1]}
      (knowledge Examples.scenario_A) = false.
Proof.
  assert (binary {[(0, 0) := 1; (0, 1) := 0]}) as Hbin.
  { intros c v Hv. apply lookup_insert_Some in Hv as [[_ <-]|[_ Hv]]; [by right|].
    apply lookup_singleton_Some in Hv as [_ <-]. by left. }
  split; [exact Hbin|]. split; [|vm_compute; reflexivity].
  apply (check_consistent_meaning _ _ Hbin).
  intros s Hs. apply list_elem_of_singleton in Hs as ->.
  rewrite decide_True by by_evaluation. by_evaluation.
Defined.

(** * What the exact estimator counts *)

Section Enumeration.
Implicit Types (a : gmap Cell Z) (comp : list Cell) (X D : gset Cell).

Lemma foldl_insert_fresh (l : list (Cell * Z)) (m : gmap Cell Z) c b :
  c ∉ l.*1 →
  foldl (λ m cv, <[cv.1 := cv.2]> m) (<[c := b]> m) l
  = <[c := b]> (foldl (λ m cv, <[cv.1 := cv.2]> m) m l).
Proof.
  revert m. induction l as [|[k v] l IH]; intros m Hc; simpl; [done|].
  rewrite fmap_cons, not_elem_of_cons in Hc. destruct Hc as [Hne Hc].
  simpl in Hne. rewrite <-IH by done. f_equal.
  by apply insert_insert_ne.
Qed.

Lemma assignment_of_cons c comp b (p : list Z) :
  c ∉ comp →
  HybridAgent.assignment_of (c :: comp) (b :: p)
  = <[c := b]> (HybridAgent.assignment_of comp p).
Proof.
  intros Hc. unfold HybridAgent.assignment_of. simpl.
  apply foldl_insert_fresh. intros Hin. apply Hc.
  apply list_elem_of_fmap in Hin as ([c' v] & -> & Hin).
  by apply elem_of_zip_l in Hin.
Qed.

Lemma exact_worlds_cons c comp :
  c ∉ comp →
  HybridAgent.exact_worlds (c :: comp)
  = (insert c 0 <$> HybridAgent.exact_worlds comp)
    ++ (insert c 1 <$> HybridAgent.exact_worlds comp).
Proof.
  intros Hc. unfold HybridAgent.exact_worlds. simpl.
  rewrite app_nil_r, fmap_app, <-!list_fmap_compose.
  f_equal; apply list_fmap_ext; intros i p _; simpl;
    by apply assignment_of_cons.
Qed.

(** The enumeration lists every 0/1 assignment of the component's
    cells exactly once. *)
Lemma exact_worlds_spec comp :
  NoDup comp →
  NoDup (HybridAgent.exact_worlds comp)
  ∧ ∀ a, a ∈ HybridAgent.exact_worlds comp
         ↔ dom a = list_to_set comp ∧ binary a.
Proof.
  induction 1 as [|c comp Hc Hnd [IHnd IH]].
  - split; [apply NoDup_singleton|]. intros a.
    change (HybridAgent.exact_worlds []) with [(∅ : gmap Cell Z)].
    rewrite list_elem_of_singleton. simpl. split.
    + intros ->. split; [apply dom_empty_L|]. intros c v Hv.
      by rewrite lookup_empty in Hv.
    + intros [Hd _]. by apply dom_empty_iff_L.
  - rewrite exact_worlds_cons by done.
    assert (∀ a, a ∈ HybridAgent.exact_worlds comp → a !! c = None) as Hfresh.
    { intros a [Hd _]%IH. apply not_elem_of_dom. rewrite Hd.
      by rewrite elem_of_list_to_set. }
    split.
    + apply NoDup_app. split_and!.
      * apply NoDup_fmap_2_strong; [|done]. intros a1 a2 H1 H2 Heq.
        rewrite <-(delete_insert_id a1 c 0), <-(delete_insert_id a2 c 0)
          by auto. by rewrite Heq.
      * intros a (a1 & -> & H1)%list_elem_of_fmap
                 (a2 & Heq & H2)%list_elem_of_fmap.
        apply (f_equal (λ m : gmap Cell Z, m !! c)) in Heq.
        rewrite !lookup_insert_eq in Heq. done.
      * apply NoDup_fmap_2_strong; [|done]. intros a1 a2 H1 H2 Heq.
        rewrite <-(delete_insert_id a1 c 1), <-(delete_insert_id a2 c 1)
          by auto. by rewrite Heq.
    + intros a. rewrite elem_of_app, !list_elem_of_fmap. split.
      * intros [(a' & -> & [Hd Hb]%IH) | (a' & -> & [Hd Hb]%IH)];
          (split; [rewrite dom_insert_L, Hd; set_solver|]);
          intros k v [[_ <-]|[_ Hv]]%lookup_insert_Some; eauto.
      * intros [Hd Hb].
        assert (c ∈ dom a) as [b Hcb]%elem_of_dom by (rewrite Hd; set_solver).
        assert (delete c a ∈ HybridAgent.exact_worlds comp) as Hdel.
        { apply IH. split.
          - rewrite dom_delete_L, Hd. simpl.
            assert (c ∉ (list_to_set comp : gset Cell))
              by by rewrite elem_of_list_to_set.
            set_solver.
          - intros k v [_ Hv]%lookup_delete_Some. eauto. }
        destruct (Hb c b Hcb) as [-> | ->]; [left | right];
          exists (delete c a); by rewrite insert_delete_id.
Qed.

Lemma mines_of_inj D a1 a2 :
  dom a1 = D → binary a1 → dom a2 = D → binary a2 →
  mines_of a1 = mines_of a2 → a1 = a2.
Proof.
  intros Hd1 Hb1 Hd2 Hb2 Heq. apply map_eq. intros c.
  destruct (a1 !! c) as [v1|] eqn:H1, (a2 !! c) as [v2|] eqn:H2; try done.
  - f_equal.
    assert (c ∈ mines_of a1 ↔ c ∈ mines_of a2) as Hiff by by rewrite Heq.
    rewrite !elem_of_mines_of, H1, H2 in Hiff.
    destruct (Hb1 c v1 H1) as [-> | ->], (Hb2 c v2 H2) as [-> | ->];
      try done.
    + assert (Some 0 = Some 1 :> option Z) by by apply Hiff. done.
    + assert (Some 0 = Some 1 :> option Z) by by apply Hiff. done.
  - apply elem_of_dom_2 in H1. apply not_elem_of_dom in H2. congruence.
  - apply elem_of_dom_2 in H2. apply not_elem_of_dom in H1. congruence.
Qed.

Lemma mines_of_surj D X :
  X ⊆ D → ∃ a, dom a = D ∧ binary a ∧ mines_of a = X.
Proof.
  intros Hsub. exists (gset_to_gmap 1 X ∪ gset_to_gmap 0 D). split_and!.
  - rewrite dom_union_L, !dom_gset_to_gmap. set_solver.
  - intros c v [Hv|[_ Hv]]%lookup_union_Some_raw;
      apply lookup_gset_to_gmap_Some in Hv as [_ <-]; auto.
  - apply set_eq. intros c. rewrite elem_of_mines_of, lookup_union_Some_raw,
      !lookup_gset_to_gmap_Some. naive_solver.
Qed.

Lemma mines_of_subseteq a : mines_of a ⊆ dom a.
Proof. intros c Hc%elem_of_mines_of. by eapply elem_of_dom_2. Qed.

End Enumeration.

Section Tally.
Implicit Types (a : gmap Cell Z) (comp : list Cell) (mc : gmap Cell Z)
               (sentences : list Sentence.t).

Lemma lookup0_insert mc c v k :
  HybridAgent.lookup0 (<[c := v]> mc) k
  = if decide (c = k) then v else HybridAgent.lookup0 mc k.
Proof.
  unfold HybridAgent.lookup0. rewrite lookup_insert. by case_decide.
Qed.

(** The inner loop [for cell in comp: if assignment[cell] == 1: ...]. *)
Lemma count_cells_lookup a comp mc k :
  NoDup comp →
  HybridAgent.lookup0
    (foldl (λ mc cell,
              if decide (HybridAgent.lookup0 a cell = 1)
              then <[cell := HybridAgent.lookup0 mc cell + 1]> mc else mc)
           mc comp) k
  = HybridAgent.lookup0 mc k
    + (if decide (k ∈ comp ∧ HybridAgent.lookup0 a k = 1) then 1 else 0).
Proof.
  intros Hnd. revert mc. induction Hnd as [|c comp Hc Hnd IH]; intros mc.
  - destruct (decide (k ∈ [] ∧ HybridAgent.lookup0 a k = 1)) as [[Hin _]|_];
      [by apply elem_of_nil in Hin | simpl; lia].
  - simpl. rewrite IH. destruct (decide (k = c)) as [->|Hne].
    + rewrite (decide_False (P := c ∈ comp ∧ _)) by tauto.
      destruct (decide (HybridAgent.lookup0 a c = 1)) as [H1|H1].
      * rewrite lookup0_insert, decide_True by done.
        rewrite decide_True; [lia|]. split; [by left | done].
      * rewrite decide_False; [lia|]. tauto.
    + assert (HybridAgent.lookup0
                (if decide (HybridAgent.lookup0 a c = 1)
                 then <[c := HybridAgent.lookup0 mc c + 1]> mc else mc) k
              = HybridAgent.lookup0 mc k) as ->.
      { destruct (decide (HybridAgent.lookup0 a c = 1)); [|done].
        rewrite lookup0_insert.
        rewrite decide_False; [done | by intros ->]. }
      f_equal.
      destruct (decide (k ∈ comp ∧ HybridAgent.lookup0 a k = 1)) as [H1|H1].
      * rewrite decide_True; [done|]. destruct H1 as [Hin H1].
        split; [by right | done].
      * rewrite decide_False; [done|]. intros [Hin ?]. apply H1.
        apply elem_of_cons in Hin as [?|?]; [done | tauto].
Qed.

Lemma lookup0_zeros comp k :
  HybridAgent.lookup0 (foldl (λ mc cell, <[cell := 0]> mc) ∅ comp) k = 0.
Proof.
  assert (∀ mc, HybridAgent.lookup0 mc k = 0 →
            HybridAgent.lookup0 (foldl (λ mc cell, <[cell := 0]> mc) mc comp) k
            = 0) as Hgen.
  { induction comp as [|c comp IH]; intros mc Hmc; simpl; [done|].
    apply IH. rewrite lookup0_insert. by case_decide. }
  apply Hgen. unfold HybridAgent.lookup0. by rewrite lookup_empty.
Qed.

Lemma count_world_fst sentences comp (acc : Z * gmap Cell Z) a :
  (HybridAgent.count_world sentences comp acc a).1
  = acc.1 + (if decide (HybridAgent.check_consistent a sentences = true)
             then 1 else 0).
Proof.
  unfold HybridAgent.count_world.
  destruct (HybridAgent.check_consistent a sentences).
  - rewrite decide_True by done. done.
  - rewrite decide_False by done. cbn. lia.
Qed.

Lemma count_world_snd sentences comp (acc : Z * gmap Cell Z) a k :
  NoDup comp → k ∈ comp →
  HybridAgent.lookup0 (HybridAgent.count_world sentences comp acc a).2 k
  = HybridAgent.lookup0 acc.2 k
    + (if decide (HybridAgent.check_consistent a sentences = true
                  ∧ HybridAgent.lookup0 a k = 1) then 1 else 0).
Proof.
  intros Hnd Hk. unfold HybridAgent.count_world.
  destruct (HybridAgent.check_consistent a sentences).
  - cbn [snd]. rewrite count_cells_lookup by done.
    f_equal. destruct (decide (HybridAgent.lookup0 a k = 1)) as [H1|H1].
    + by rewrite !decide_True by done.
    + by rewrite !decide_False by tauto.
  - rewrite decide_False; [lia|]. by intros [? _].
Qed.

(** What the counting loop of both estimators leaves in [valid_worlds]
    and [mine_counts]. *)
Lemma tally_spec sentences comp (worlds : list (gmap Cell Z)) :
  NoDup comp →
  (HybridAgent.tally sentences comp worlds).1
  = Z.of_nat (length (filter (λ a, HybridAgent.check_consistent a sentences
                                    = true) worlds))
  ∧ ∀ k, k ∈ comp →
      HybridAgent.lookup0 (HybridAgent.tally sentences comp worlds).2 k
      = Z.of_nat (length (filter
                            (λ a, HybridAgent.check_consistent a sentences = true
                                  ∧ HybridAgent.lookup0 a k = 1) worlds)).
Proof.
  intros Hnd. unfold HybridAgent.tally.
  assert (∀ acc : Z * gmap Cell Z,
            (foldl (HybridAgent.count_world sentences comp) acc worlds).1
            = acc.1 + Z.of_nat (length (filter
                 (λ a, HybridAgent.check_consistent a sentences = true) worlds))
            ∧ ∀ k, k ∈ comp →
                HybridAgent.lookup0
                  (foldl (HybridAgent.count_world sentences comp) acc worlds).2 k
                = HybridAgent.lookup0 acc.2 k
                  + Z.of_nat (length (filter
                      (λ a, HybridAgent.check_consistent a sentences = true
                            ∧ HybridAgent.lookup0 a k = 1) worlds))) as Hgen.
  { induction worlds as [|a worlds IH]; intros acc.
    - cbn. split; [lia|]. intros; lia.
    - cbn [foldl]. destruct (IH (HybridAgent.count_world sentences comp acc a))
        as [IH1 IH2].
      split.
      + rewrite IH1, count_world_fst, filter_cons.
        destruct (decide (HybridAgent.check_consistent a sentences = true));
          cbn [length]; lia.
      + intros k Hk. rewrite (IH2 k Hk), count_world_snd, filter_cons by done.
        destruct (decide (HybridAgent.check_consistent a sentences = true
                          ∧ HybridAgent.lookup0 a k = 1));
          cbn [length]; lia. }
  destruct (Hgen (0, foldl (λ mc cell, <[cell := 0]> mc) ∅ comp)) as [H1 H2].
  split.
  - rewrite H1. cbn [fst]. lia.
  - intros k Hk. rewrite (H2 k Hk). cbn [snd]. rewrite lookup0_zeros. lia.
Qed.

Lemma length_filter_fmap {A B} (f : A → B) (P : B → Prop)
    `{!∀ x, Decision (P x)} (l : list A) :
  length (filter P (f <$> l)) = length (filter (λ x, P (f x)) l).
Proof.
  induction l as [|x l IH]; [done|].
  rewrite fmap_cons, !filter_cons. case_decide; simpl; by rewrite IH.
Qed.

End Tally.

(** X8. For a component whose cells are listed without repetition and
    whose relevant sentences lie inside it, the exact estimator counts the
    mine placements: [valid_worlds] is the number of subsets of the
    component that put exactly [count] mines on every relevant sentence,
    and [mine_counts[cell]] is the number of those that contain the
    cell. *)
Theorem exact_count_counts_placements (st : state) (comp : list Cell) :
  NoDup comp →
  (∀ s, s ∈ HybridAgent.relevant_knowledge st comp →
        Sentence.cells s ⊆ list_to_set comp) →
  ∃ placements : list (gset Cell),
    NoDup placements
    ∧ (∀ X, X ∈ placements ↔ X ⊆ list_to_set comp ∧ satisfies st comp X)
    ∧ (HybridAgent.exact_count st comp).1 = Z.of_nat (length placements)
    ∧ ∀ cell, cell ∈ comp →
        HybridAgent.lookup0 (HybridAgent.exact_count st comp).2 cell
        = Z.of_nat (length (filter (λ X, cell ∈ X) placements)).
Proof.
  intros Hnd Hinside.
  destruct (exact_worlds_spec comp Hnd) as [Hwnd Hw].
  set (sentences := HybridAgent.relevant_knowledge st comp) in *.
  set (ok := λ a : gmap Cell Z, HybridAgent.check_consistent a sentences = true).
  assert (∀ a, a ∈ HybridAgent.exact_worlds comp →
               (ok a ↔ satisfies st comp (mines_of a))) as Hok.
  { intros a [Hd Hb]%Hw. unfold ok. rewrite check_consistent_each.
    unfold satisfies. fold sentences. split; intros Hall s Hs.
    - specialize (Hall s Hs). apply (sentence_ok_spec a s Hb) in Hall.
      rewrite decide_True in Hall; [done|]. rewrite Hd. by apply Hinside.
    - apply (sentence_ok_spec a s Hb).
      rewrite decide_True; [by apply Hall|]. rewrite Hd. by apply Hinside. }
  exists (mines_of <$> filter ok (HybridAgent.exact_worlds comp)).
  split_and!.
  - apply NoDup_fmap_2_strong; [|by apply NoDup_filter].
    intros a1 a2 [_ [Hd1 Hb1]%Hw]%list_elem_of_filter
                 [_ [Hd2 Hb2]%Hw]%list_elem_of_filter Heq.
    by eapply mines_of_inj.
  - intros X. rewrite list_elem_of_fmap. split.
    + intros (a & -> & [Ha Hin]%list_elem_of_filter). split.
      * destruct (proj1 (Hw a) Hin) as [<- _]. apply mines_of_subseteq.
      * by apply Hok.
    + intros [Hsub Hsat].
      destruct (mines_of_surj (list_to_set comp) X Hsub) as (a & Hd & Hb & <-).
      exists a. split; [done|]. apply list_elem_of_filter.
      assert (a ∈ HybridAgent.exact_worlds comp) as Hin by by apply Hw.
      split; [by apply Hok | done].
  - unfold HybridAgent.exact_count. fold sentences.
    rewrite (proj1 (tally_spec sentences comp _ Hnd)), length_fmap. done.
  - intros cell Hcell. unfold HybridAgent.exact_count. fold sentences.
    rewrite (proj2 (tally_spec sentences comp _ Hnd) cell Hcell).
    rewrite length_filter_fmap, list_filter_filter. do 2 f_equal.
    apply list_filter_iff. intros a. fold (ok a).
    rewrite elem_of_mines_of. unfold HybridAgent.lookup0.
    destruct (a !! cell) as [v|]; simpl; [|naive_solver].
    split; intros [? ?]; split; congruence.
Qed.

Lemma exact_count_counts_placements_scenario_A :
  (NoDup [(0, 0); (0, 1)]
   ∧ ∀ s, s ∈ HybridAgent.relevant_knowledge Examples.scenario_A [(0, 0); (0, 1)] →
          Sentence.cells s ⊆ list_to_set [(0, 0); (0, 1)])
  ∧ ∃ placements : list (gset Cell),
      NoDup placements
      ∧ (∀ X, X ∈ placements ↔
              X ⊆ list_to_set [(0, 0); (0, 1)]
              ∧ satisfies Examples.scenario_A [(0, 0); (0, 1)] X)
      ∧ (HybridAgent.exact_count Examples.scenario_A [(0, 0); (0, 1)]).1
        = Z.of_nat (length placements)
      ∧ ∀ cell, cell ∈ [(0, 0); (0, 1)] →
          HybridAgent.lookup0
            (HybridAgent.exact_count Examples.scenario_A [(0, 0); (0, 1)]).2 cell
          = Z.of_nat (length (filter (λ X, cell ∈ X) placements)).
Proof.
  assert (NoDup [(0, 0); (0, 1)]) as H1 by by_evaluation.
  assert (∀ s, s ∈ HybridAgent.relevant_knowledge Examples.scenario_A
                     [(0, 0); (0, 1)] →
               Sentence.cells s ⊆ list_to_set [(0, 0); (0, 1)]) as H2.
  { intros s Hs.
    assert (HybridAgent.relevant_knowledge Examples.scenario_A [(0, 0); (0, 1)]
            = [Sentence.mk {[(0, 0); (0, 1)]} 1]) as Heq by (vm_compute; reflexivity).
    rewrite Heq in Hs. apply list_elem_of_singleton in Hs as ->.
    by_evaluation. }
  split; [done|].
  exact (exact_count_counts_placements Examples.scenario_A _ H1 H2).
Defined.

(** * The cell an estimator returns *)

Section PickBest.
Implicit Types (mc : gmap Cell Z) (vw : Z) (comp : list Cell) (c : Cell).

Lemma Qltb_lt (a b : Q) : HybridAgent.Qltb a b = true ↔ (a < b)%Q.
Proof.
  unfold HybridAgent.Qltb. rewrite negb_true_iff, <-not_true_iff_false.
  rewrite Qle_bool_iff. split; [apply Qnot_le_lt | apply Qlt_not_le].
Qed.

Lemma prob_lt mc vw c c' :
  0 < vw →
  (HybridAgent.prob mc vw c < HybridAgent.prob mc vw c')%Q
  ↔ HybridAgent.lookup0 mc c < HybridAgent.lookup0 mc c'.
Proof.
  intros Hvw. unfold HybridAgent.prob, Qlt. cbn [Qnum Qden].
  rewrite Z2Pos.id by done. nia.
Qed.

Lemma prob_lt_1 mc vw c :
  0 < vw →
  (HybridAgent.prob mc vw c < 1)%Q ↔ HybridAgent.lookup0 mc c < vw.
Proof.
  intros Hvw. unfold HybridAgent.prob, Qlt. cbn [Qnum Qden].
  rewrite Z2Pos.id by done. lia.
Qed.

Lemma pick_best_snoc mc vw comp c :
  HybridAgent.pick_best mc vw (comp ++ [c])
  = let best := HybridAgent.pick_best mc vw comp in
    let p := HybridAgent.prob mc vw c in
    if HybridAgent.Qltb p best.2 then (Some c, p) else best.
Proof. unfold HybridAgent.pick_best. by rewrite foldl_app. Qed.

(** The cell an estimator returns is one of the component. *)
Lemma pick_best_elem mc vw comp c :
  (HybridAgent.pick_best mc vw comp).1 = Some c → c ∈ comp.
Proof.
  induction comp as [|x comp IH] using rev_ind; [done|].
  rewrite pick_best_snoc. cbn zeta.
  destruct (HybridAgent.Qltb _ _).
  - intros [= ->]. apply elem_of_app. right. by left.
  - intros H. apply elem_of_app. left. by apply IH.
Qed.

End PickBest.

(** X9. The final loop of the two estimators, for a positive number of
    valid worlds: the cell it returns is the first cell of the component
    with the least mine count, its probability is that count over the
    number of worlds, and it lies below 1; no cell is returned exactly
    when every cell is a mine in all the worlds counted. *)
Theorem pick_best_least (mine_counts : gmap Cell Z) (valid_worlds : Z)
    (comp : list Cell) :
  0 < valid_worlds →
  match HybridAgent.pick_best mine_counts valid_worlds comp with
  | (Some cell, p) =>
      p = HybridAgent.prob mine_counts valid_worlds cell
      ∧ HybridAgent.lookup0 mine_counts cell < valid_worlds
      ∧ (∀ c, c ∈ comp →
              HybridAgent.lookup0 mine_counts cell
              <= HybridAgent.lookup0 mine_counts c)
      ∧ ∃ front back, comp = front ++ cell :: back
          ∧ ∀ c, c ∈ front →
                 HybridAgent.lookup0 mine_counts cell
                 < HybridAgent.lookup0 mine_counts c
  | (None, p) =>
      p = 1%Q
      ∧ ∀ c, c ∈ comp → valid_worlds <= HybridAgent.lookup0 mine_counts c
  end.
Proof.
  intros Hvw. induction comp as [|x comp IH] using rev_ind.
  - cbn. split; [done|]. by intros c Hc%elem_of_nil.
  - rewrite pick_best_snoc. cbn zeta.
    destruct (HybridAgent.pick_best mine_counts valid_worlds comp)
      as [[cell|] p]; cbn [snd].
    + destruct IH as [Hp (Hlt & Hleast & front & back & Hsplit & Hfirst)].
      subst p comp.
      destruct (HybridAgent.Qltb _ _) eqn:Hq.
      * apply Qltb_lt, prob_lt in Hq; [|done].
        split_and!; [done | lia | |].
        -- intros c [Hc | ->%list_elem_of_singleton]%elem_of_app; [|lia].
           specialize (Hleast c Hc). lia.
        -- exists (front ++ cell :: back), []. split; [done|].
           intros c Hc. specialize (Hleast c Hc). lia.
      * assert (¬ HybridAgent.lookup0 mine_counts x
                  < HybridAgent.lookup0 mine_counts cell) as Hge.
        { intros H. apply (prob_lt mine_counts valid_worlds) in H; [|done].
          apply Qltb_lt in H. congruence. }
        split_and!; [done | done | |].
        -- intros c [Hc | ->%list_elem_of_singleton]%elem_of_app;
             [by apply Hleast | lia].
        -- exists front, (back ++ [x]). split; [|done].
           by rewrite <-app_assoc.
    + destruct IH as [Hp Hall]. subst p.
      destruct (HybridAgent.Qltb _ _) eqn:Hq.
      * apply Qltb_lt, prob_lt_1 in Hq; [|done].
        split_and!; [done | done | |].
        -- intros c [Hc | ->%list_elem_of_singleton]%elem_of_app; [|lia].
           specialize (Hall c Hc). lia.
        -- exists comp, []. split; [done|].
           intros c Hc. specialize (Hall c Hc). lia.
      * split; [done|].
        intros c [Hc | ->%list_elem_of_singleton]%elem_of_app; [by apply Hall|].
        destruct (decide (valid_worlds <= HybridAgent.lookup0 mine_counts x))
          as [|Hn]; [done|].
        assert (HybridAgent.lookup0 mine_counts x < valid_worlds) as H by lia.
        apply (prob_lt_1 mine_counts valid_worlds) in H; [|done].
        apply Qltb_lt in H. congruence.
Qed.

Lemma pick_best_least_two_cells :
  0 < 2
  ∧ ∃ cell p,
      HybridAgent.pick_best {[(0, 0) := 1; (0, 1) := 1]} 2 [(0, 0); (0, 1)]
      = (Some cell, p)
      ∧ HybridAgent.lookup0 {[(0, 0) := 1; (0, 1) := 1]} cell < 2
      ∧ ∀ c, c ∈ [(0, 0); (0, 1)] →
             HybridAgent.lookup0 {[(0, 0) := 1; (0, 1) := 1]} cell
             <= HybridAgent.lookup0 {[(0, 0) := 1; (0, 1) := 1]} c.
Proof.
  split; [lia|].
  pose proof (pick_best_least {[(0, 0) := 1; (0, 1) := 1]} 2 [(0, 0); (0, 1)]
                ltac:(lia)) as H.
  destruct (HybridAgent.pick_best _ _ _) as [[cell|] p] eqn:Hp.
  - exists cell, p. destruct H as (_ & Hlt & Hleast & _). done.
  - vm_compute in Hp. discriminate Hp.
Defined.

(** * The exact estimator on a truthful knowledge base *)

Section Certainties.
Implicit Types (a : gmap Cell Z) (comp : list Cell) (M : gset Cell)
               (st : state).

Lemma length_filter_le {A} (P Q : A → Prop) `{!∀ x, Decision (P x)}
    `{!∀ x, Decision (Q x)} (l : list A) :
  (∀ x, P x → Q x) → (length (filter P l) <= length (filter Q l))%nat.
Proof.
  intros HPQ. induction l as [|x l IH]; [done|].
  rewrite !filter_cons. destruct (decide (P x)) as [HP|HP].
  - rewrite decide_True by auto. cbn [length]. lia.
  - destruct (decide (Q x)); cbn [length]; lia.
Qed.

Lemma length_filter_pos {A} (P : A → Prop) `{!∀ x, Decision (P x)}
    (l : list A) x :
  x ∈ l → P x → (1 <= length (filter P l))%nat.
Proof.
  intros Hx HP.
  assert (x ∈ filter P l) as Hin by by apply list_elem_of_filter.
  destruct (filter P l); [by apply elem_of_nil in Hin | cbn [length]; lia].
Qed.

Lemma length_filter_all {A} (P Q : A → Prop) `{!∀ x, Decision (P x)}
    `{!∀ x, Decision (Q x)} (l : list A) :
  length (filter (λ x, P x ∧ Q x) l) = length (filter P l) →
  ∀ x, x ∈ l → P x → Q x.
Proof.
  induction l as [|y l IH]; intros Hlen x Hx HP;
    [by apply elem_of_nil in Hx|].
  pose proof (length_filter_le (λ x, P x ∧ Q x) P l (λ x H, proj1 H)) as Hle.
  rewrite !filter_cons in Hlen.
  destruct (decide (P y)) as [HPy|HPy].
  - destruct (decide (P y ∧ Q y)) as [[_ HQy]|Hn]; cbn [length] in Hlen.
    + apply elem_of_cons in Hx as [-> | Hx]; [done|].
      apply IH; [lia | done | done].
    + lia.
  - rewrite decide_False in Hlen by tauto.
    apply elem_of_cons in Hx as [-> | Hx]; [done|]. by apply IH.
Qed.

(** The board itself, cut down to the component, is one of the worlds
    the exact estimator accepts. *)
Lemma board_is_counted M st comp :
  Forall (sentence_true M) (knowledge st) → NoDup comp →
  ∃ a, a ∈ HybridAgent.exact_worlds comp
       ∧ HybridAgent.check_consistent a
           (HybridAgent.relevant_knowledge st comp) = true
       ∧ mines_of a = M ∩ list_to_set comp.
Proof.
  intros Htrue Hnd.
  destruct (mines_of_surj (list_to_set comp) (M ∩ list_to_set comp))
    as (a & Hd & Hb & Hm); [set_solver|].
  exists a. split_and!; [by apply exact_worlds_spec | | done].
  apply check_consistent_each. intros s Hs.
  apply (sentence_ok_spec a s Hb).
  assert (sentence_true M s) as Hs'.
  { rewrite Forall_forall in Htrue. apply Htrue.
    unfold HybridAgent.relevant_knowledge in Hs.
    by apply list_elem_of_filter in Hs as [_ Hs]. }
  unfold sentence_true in *. rewrite Hm, Hs'.
  destruct (decide (Sentence.cells s ⊆ dom a)) as [Hsub|_].
  - do 2 f_equal. rewrite Hd in Hsub. set_solver.
  - apply inj_le, subseteq_size. set_solver.
Qed.

End Certainties.

(** X10. On a knowledge base whose sentences are true of the board, the
    exact estimator always finds a valid world, and its certainties are
    right: a cell of the component that is a mine in none of the valid
    worlds holds no mine, and a cell that is a mine in all of them holds
    one. *)
Theorem exact_certainties_hold (M : gset Cell) (st : state)
    (comp : list Cell) :
  Forall (sentence_true M) (knowledge st) → NoDup comp →
  1 <= (HybridAgent.exact_count st comp).1
  ∧ ∀ cell, cell ∈ comp →
      (HybridAgent.lookup0 (HybridAgent.exact_count st comp).2 cell = 0 →
       cell ∉ M)
      ∧ (HybridAgent.lookup0 (HybridAgent.exact_count st comp).2 cell
         = (HybridAgent.exact_count st comp).1 → cell ∈ M).
Proof.
  intros Htrue Hnd.
  destruct (board_is_counted M st comp Htrue Hnd) as (a & Hin & Hok & Hm).
  unfold HybridAgent.exact_count.
  destruct (tally_spec (HybridAgent.relevant_knowledge st comp) comp
              (HybridAgent.exact_worlds comp) Hnd) as [H1 H2].
  rewrite H1. split.
  - pose proof (length_filter_pos
                  (λ a, HybridAgent.check_consistent a
                          (HybridAgent.relevant_knowledge st comp) = true)
                  _ a Hin Hok). lia.
  - intros cell Hcell. rewrite (H2 cell Hcell).
    assert (HybridAgent.lookup0 a cell = 1 ↔ cell ∈ M) as Hcm.
    { assert (cell ∈ (list_to_set comp : gset Cell)) as Hc
        by by apply elem_of_list_to_set.
      apply exact_worlds_spec in Hin as [Hd _]; [|done].
      unfold HybridAgent.lookup0. destruct (a !! cell) as [v|] eqn:Hv; simpl.
      - split.
        + intros ->. apply elem_of_mines_of in Hv. rewrite Hm in Hv.
          set_solver.
        + intros HM. assert (cell ∈ mines_of a) as H
            by (rewrite Hm; set_solver).
          apply elem_of_mines_of in H. congruence.
      - apply not_elem_of_dom in Hv. rewrite Hd in Hv. done. }
    split.
    + intros Hz HM. apply Hcm in HM.
      pose proof (length_filter_pos
                    (λ a, HybridAgent.check_consistent a
                            (HybridAgent.relevant_knowledge st comp) = true
                          ∧ HybridAgent.lookup0 a cell = 1)
                    _ a Hin (conj Hok HM)). lia.
    + intros Hall. apply Hcm.
      apply Nat2Z.inj in Hall.
      by apply (length_filter_all _ _ _ Hall a Hin Hok).
Qed.

Lemma exact_certainties_hold_scenario_A :
  (Forall (sentence_true {[(0, 0)]}) (knowledge Examples.scenario_A)
   ∧ NoDup [(0, 0); (0, 1)])
  ∧ 1 <= (HybridAgent.exact_count Examples.scenario_A [(0, 0); (0, 1)]).1.
Proof.
  assert (Forall (sentence_true {[(0, 0)]}) (knowledge Examples.scenario_A)
          ∧ NoDup [(0, 0); (0, 1)]) as [H1 H2].
  { split; [|by_evaluation].
    change (knowledge Examples.scenario_A)
      with [Sentence.mk {[(0, 0); (0, 1)]} 1].
    apply Forall_singleton. unfold sentence_true. by_evaluation. }
  split; [done|].
  exact (proj1 (exact_certainties_hold {[(0, 0)]} Examples.scenario_A _ H1 H2)).
Defined.

(** * Components are connected *)

Section Edges.
Import HybridAgent.
Implicit Types (nb : gmap Cell (gset Cell)) (c n : Cell)
               (l fringe : list Cell) (K : list Sentence.t).

(** The edges [get_components] adds come from the sentences. *)
Lemma adj_link_row_inv c1 l nb c n :
  adj (foldl (λ nb c2, link c1 c2 nb) nb l) c n →
  adj nb c n ∨ (c = c1 ∧ n ∈ l) ∨ (n = c1 ∧ c ∈ l).
Proof.
  revert nb. induction l as [|a l IH]; intros nb H; [by left|].
  cbn [foldl] in H. apply IH in H as [H | [[-> Hn] | [-> Hc]]].
  - apply adj_link in H as [H | (_ & _ & [[-> ->] | [-> ->]])];
      [by left | right; left | right; right]; (split; [done | by left]).
  - right; left. split; [done | by right].
  - right; right. split; [done | by right].
Qed.

Lemma adj_link_pairs_inv l nb c n :
  adj (link_pairs l nb) c n → adj nb c n ∨ (c ∈ l ∧ n ∈ l).
Proof.
  revert nb. induction l as [|a l IH]; intros nb H; [by left|].
  cbn [link_pairs] in H. apply IH in H as [H | [Hc Hn]].
  - apply adj_link_row_inv in H as [H | [[-> Hn] | [-> Hc]]];
      [by left | right ..].
    + split; [by left | by right].
    + split; [by right | by left].
  - right. split; by right.
Qed.

Lemma adj_build_neighbors_inv K fringe c n :
  adj (build_neighbors K fringe) c n → share K c n.
Proof.
  unfold build_neighbors.
  assert (∀ nb0,
            adj (foldl (λ nb s, link_pairs (elements (Sentence.cells s)) nb)
                       nb0 K) c n →
            adj nb0 c n ∨ share K c n) as Hgen.
  { induction K as [|s K IH]; intros nb0 H; [by left|].
    cbn [foldl] in H. apply IH in H as [H | (s' & Hs' & Hc & Hn)].
    - apply adj_link_pairs_inv in H as [H | [Hc Hn]]; [by left|].
      right. exists s. rewrite !elem_of_elements in *.
      split_and!; [by left | done | done].
    - right. exists s'. split_and!; [by right | done | done]. }
  intros H. apply Hgen in H as [(ns & Hl & Hn) | H]; [|done].
  rewrite neighbors_init_lookup in Hl. case_decide; [|done].
  injection Hl as <-. set_solver.
Qed.

End Edges.

Section Reach.
Import HybridAgent.
Variable nb : gmap Cell (gset Cell).
Implicit Types (c n : Cell) (stack todo : list Cell)
               (visited comp : gset Cell).

(** Whatever a traversal returns holds the cells it started from and is
    reached from them along edges. *)
Lemma explore_reach (R : Cell → Prop) (fuel : nat) stack visited comp r :
  (∀ c n, R c → adj nb c n → R n) →
  (∀ c, c ∈ stack → R c) → (∀ c, c ∈ comp → R c) →
  explore fuel nb stack visited comp = Some r →
  comp ∪ list_to_set stack ⊆ r.1 ∧ ∀ c, c ∈ r.1 → R c.
Proof.
  intros Hstep. revert stack visited comp.
  induction fuel as [|fuel IH]; intros stack visited comp Hs Hc Hex.
  - destruct stack; [|done]. injection Hex as <-. simpl.
    split; [set_solver | done].
  - destruct stack as [|curr stack]; cbn [explore] in Hex.
    { injection Hex as <-. simpl. split; [set_solver | done]. }
    destruct (nb !! curr) as [ns|] eqn:Hns; [|done]. cbn in Hex.
    destruct (visit_neighbors_fold (elements ns) stack visited
                (NoDup_elements ns)) as (new & Hfold & _ & Hnew).
    rewrite Hfold in Hex. cbn [fst snd] in Hex.
    apply IH in Hex as [Hsub Hall].
    + split; [|done]. intros x Hx. apply Hsub.
      rewrite list_to_set_app_L. set_solver.
    + intros c [Hc'|Hc']%elem_of_app.
      * apply Hnew in Hc' as [Hc' _]. apply elem_of_elements in Hc'.
        apply (Hstep curr); [apply Hs; by left|]. by exists ns.
      * apply Hs. by right.
    + intros c [->%elem_of_singleton | Hc']%elem_of_union;
        [apply Hs; by left | by apply Hc].
Qed.

Lemma collect_reach (P : gset Cell → Prop) (fuel : nat) todo visited
    (comps comps' : list (gset Cell)) :
  (∀ c0 C, c0 ∈ todo → c0 ∈ C → (∀ c, c ∈ C → rtc (adj nb) c0 c) → P C) →
  Forall P comps →
  collect fuel nb todo visited comps = Some comps' →
  Forall P comps'.
Proof.
  revert visited comps.
  induction todo as [|cell todo IH]; intros visited comps HP Hall Hcol;
    cbn [collect] in Hcol.
  - by injection Hcol as <-.
  - destruct (decide (cell ∈ visited)) as [Hvis|Hvis].
    + eapply IH; [|done|done]. intros c0 C H0. apply HP. by right.
    + destruct (explore fuel nb [cell] ({[cell]} ∪ visited) ∅)
        as [r|] eqn:Hex; [|done]. cbn in Hcol.
      eapply IH; [| |done].
      * intros c0 C H0. apply HP. by right.
      * apply Forall_app. split; [done|]. apply Forall_singleton.
        apply (explore_reach (rtc (adj nb) cell)) in Hex as [Hsub Hr].
        -- apply (HP cell); [by left | set_solver | done].
        -- intros c n Hc Hadj. eapply rtc_r; done.
        -- intros c ->%list_elem_of_singleton. done.
        -- set_solver.
Qed.

End Reach.

(** X11. Every component [get_components] returns is one connected piece:
    it holds a cell of the fringe from which each of its cells is reached
    by a chain of cells, each sharing a sentence with the next. *)
Theorem get_components_connected (fuel : nat) (K : list Sentence.t)
    (fringe : list Cell) (comps : list (gset Cell)) :
  HybridAgent.get_components fuel K fringe = Some comps →
  ∀ C, C ∈ comps → ∃ c0, c0 ∈ fringe ∧ rooted K c0 C.
Proof.
  unfold HybridAgent.get_components. intros Hcol.
  apply (collect_reach _ (λ C, ∃ c0, c0 ∈ fringe ∧ rooted K c0 C)) in Hcol.
  - rewrite Forall_forall in Hcol. done.
  - intros c0 C H0 HC Hr. exists c0. split; [done|]. split; [done|].
    intros c Hc. eapply rtc_subrel; [|by apply Hr].
    intros x y. apply adj_build_neighbors_inv.
  - constructor.
Qed.

Lemma get_components_connected_two_islands :
  HybridAgent.get_components 4 Examples.two_islands
    (elements (HybridAgent.fringe_cells Examples.two_islands))
  = Some [{[(0, 0); (0, 1)]}; {[(2, 2); (2, 3)]}]
  ∧ ∃ c0, rooted Examples.two_islands c0 {[(2, 2); (2, 3)]}.
Proof.
  assert (HybridAgent.get_components 4 Examples.two_islands
            (elements (HybridAgent.fringe_cells Examples.two_islands))
          = Some [{[(0, 0); (0, 1)]}; {[(2, 2); (2, 3)]}]) as H
    by (vm_compute; reflexivity).
  split; [done|].
  destruct (get_components_connected _ _ _ _ H {[(2, 2); (2, 3)]})
    as (c0 & _ & Hr).
  - right. left.
  - by exists c0.
Defined.

(** * What every state of an agent looks like *)

Section Invariant.
Implicit Types (st : state) (c cell : Cell) (s : Sentence.t)
               (l : list Cell).

Lemma in_bounds_ext st st' c :
  rows st' = rows st → cols st' = cols st →
  in_bounds st' c ↔ in_bounds st c.
Proof. unfold in_bounds. by intros -> ->. Qed.

Lemma tidy_init (height width : Z) : tidy (init height width).
Proof.
  split.
  - done.
  - intros s Hs. by apply elem_of_nil in Hs.
  - intros c Hc. exfalso. revert Hc.
    rewrite !elem_of_union, elem_of_live. simpl.
    intros [[Hc|Hc]|(s & Hs & _)]; [set_solver | set_solver |].
    by apply elem_of_nil in Hs.
Qed.

Lemma tidy_mark_safe cell st :
  tidy st → in_bounds st cell → tidy (mark_safe cell st).
Proof.
  intros [Hm Hf Hb] Hcell.
  destruct (rows_cols_mark_safe cell st) as (Hr & Hc & Hmm).
  pose proof (live_mark_safe cell st) as Hlive.
  split.
  - rewrite Hmm, safes_mark_safe. set_solver.
  - rewrite safes_mark_safe, mines_mark_safe. intros s Hs.
    unfold mark_safe in Hs. destruct (decide (cell ∈ safes st)) as [Hin|Hin].
    + destruct (Hf s Hs). set_solver.
    + cbn [knowledge] in Hs. apply list_elem_of_fmap in Hs as (s0 & -> & Hs0).
      rewrite cells_mark_safe. destruct (Hf s0 Hs0). set_solver.
  - intros c Hin. apply (in_bounds_ext st); [done | done |].
    rewrite safes_mark_safe, mines_mark_safe in Hin.
    destruct (decide (c = cell)) as [->|Hne]; [done|].
    apply Hb. set_solver.
Qed.

Lemma tidy_mark_mine cell st :
  tidy st → in_bounds st cell → tidy (mark_mine cell st).
Proof.
  intros [Hm Hf Hb] Hcell.
  destruct (rows_cols_mark_mine cell st) as (Hr & Hc & Hmm).
  pose proof (live_mark_mine cell st) as Hlive.
  split.
  - rewrite Hmm, safes_mark_mine. set_solver.
  - rewrite safes_mark_mine, mines_mark_mine. intros s Hs.
    unfold mark_mine in Hs. destruct (decide (cell ∈ mines st)) as [Hin|Hin].
    + destruct (Hf s Hs). set_solver.
    + cbn [knowledge] in Hs. apply list_elem_of_fmap in Hs as (s0 & -> & Hs0).
      rewrite cells_mark_mine. destruct (Hf s0 Hs0). set_solver.
  - intros c Hin. apply (in_bounds_ext st); [done | done |].
    rewrite safes_mark_mine, mines_mark_mine in Hin.
    destruct (decide (c = cell)) as [->|Hne]; [done|].
    apply Hb. set_solver.
Qed.

Lemma tidy_mark_list_safe l st :
  tidy st → (∀ c, c ∈ l → in_bounds st c) →
  tidy (foldl (λ st safe, mark_safe safe st) st l).
Proof.
  revert st. induction l as [|a l IH]; intros st Ht Hl; [done|].
  cbn [foldl]. destruct (rows_cols_mark_safe a st) as (Hr & Hc & _).
  apply IH.
  - apply tidy_mark_safe; [done|]. apply Hl. by left.
  - intros c Hc'. apply (in_bounds_ext st); [done | done |].
    apply Hl. by right.
Qed.

Lemma tidy_mark_list_mine l st :
  tidy st → (∀ c, c ∈ l → in_bounds st c) →
  tidy (foldl (λ st mine, mark_mine mine st) st l).
Proof.
  revert st. induction l as [|a l IH]; intros st Ht Hl; [done|].
  cbn [foldl]. destruct (rows_cols_mark_mine a st) as (Hr & Hc & _).
  apply IH.
  - apply tidy_mark_mine; [done|]. apply Hl. by left.
  - intros c Hc'. apply (in_bounds_ext st); [done | done |].
    apply Hl. by right.
Qed.

Lemma fixed_mark_list_safe l st :
  rows (foldl (λ st safe, mark_safe safe st) st l) = rows st
  ∧ cols (foldl (λ st safe, mark_safe safe st) st l) = cols st.
Proof.
  revert st. induction l as [|a l IH]; intros st; [done|].
  cbn [foldl]. destruct (IH (mark_safe a st)) as [-> ->].
  destruct (rows_cols_mark_safe a st) as (-> & -> & _). done.
Qed.

Lemma tidy_apply_marks st : tidy st → tidy (apply_marks st).
Proof.
  intros Ht. unfold apply_marks, mark_all_mine, mark_all_safe.
  assert (∀ c, c ∈ safes_to_mark (knowledge st)
                   ∪ mines_to_mark (knowledge st) → in_bounds st c) as Hin.
  { intros c Hc%marked_was_live. apply (tidy_bounds st Ht). set_solver. }
  destruct (fixed_mark_list_safe (elements (safes_to_mark (knowledge st))) st)
    as [Hr Hc].
  apply tidy_mark_list_mine.
  - apply tidy_mark_list_safe; [done|].
    intros c Hc'%elem_of_elements. apply Hin. set_solver.
  - intros c Hc'%elem_of_elements. apply (in_bounds_ext st); [done | done |].
    apply Hin. set_solver.
Qed.

Lemma tidy_infer_pass st : tidy st → tidy (infer_pass st).1.
Proof.
  intros Ht. pose proof (tidy_apply_marks st Ht) as [Hm Hf Hb].
  destruct (fixed_infer_pass st) as (Hr & Hc & Hmm).
  destruct (fixed_apply_marks st) as (Hr' & Hc' & Hmm').
  split.
  - rewrite Hmm, safes_infer_pass, <-Hmm'. done.
  - rewrite safes_infer_pass, mines_infer_pass, knowledge_infer_pass.
    intros s [Hs|Hs]%elem_of_app.
    + apply elem_of_simplified in Hs as [Hs _]. by apply Hf.
    + apply elem_of_subset_inference in Hs
        as (A & B & _ & [HB _]%elem_of_simplified & _ & -> & _).
      destruct (Hf B HB). simpl. set_solver.
  - intros c Hin. apply (in_bounds_ext (apply_marks st)); [congruence ..|].
    apply Hb. rewrite safes_infer_pass, mines_infer_pass in Hin.
    pose proof (live_infer_pass st). set_solver.
Qed.

Lemma tidy_infer_knowledge (fuel : nat) st st' :
  tidy st → infer_knowledge fuel st = Some st' → tidy st'.
Proof.
  revert st. induction fuel as [|fuel IH]; intros st Ht; [done|].
  rewrite infer_knowledge_S. destruct (infer_pass st).2.
  - apply IH. by apply tidy_infer_pass.
  - intros [= <-]. by apply tidy_infer_pass.
Qed.

Lemma tidy_ingest cell cnt st :
  tidy st → in_bounds st cell → tidy (ingest cell cnt st).
Proof.
  intros Ht Hcell. pose proof (tidy_mark_safe cell st Ht Hcell) as [Hm Hf Hb].
  destruct (ingest_fields cell cnt st) as (Hr & Hc & Hmm & Hmi & Hsa).
  destruct (rows_cols_mark_safe cell st) as (Hr' & Hc' & Hmm').
  rewrite safes_mark_safe, mines_mark_safe in Hf, Hb.
  rewrite Hmm', safes_mark_safe in Hm.
  split.
  - rewrite Hmm, Hsa. set_solver.
  - rewrite Hsa, Hmi, knowledge_ingest. intros s [Hs|Hs]%elem_of_app.
    + by apply Hf.
    + case_decide; [by apply elem_of_nil in Hs|].
      apply list_elem_of_singleton in Hs as ->. simpl. set_solver.
  - intros c Hin. apply (in_bounds_ext st); [done | done |].
    rewrite Hsa, Hmi in Hin.
    apply elem_of_union in Hin as [Hin|Hin].
    { apply (in_bounds_ext (mark_safe cell st)); [done | done |].
      apply Hb. set_solver. }
    apply elem_of_live in Hin as (s & Hs & Hcs).
    rewrite knowledge_ingest in Hs. apply elem_of_app in Hs as [Hs|Hs].
    + apply (in_bounds_ext (mark_safe cell st)); [done | done |].
      apply Hb. apply elem_of_union_r, elem_of_live. eauto.
    + case_decide; [by apply elem_of_nil in Hs|].
      apply list_elem_of_singleton in Hs as ->. simpl in Hcs.
      assert (c ∈ neighbours st cell) as Hn by set_solver.
      apply elem_of_neighbours in Hn. unfold in_bounds. tauto.
Qed.

Lemma fixed_infer_knowledge (fuel : nat) st st' :
  infer_knowledge fuel st = Some st' →
  rows st' = rows st ∧ cols st' = cols st.
Proof.
  revert st. induction fuel as [|fuel IH]; intros st; [done|].
  rewrite infer_knowledge_S.
  destruct (fixed_infer_pass st) as (Hr & Hc & _).
  destruct (infer_pass st).2.
  - intros H. apply IH in H as [-> ->]. done.
  - by intros [= <-].
Qed.

Lemma tidy_sync (fuel : nat) (obs : Observation) l st st' :
  tidy st → (∀ c, c ∈ l → in_bounds st c) →
  sync fuel obs l st = Some st' →
  tidy st' ∧ rows st' = rows st ∧ cols st' = cols st.
Proof.
  revert st. induction l as [|cell l IH]; intros st Ht Hl Hs;
    cbn [sync] in Hs.
  - by injection Hs as <-.
  - destruct (decide (obs cell >= 0)) as [Hobs|Hobs];
      [destruct (decide (cell ∉ moves_made st)) as [Hnew|Hold]|];
      cbn in Hs.
    2, 3: apply (IH st); [done | intros c Hc; apply Hl; by right | done].
    destruct (add_knowledge fuel cell (obs cell) st) as [st1|] eqn:Hadd;
      [|done]. cbn in Hs. unfold add_knowledge in Hadd.
    destruct (ingest_fields cell (obs cell) st) as (Hr & Hc & _).
    destruct (fixed_infer_knowledge _ _ _ Hadd) as [Hr1 Hc1].
    destruct (IH st1) as (Ht' & -> & ->); [| |done|].
    + eapply tidy_infer_knowledge; [|done].
      apply tidy_ingest; [done|]. apply Hl. by left.
    + intros c Hc'. apply (in_bounds_ext st); [congruence ..|].
      apply Hl. by right.
    + split; [done|]. split; congruence.
Qed.

End Invariant.

Section Guess.
Implicit Types (st : state) (c cell : Cell) (a : Action)
               (rnd : HybridAgent.Random)
               (approx : nat → state → list Cell → option Cell * Q)
               (best : option Cell * Q).

(** A component holds cells that sentences mention only. *)
Lemma components_in_fringe (fuel : nat) (K : list Sentence.t)
    (comps : list (gset Cell)) C c :
  HybridAgent.get_components fuel K
    (elements (HybridAgent.fringe_cells K)) = Some comps →
  C ∈ comps → c ∈ C → c ∈ HybridAgent.fringe_cells K.
Proof.
  unfold HybridAgent.get_components. intros Hcol HC Hc.
  apply (collect_reach _ (λ C, C ⊆ HybridAgent.fringe_cells K)) in Hcol.
  - rewrite Forall_forall in Hcol. by apply (Hcol C HC).
  - intros c0 C' H0%elem_of_elements _ Hr x Hx.
    specialize (Hr x Hx). apply rtc_inv_r in Hr as [->|(y & _ & Hadj)];
      [done|].
    apply adj_build_neighbors_inv in Hadj as (s & Hs & _ & Hx').
    unfold HybridAgent.fringe_cells. apply in_foldl_union. right. eauto.
  - constructor.
Qed.

Lemma solve_exact_elem st (comp : list Cell) c :
  (HybridAgent.solve_component_exact st comp).1 = Some c → c ∈ comp.
Proof.
  unfold HybridAgent.solve_component_exact.
  destruct (HybridAgent.exact_count st comp) as [vw mc].
  case_decide; [done|]. apply pick_best_elem.
Qed.

Lemma solve_monte_carlo_elem draw st (comp : list Cell) c :
  (HybridAgent.solve_component_monte_carlo draw st comp).1 = Some c →
  c ∈ comp.
Proof.
  unfold HybridAgent.solve_component_monte_carlo.
  destruct (HybridAgent.tally _ _ _) as [vw mc].
  case_decide; [done|]. apply pick_best_elem.
Qed.

Lemma consider_fold_elem st approx best (l : list (nat * gset Cell)) c :
  (∀ k st comp c, (approx k st comp).1 = Some c → c ∈ comp) →
  (foldl (HybridAgent.consider st approx) best l).1 = Some c →
  best.1 = Some c ∨ ∃ kc, kc ∈ l ∧ c ∈ kc.2.
Proof.
  intros Happrox. revert best.
  induction l as [|kc l IH]; intros best H; [by left|].
  cbn [foldl] in H. apply IH in H as [H|(kc' & Hin & Hc)].
  - unfold HybridAgent.consider in H.
    destruct (HybridAgent.estimate st approx kc) as [[move|] p] eqn:He;
      [|by left].
    destruct (HybridAgent.Qltb p best.2); [|by left].
    right. exists kc. split; [by left|]. cbn in H. injection H as ->.
    apply (f_equal fst) in He. cbn in He.
    unfold HybridAgent.estimate in He.
    apply elem_of_elements.
    destruct (HybridAgent.route kc.2);
      [by apply solve_exact_elem in He | by apply Happrox in He].
  - right. exists kc'. split; [by right | done].
Qed.

(** A guess is a cell some sentence mentions, or the smart guess. *)
Lemma guess_source (fuel : nat) rnd approx st a :
  (∀ k st comp c, (approx k st comp).1 = Some c → c ∈ comp) →
  HybridAgent.guess fuel rnd approx st = Some (Some a) →
  (∃ c, a = HybridAgent.reveal c ∧ c ∈ live st)
  ∨ HybridAgent.get_smart_guess rnd st = Some a.
Proof.
  intros Happrox. unfold HybridAgent.guess.
  destruct (elements (HybridAgent.fringe_cells (knowledge st)))
    as [|c0 l0] eqn:Hfr; [intros [= H]; by right|].
  rewrite <-Hfr.
  destruct (HybridAgent.get_components fuel (knowledge st) _)
    as [comps|] eqn:Hcomps; [|done]. cbn.
  destruct (foldl _ _ _) as [[move|] p] eqn:Hbest; cbn;
    [|intros [= H]; by right].
  intros [= <-]. left. exists move. split; [done|].
  apply (f_equal fst) in Hbest. cbn in Hbest.
  apply consider_fold_elem in Hbest as [Hb|([k C] & Hin & Hc)];
    [done | | done].
  apply list_elem_of_lookup in Hin as [i Hi].
  rewrite list_lookup_imap in Hi.
  destruct (comps !! i) as [C'|] eqn:HC; [|done]. cbn in Hi.
  injection Hi as <- <-. cbn in Hc.
  eapply components_in_fringe; [done | | done].
  by eapply list_elem_of_lookup_2.
Qed.

Lemma smart_guess_source rnd st a :
  0 < rows st → 0 < cols st →
  HybridAgent.get_smart_guess rnd st = Some a →
  a.2 = 0 ∧ HybridAgent.free st a.1 ∧ in_bounds st a.1.
Proof.
  intros Hrows Hcols. unfold HybridAgent.get_smart_guess.
  set (corners := [(0, 0); (0, cols st - 1); (rows st - 1, 0);
                   (rows st - 1, cols st - 1)]).
  destruct (filter (HybridAgent.free st) (HybridAgent.shuffle _ corners))
    as [|c0 l0] eqn:Hc.
  2: { intros [= <-].
       assert (c0 ∈ filter (HybridAgent.free st)
                 (HybridAgent.shuffle (HybridAgent.shuffle_seed rnd) corners))
         as Hin by (rewrite Hc; left).
       apply list_elem_of_filter in Hin as [Hf Hin].
       rewrite <-(shuffle_Permutation _ corners) in Hin.
       split_and!; [done | done |]. unfold in_bounds. cbn.
       unfold corners in Hin. rewrite !elem_of_cons in Hin.
       destruct Hin as [->|[->|[->|[->|Hin]]]]; cbn; try lia.
       by apply elem_of_nil in Hin. }
  set (edges := filter (λ cell : Cell, _ ∧ HybridAgent.free st cell) (grid st)).
  destruct edges as [|e0 l1] eqn:He.
  - destruct (filter (HybridAgent.free st) (grid st)) as [|p0 l2] eqn:Hp;
      [done|].
    destruct (random_choice _ _) as [x|] eqn:Hx; [|done].
    intros [= <-]. apply random_choice_elem in Hx. rewrite <-Hp in Hx.
    apply list_elem_of_filter in Hx as [Hf Hb%elem_of_grid]. done.
  - destruct (random_choice _ _) as [x|] eqn:Hx; [|done].
    intros [= <-]. apply random_choice_elem in Hx. rewrite <-He in Hx.
    apply list_elem_of_filter in Hx as [[_ Hf] Hb%elem_of_grid]. done.
Qed.

End Guess.

(** X12. From a tidy state on a board with at least one cell,
    [HybridAgent.get_action] leaves a tidy state, and the action it
    returns reveals a cell of the board that the agent has not acted on;
    unless the cell is taken from [self.safes], it is not a known mine
    either. *)
Theorem hybrid_get_action_sound (fuel : nat) (rnd : HybridAgent.Random)
    (obs : Observation) (st st' : state) (a : Action) :
  tidy st → 0 < rows st → 0 < cols st →
  HybridAgent.get_action fuel rnd obs st = Some (st', Some a) →
  tidy st' ∧ rows st' = rows st ∧ cols st' = cols st
  ∧ a.2 = 0 ∧ in_bounds st' a.1 ∧ a.1 ∉ moves_made st'
  ∧ (a.1 ∈ safes st' ∨ a.1 ∉ mines st').
Proof.
  intros Ht Hrows Hcols. unfold HybridAgent.get_action.
  destruct (sync fuel obs (grid st) st) as [st1|] eqn:Hsync; [|done]. cbn.
  destruct (tidy_sync fuel obs (grid st) st st1 Ht) as (Ht1 & Hr & Hc);
    [by intros c Hc%elem_of_grid | done |].
  pose proof (safe_move_spec st1) as Hsafe.
  destruct (safe_move st1) as [a0|].
  - intros [= <- <-]. destruct Hsafe as (H2 & Hs & Hm).
    destruct a0 as [[r c] t]. cbn in *.
    split_and!; [done | done | done | done | | done | by left].
    apply (tidy_bounds st1 Ht1). set_solver.
  - destruct (HybridAgent.guess fuel rnd _ st1) as [r|] eqn:Hg; [|done]. cbn.
    intros [= <- ->].
    apply guess_source in Hg as [(c & -> & Hlive)|Hg].
    + destruct c as [r c]. cbn.
      split_and!; [done | done | done | done | | |].
      * apply (tidy_bounds st1 Ht1). set_solver.
      * apply elem_of_live in Hlive as (s & Hs & Hcs).
        destruct (tidy_fresh st1 Ht1 s Hs) as [Hfs _].
        pose proof (tidy_moves st1 Ht1). set_solver.
      * right. apply elem_of_live in Hlive as (s & Hs & Hcs).
        destruct (tidy_fresh st1 Ht1 s Hs) as [_ Hfm]. set_solver.
    + apply smart_guess_source in Hg as (H2 & [Hf1 Hf2] & Hb); [|lia ..].
      split_and!; [done | done | done | done | done | done | by right].
    + intros k st0 comp c. apply solve_monte_carlo_elem.
Qed.

Lemma hybrid_get_action_sound_covered_board :
  (tidy (init 1 3) ∧ 0 < rows (init 1 3) ∧ 0 < cols (init 1 3))
  ∧ ∃ st' a,
      HybridAgent.get_action 5 Examples.zeros Examples.covered (init 1 3)
      = Some (st', Some a)
      ∧ tidy st' ∧ in_bounds st' a.1 ∧ a.1 ∉ moves_made st'.
Proof.
  assert (tidy (init 1 3)) as Ht by apply tidy_init.
  split; [split_and!; [done | done | done]|].
  destruct (HybridAgent.get_action 5 Examples.zeros Examples.covered (init 1 3))
    as [[st' [a|]]|] eqn:Hact; [|by vm_compute in Hact ..].
  exists st', a. split; [done|].
  destruct (hybrid_get_action_sound 5 Examples.zeros Examples.covered
              (init 1 3) st' a Ht ltac:(done) ltac:(done) Hact)
    as (H1 & _ & _ & _ & H2 & H3 & _).
  done.
Defined.

(** * A whole call of [get_action] during a game *)

Section InPlay.
Variables (M : gset Cell) (height width : Z).
Implicit Types (st : state) (c cell : Cell) (obs : Observation)
               (l : list Cell).

Lemma reachable_infer_knowledge (fuel : nat) st st' :
  reachable M height width st → infer_knowledge fuel st = Some st' →
  reachable M height width st'.
Proof.
  revert st. induction fuel as [|fuel IH]; intros st Hr; [done|].
  rewrite infer_knowledge_S. destruct (infer_pass st).2.
  - apply IH. by apply reach_pass.
  - intros [= <-]. by apply reach_pass.
Qed.

Lemma moves_infer_knowledge (fuel : nat) st st' :
  infer_knowledge fuel st = Some st' → moves_made st' = moves_made st.
Proof.
  revert st. induction fuel as [|fuel IH]; intros st; [done|].
  rewrite infer_knowledge_S.
  destruct (fixed_infer_pass st) as (_ & _ & Hm).
  destruct (infer_pass st).2.
  - intros H. apply IH in H. congruence.
  - by intros [= <-].
Qed.

(** The sentences of a game only mention cells of the board. *)
Lemma reachable_live st c :
  reachable M height width st → c ∈ live st →
  0 <= c.1 < height ∧ 0 <= c.2 < width.
Proof.
  intros Hr. revert c. induction Hr as [|st cell Hr IH Hc|st Hr IH]; intros c.
  - rewrite elem_of_live. intros (s & Hs & _). by apply elem_of_nil in Hs.
  - destruct (reachable_dims _ _ _ _ Hr) as [Hrows Hcols].
    rewrite elem_of_live, knowledge_ingest.
    intros (s & [Hs|Hs]%elem_of_app & Hcs).
    + apply IH. apply (live_mark_safe cell st), elem_of_live. eauto.
    + case_decide; [by apply elem_of_nil in Hs|].
      apply list_elem_of_singleton in Hs as ->. simpl in Hcs.
      assert (c ∈ neighbours st cell) as Hn by set_solver.
      apply elem_of_neighbours in Hn. rewrite <-Hrows, <-Hcols. tauto.
  - intros Hc. apply IH.
    by apply (live_apply_marks st), (live_infer_pass st).
Qed.

Lemma size_list_to_set_le l :
  (size (list_to_set l : gset Cell) ≤ length l)%nat.
Proof.
  induction l as [|a l IH].
  { change (list_to_set [] : gset Cell) with (∅ : gset Cell).
    by rewrite size_empty. }
  change (list_to_set (a :: l) : gset Cell)
    with ({[a]} ∪ list_to_set l : gset Cell).
  cbn [length].
  pose proof (size_union_alt ({[a]} : gset Cell) (list_to_set l)) as Hu.
  rewrite size_singleton in Hu.
  assert (size ((list_to_set l : gset Cell) ∖ {[a]})
          ≤ size (list_to_set l : gset Cell))%nat
    by (apply subseteq_size; set_solver).
  lia.
Qed.

Lemma length_range (a b : Z) : length (range a b) = Z.to_nat (b - a).
Proof. unfold range. apply length_seqZ. Qed.

Lemma length_grid st :
  length (grid st) = (Z.to_nat (rows st) * Z.to_nat (cols st))%nat.
Proof.
  unfold grid.
  assert (∀ lr : list Z,
            length (lr ≫= λ r, range 0 (cols st) ≫= λ k : Z, [(r, k)] : list Cell)
            = (length lr * Z.to_nat (cols st))%nat) as Hgen.
  { induction lr as [|r lr IH]; [done|].
    rewrite bind_cons, length_app, IH. cbn [length].
    assert (length (range 0 (cols st) ≫= λ k : Z, [(r, k)] : list Cell)
            = Z.to_nat (cols st)) as ->; [|lia].
    transitivity (length (range 0 (cols st))).
    - generalize (range 0 (cols st)). intros lc.
      induction lc as [|k lc IHc]; [done|].
      rewrite bind_cons, length_app, IHc. done.
    - rewrite length_range. f_equal. lia. }
  rewrite Hgen, length_range. do 2 f_equal. lia.
Qed.

(** The bound on the iterations of the loop, for the whole game. *)
Lemma measure_in_play st :
  reachable M height width st →
  (measure st ≤ 2 ^ (Z.to_nat height * Z.to_nat width + 1))%nat.
Proof.
  intros Hr. destruct (reachable_dims _ _ _ _ Hr) as [Hrows Hcols].
  unfold measure.
  assert (size (live st) ≤ Z.to_nat height * Z.to_nat width)%nat as Hle.
  { rewrite <-Hrows, <-Hcols, <-length_grid.
    transitivity (size (list_to_set (grid st) : gset Cell));
      [|apply size_list_to_set_le].
    apply subseteq_size. intros c Hc.
    apply elem_of_list_to_set, (elem_of_grid st c).
    unfold in_bounds. rewrite Hrows, Hcols. by apply (reachable_live st). }
  assert (2 ^ (size (live st) + 1)
          ≤ 2 ^ (Z.to_nat height * Z.to_nat width + 1))%nat
    by (apply Nat.pow_le_mono_r; lia).
  lia.
Qed.

(** The first loop of [get_action] on a truthful observation. *)
Lemma sync_in_play (fuel : nat) obs l st :
  reachable M height width st → truthful M height width obs →
  (2 ^ (Z.to_nat height * Z.to_nat width + 1) < fuel)%nat →
  ∃ st', sync fuel obs l st = Some st' ∧ reachable M height width st'
         ∧ moves_made st ⊆ moves_made st'
         ∧ ∀ c, c ∈ l → obs c >= 0 → c ∈ moves_made st'.
Proof.
  intros Hr Hobs Hfuel. revert st Hr.
  induction l as [|cell l IH]; intros st Hr; cbn [sync].
  - exists st. split_and!; [done | done | done |].
    by intros c Hc%elem_of_nil.
  - destruct (decide (obs cell >= 0)) as [Hpos|Hneg];
      [destruct (decide (cell ∉ moves_made st)) as [Hnew|Hold]|]; cbn.
    + destruct (Hobs cell Hpos) as [HcM Hnum].
      destruct (reachable_dims _ _ _ _ Hr) as [Hrows Hcols].
      assert (reachable M height width (ingest cell (obs cell) st)) as Hr1.
      { rewrite Hnum. by apply reach_ingest. }
      unfold add_knowledge.
      destruct (infer_knowledge_enough M fuel (ingest cell (obs cell) st))
        as (st1 & Hst1 & _ & _).
      { by eapply reachable_agrees. }
      { pose proof (measure_in_play _ Hr1). lia. }
      rewrite Hst1. cbn.
      pose proof (reachable_infer_knowledge _ _ _ Hr1 Hst1) as Hr2.
      destruct (IH st1 Hr2) as (st' & -> & Hr' & Hmm & Hall).
      assert (cell ∈ moves_made st1) as Hcell.
      { assert (moves_made st1 = moves_made (ingest cell (obs cell) st))
          as ->.
        { by eapply moves_infer_knowledge. }
        destruct (ingest_fields cell (obs cell) st) as (_ & _ & -> & _).
        set_solver. }
      exists st'. split_and!; [done | done | |].
      * assert (moves_made st ⊆ moves_made st1); [|set_solver].
        assert (moves_made st1 = moves_made (ingest cell (obs cell) st))
          as ->.
        { by eapply moves_infer_knowledge. }
        destruct (ingest_fields cell (obs cell) st) as (_ & _ & -> & _).
        set_solver.
      * intros c [->|Hc]%elem_of_cons Hc0; [set_solver | by apply Hall].
    + destruct (IH st Hr) as (st' & -> & Hr' & Hmm & Hall).
      exists st'. split_and!; [done | done | done |].
      intros c [->|Hc]%elem_of_cons Hc0; [|by apply Hall].
      apply Hmm. by apply dec_stable.
    + destruct (IH st Hr) as (st' & -> & Hr' & Hmm & Hall).
      exists st'. split_and!; [done | done | done |].
      intros c [->|Hc]%elem_of_cons Hc0; [done | by apply Hall].
Qed.

(** With fuel for every cell of the fringe the traversal returns. *)
Lemma get_components_returns (fuel : nat) (K : list Sentence.t) :
  (size (HybridAgent.fringe_cells K) ≤ fuel)%nat →
  is_Some (HybridAgent.get_components fuel K
             (elements (HybridAgent.fringe_cells K))).
Proof.
  intros Hfuel. unfold HybridAgent.get_components.
  set (fringe := elements (HybridAgent.fringe_cells K)).
  destruct (build_neighbors_spec K fringe) as (Hdom & Hsym & Hclosed & _).
  assert (list_to_set fringe = HybridAgent.fringe_cells K) as Hfr
    by apply list_to_set_elements_L.
  destruct (collect_spec _ Hsym Hclosed fuel fringe ∅ [])
    as (comps & Hcol & _).
  - by rewrite Hdom, Hfr.
  - intros c Hc. rewrite Hdom. by apply elem_of_list_to_set.
  - done.
  - set_solver.
  - intros c n Hc. set_solver.
  - intros i j C1 C2 _ H. by rewrite lookup_nil in H.
  - constructor.
  - by exists comps.
Qed.

End InPlay.

(** X13. During a game against a board with mines [M], with fuel above
    [2 ^ (height * width + 1)], a call of [get_action] of the CSP agent and
    of the hybrid agent on a truthful observation returns, leaves the agent
    in a state of the game, and has taken in every number the observation
    shows. *)
Theorem get_action_in_play (M : gset Cell) (height width : Z)
    (fuel seed : nat) (rnd : HybridAgent.Random) (obs : Observation)
    (st : state) :
  reachable M height width st → truthful M height width obs →
  (2 ^ (Z.to_nat height * Z.to_nat width + 1) < fuel)%nat →
  (∃ st' r, CSPAgent.get_action fuel seed obs st = Some (st', r)
            ∧ reachable M height width st'
            ∧ ∀ c, in_bounds st c → obs c >= 0 → c ∈ moves_made st')
  ∧ (∃ st' r, HybridAgent.get_action fuel rnd obs st = Some (st', r)
              ∧ reachable M height width st'
              ∧ ∀ c, in_bounds st c → obs c >= 0 → c ∈ moves_made st').
Proof.
  intros Hr Hobs Hfuel.
  destruct (sync_in_play M height width fuel obs (grid st) st Hr Hobs Hfuel)
    as (st1 & Hsync & Hr1 & _ & Hall).
  assert (∀ c, in_bounds st c → obs c >= 0 → c ∈ moves_made st1) as Hall'.
  { intros c Hc%elem_of_grid. by apply Hall. }
  split.
  - unfold CSPAgent.get_action. rewrite Hsync. cbn.
    destruct (safe_move st1); [by eauto|].
    destruct (possible_moves st1); by eauto.
  - unfold HybridAgent.get_action. rewrite Hsync. cbn.
    destruct (safe_move st1); [by eauto|].
    assert (is_Some (HybridAgent.guess fuel rnd
                       (λ k, HybridAgent.solve_component_monte_carlo
                               (HybridAgent.coin rnd k)) st1)) as [r Hg].
    { unfold HybridAgent.guess.
      destruct (elements (HybridAgent.fringe_cells (knowledge st1)))
        as [|c0 l0] eqn:Hfr; [done|]. rewrite <-Hfr.
      destruct (get_components_returns fuel (knowledge st1)) as [comps ->].
      - pose proof (measure_in_play M height width st1 Hr1) as Hm.
        unfold measure in Hm. fold (live st1).
        pose proof (shapes_bound st1).
        pose proof (Nat.pow_gt_lin_r 2 (size (live st1))) as Hlin.
        rewrite Nat.add_1_r, Nat.pow_succ_r' in Hm.
        lia.
      - cbn. by destruct (foldl _ _ _).1. }
    rewrite Hg. cbn. eauto.
Qed.

Lemma get_action_in_play_corner :
  (reachable Examples.corner_mine 2 2 (init 2 2)
   ∧ truthful Examples.corner_mine 2 2 Boards.corner_seen
   ∧ (2 ^ (Z.to_nat 2 * Z.to_nat 2 + 1) < 33)%nat)
  ∧ ∃ st' r, CSPAgent.get_action 33 0 Boards.corner_seen (init 2 2)
             = Some (st', r)
             ∧ reachable Examples.corner_mine 2 2 st'
             ∧ (0, 1) ∈ moves_made st'.
Proof.
  assert (truthful Examples.corner_mine 2 2 Boards.corner_seen) as Hobs.
  { intros cell. unfold Boards.corner_seen.
    destruct (decide (cell = (0, 1))) as [->|_]; [|lia].
    intros _. split; by_evaluation. }
  assert (2 ^ (Z.to_nat 2 * Z.to_nat 2 + 1) < 33)%nat as Hfuel
    by (vm_compute; lia).
  split; [split_and!; [apply reach_init | done | done]|].
  destruct (get_action_in_play Examples.corner_mine 2 2 33 0 Examples.zeros
              Boards.corner_seen (init 2 2) (reach_init _ _ _) Hobs Hfuel)
    as [(st' & r & Hact & Hr & Hall) _].
  exists st', r. split_and!; [done | done |].
  apply Hall; [|done]. unfold in_bounds. cbn. lia.
Defined.

(** * The environment: placing the mines *)

Section PlaceMines.
Implicit Types (st : Env.state) (g : gmap Cell Z) (c k cell safe : Cell)
               (l : list Cell) (M : gset Cell).

Lemma grid_at_insert g c v k :
  Env.grid_at (<[c := v]> g) k = if decide (c = k) then v else Env.grid_at g k.
Proof.
  unfold Env.grid_at. destruct (decide (c = k)) as [->|Hne].
  - by rewrite lookup_insert_eq.
  - by rewrite lookup_insert_ne.
Qed.

Lemma elem_of_mine_cells st c :
  c ∈ Env.mine_cells st ↔ Env.grid_at (Env.grid st) c = -1.
Proof.
  unfold Env.mine_cells, Env.grid_at. rewrite elem_of_dom. split.
  - intros [v [Hv Hp]%map_lookup_filter_Some]. simpl in Hp.
    rewrite Hv. simpl. done.
  - destruct (Env.grid st !! c) as [v|] eqn:Hv; simpl; [|done].
    intros ->. exists (-1). by apply map_lookup_filter_Some.
Qed.

Lemma elem_of_cells st c : c ∈ Env.cells st ↔ Env.inside st c.
Proof.
  unfold Env.cells, Env.inside, range. destruct c as [r c].
  rewrite list_elem_of_bind. split.
  - intros (r' & (c' & Hc & ?%elem_of_seqZ)%list_elem_of_bind & ?%elem_of_seqZ).
    apply list_elem_of_singleton in Hc as [= -> ->]. simpl. lia.
  - simpl. intros [? ?]. exists r. split; [|apply elem_of_seqZ; lia].
    apply list_elem_of_bind. exists c.
    split; [by left | apply elem_of_seqZ; lia].
Qed.

Lemma NoDup_cells st : NoDup (Env.cells st).
Proof.
  unfold Env.cells, range. apply NoDup_bind; [| |apply NoDup_seqZ].
  - intros r1 r2 [r c] _ _ (c1 & H1 & _)%list_elem_of_bind
           (c2 & H2 & _)%list_elem_of_bind.
    apply list_elem_of_singleton in H1, H2. congruence.
  - intros r _. apply NoDup_bind; [| |apply NoDup_seqZ].
    + intros c1 c2 [r' c] _ _ H1%list_elem_of_singleton
             H2%list_elem_of_singleton. congruence.
    + intros c _. apply NoDup_singleton.
Qed.

(** [random.sample]: [k] distinct items of the population. *)
Lemma sample_spec (seed : nat) l (k : Z) (picked : list Cell) :
  NoDup l → Env.sample seed l k = Some picked →
  NoDup picked ∧ (∀ c, c ∈ picked → c ∈ l)
  ∧ length picked = Z.to_nat k.
Proof.
  intros Hnd. unfold Env.sample. case_decide as Hk; [|done].
  intros [= <-]. pose proof (shuffle_Permutation seed l) as Hperm.
  split_and!.
  - eapply sublist_NoDup; [|apply sublist_take]. by rewrite <-Hperm.
  - intros c Hc%subseteq_take. by rewrite Hperm.
  - rewrite length_take_le; [done|]. rewrite <-Hperm. lia.
Qed.

Lemma grid_at_mines g l k :
  Env.grid_at (foldl (λ g rc, <[rc := -1]> g) g l) k
  = if decide (k ∈ l) then -1 else Env.grid_at g k.
Proof.
  revert g. induction l as [|a l IH]; intros g; cbn [foldl].
  - rewrite decide_False; [done|]. apply not_elem_of_nil.
  - rewrite IH. destruct (decide (k ∈ l)) as [Hin|Hin].
    + rewrite decide_True; [done | by right].
    + rewrite grid_at_insert. destruct (decide (a = k)) as [->|Hne].
      * rewrite decide_True; [done | by left].
      * rewrite decide_False; [done|].
        intros [->|?]%elem_of_cons; done.
Qed.

(** Read off a grid that holds -1 exactly on [M], the count of step 4 is
    the board's number. *)
Lemma count_mines_number st g M cell :
  (∀ c, Env.grid_at g c = -1 ↔ c ∈ M) →
  Env.count_mines st g cell
  = MinesweeperEnv.number (Env.height st) (Env.width st) M cell.
Proof.
  intros HM. unfold Env.count_mines, MinesweeperEnv.number. f_equal.
  apply list_bind_ext; [|done]. intros dr.
  apply list_bind_ext; [|done]. intros dc. cbn zeta.
  case_decide; [|done].
  destruct (decide (Env.grid_at g (cell.1 + dr, cell.2 + dc) = -1))
    as [H1|H1].
  - rewrite decide_True; [done | by apply HM].
  - rewrite decide_False; [done|]. by rewrite <-HM.
Qed.

Lemma number_nonneg (h w : Z) M cell :
  0 <= MinesweeperEnv.number h w M cell.
Proof.
  unfold MinesweeperEnv.number.
  assert (∀ l : list Z, Forall (λ x, 0 <= x) l → 0 <= foldr Z.add 0 l)
    as Hsum.
  { induction 1; simpl; lia. }
  apply Hsum. apply Forall_forall. intros x Hx.
  apply list_elem_of_bind in Hx as (dr & Hx & _).
  apply list_elem_of_bind in Hx as (dc & Hx & _). cbn zeta in Hx.
  repeat case_decide; try by apply elem_of_nil in Hx.
  apply list_elem_of_singleton in Hx. lia.
Qed.

(** Step 4 writes into the grid it reads from, and still leaves the
    mines where they are and the right number everywhere else. *)
Lemma write_numbers st M l g :
  (∀ c, Env.grid_at g c = -1 ↔ c ∈ M) →
  let g' := foldl (Env.write_number st) g l in
  (∀ c, Env.grid_at g' c = -1 ↔ c ∈ M)
  ∧ ∀ c, c ∉ M →
         c ∈ l ∨ Env.grid_at g c
                 = MinesweeperEnv.number (Env.height st) (Env.width st) M c →
         Env.grid_at g' c
         = MinesweeperEnv.number (Env.height st) (Env.width st) M c.
Proof.
  revert g. induction l as [|a l IH]; intros g HM; cbn [foldl].
  - split; [done|]. intros c _ [Hc|Hc]; [by apply elem_of_nil in Hc | done].
  - set (g1 := Env.write_number st g a).
    assert ((∀ c, Env.grid_at g1 c = -1 ↔ c ∈ M)
            ∧ (a ∉ M → Env.grid_at g1 a
                       = MinesweeperEnv.number (Env.height st)
                           (Env.width st) M a)
            ∧ ∀ c, c ≠ a → Env.grid_at g1 c = Env.grid_at g c)
      as (HM1 & Ha & Hother).
    { unfold g1, Env.write_number.
      destruct (decide (Env.grid_at g a = -1)) as [Hm|Hm].
      - split_and!; [done | | done]. intros Hn. by apply HM in Hm.
      - rewrite (count_mines_number st g M a HM).
        pose proof (number_nonneg (Env.height st) (Env.width st) M a).
        split_and!.
        + intros c. rewrite grid_at_insert.
          destruct (decide (a = c)) as [<-|Hne]; [|done].
          rewrite <-HM. split; [lia | done].
        + intros _. rewrite grid_at_insert. by rewrite decide_True.
        + intros c Hne. rewrite grid_at_insert. by rewrite decide_False. }
    destruct (IH g1 HM1) as [HM' Hnum]. split; [done|].
    intros c Hc Hin. apply Hnum; [done|].
    destruct (decide (c = a)) as [->|Hne]; [right; by apply Ha|].
    destruct Hin as [[->|Hin]%elem_of_cons|Hg]; [done | by left |].
    right. by rewrite Hother.
Qed.

(** What [_place_mines] leaves on a grid without mines. *)
Lemma place_mines_spec (seed : nat) safe st st' :
  (∀ cell, Env.grid_at (Env.grid st) cell ≠ -1) →
  Env.place_mines seed safe st = Some st' →
  Z.of_nat (size (Env.mine_cells st')) = Env.mines st
  ∧ safe ∉ Env.mine_cells st'
  ∧ (∀ c, c ∈ Env.mine_cells st' → Env.inside st c)
  ∧ (∀ c, Env.inside st c → c ∉ Env.mine_cells st' →
          Env.grid_at (Env.grid st') c
          = MinesweeperEnv.number (Env.height st) (Env.width st)
              (Env.mine_cells st') c)
  ∧ Env.mines_placed st' = true
  ∧ Env.visible st' = Env.visible st ∧ Env.flags st' = Env.flags st
  ∧ Env.width st' = Env.width st ∧ Env.height st' = Env.height st
  ∧ Env.mines st' = Env.mines st ∧ Env.exploded st' = Env.exploded st.
Proof.
  intros Hclean Hplace. unfold Env.place_mines in Hplace.
  destruct (Env.sample seed (Env.coords st safe) (Env.mines st))
    as [mine_locs|] eqn:Hsample; [|done]. cbn in Hplace.
  injection Hplace as <-.
  assert (NoDup (Env.coords st safe)) as Hnd
    by (apply NoDup_filter, NoDup_cells).
  destruct (sample_spec seed _ _ _ Hnd Hsample) as (Hnd' & Hsub & Hlen).
  assert (0 <= Env.mines st) as Hpos.
  { unfold Env.sample in Hsample. case_decide; [lia | done]. }
  set (M := list_to_set mine_locs : gset Cell).
  set (g1 := foldl (λ g rc, <[rc := -1]> g) (Env.grid st) mine_locs).
  assert (∀ c, Env.grid_at g1 c = -1 ↔ c ∈ M) as HM1.
  { intros c. unfold g1, M. rewrite grid_at_mines, elem_of_list_to_set.
    destruct (decide (c ∈ mine_locs)); [done|].
    split; [by intros ?%Hclean | done]. }
  destruct (write_numbers st M (Env.cells st) g1 HM1) as [HM2 Hnum].
  set (st' := Env.mk _ _ _ _ _ _ _ _).
  assert (Env.mine_cells st' = M) as ->.
  { apply set_eq. intros c. rewrite elem_of_mine_cells. apply HM2. }
  split_and!; try done.
  + unfold M. rewrite size_list_to_set by done. lia.
  + unfold M. rewrite elem_of_list_to_set. intros Hin%Hsub.
    unfold Env.coords in Hin. by apply list_elem_of_filter in Hin as [? _].
  + intros c Hc. unfold M in Hc. apply elem_of_list_to_set, Hsub in Hc.
    unfold Env.coords in Hc. apply list_elem_of_filter in Hc as [_ Hc].
    by apply elem_of_cells.
  + intros c Hc HcM. apply Hnum; [done|]. left. by apply elem_of_cells.
Qed.

End PlaceMines.

(** X14. On a grid without mines, as [reset] leaves it, [_place_mines]
    raises exactly when [self.mines] is negative or exceeds the number of
    cells other than the clicked one; otherwise the board it leaves holds
    exactly [self.mines] mines, all on the board and none on the clicked
    cell, and every other cell of the board holds the number of mines
    among its neighbours; nothing is revealed or flagged by it. *)
Theorem place_mines_board (seed : nat) (safe : Cell) (st : Env.state) :
  (∀ cell, Env.grid_at (Env.grid st) cell ≠ -1) →
  (is_Some (Env.place_mines seed safe st)
   ↔ 0 <= Env.mines st <= Z.of_nat (length (Env.coords st safe)))
  ∧ ∀ st', Env.place_mines seed safe st = Some st' →
      Z.of_nat (size (Env.mine_cells st')) = Env.mines st
      ∧ safe ∉ Env.mine_cells st'
      ∧ (∀ c, c ∈ Env.mine_cells st' → Env.inside st c)
      ∧ (∀ c, Env.inside st c → c ∉ Env.mine_cells st' →
              Env.grid_at (Env.grid st') c
              = MinesweeperEnv.number (Env.height st) (Env.width st)
                  (Env.mine_cells st') c)
      ∧ Env.mines_placed st' = true
      ∧ Env.visible st' = Env.visible st ∧ Env.flags st' = Env.flags st
      ∧ Env.width st' = Env.width st ∧ Env.height st' = Env.height st
      ∧ Env.mines st' = Env.mines st.
Proof.
  intros Hclean. split.
  - unfold Env.place_mines, Env.sample.
    destruct (decide (0 <= Env.mines st
                      <= Z.of_nat (length (Env.coords st safe)))) as [Hk|Hk];
      cbn.
    + split; [done | by eauto].
    + split; [by intros [? ?] | done].
  - intros st' Hplace.
    destruct (place_mines_spec seed safe st st' Hclean Hplace)
      as (H1 & H2 & H3 & H4 & H5 & H6 & H7 & H8 & H9 & H10 & _).
    done.
Qed.

Lemma place_mines_board_two_by_two :
  (∀ cell, Env.grid_at (Env.grid (Env.fresh 2 2 1)) cell ≠ -1)
  ∧ ∃ st', Env.place_mines 0 (0, 0) (Env.fresh 2 2 1) = Some st'
           ∧ Z.of_nat (size (Env.mine_cells st')) = 1
           ∧ (0, 0) ∉ Env.mine_cells st'.
Proof.
  assert (∀ cell, Env.grid_at (Env.grid (Env.fresh 2 2 1)) cell ≠ -1) as Hclean.
  { intros cell. unfold Env.grid_at. cbn. by rewrite lookup_empty. }
  split; [done|].
  destruct (place_mines_board 0 (0, 0) (Env.fresh 2 2 1) Hclean) as [Hsome Hall].
  destruct (proj2 Hsome) as [st' Hst']; [vm_compute; split; discriminate|].
  exists st'. split; [done|].
  destruct (Hall st' Hst') as (H1 & H2 & _). done.
Defined.

(** * The environment: the flood fill *)

Section FloodFill.
Variable st : Env.state.
Implicit Types (c n p curr start : Cell) (l stack new : list Cell)
               (vis vtd V N P : gset Cell).

Lemma offsets_eq :
  Env.offsets
  = [(-1, -1); (-1, 0); (-1, 1); (0, -1); (0, 1); (1, -1); (1, 0); (1, 1)].
Proof. reflexivity. Qed.

Lemma fill_neighbor_fold curr (acc : list Cell * gset Cell * gset Cell) :
  foldl (Env.fill_neighbor st curr) acc Env.offsets
  = foldl (Env.reveal_neighbor st) acc
      ((λ d : Z * Z, (curr.1 + d.1, curr.2 + d.2)) <$> Env.offsets).
Proof. by rewrite foldl_fmap. Qed.

Lemma elem_of_around curr n :
  n ∈ (λ d : Z * Z, (curr.1 + d.1, curr.2 + d.2)) <$> Env.offsets
  ↔ Env.around curr n.
Proof.
  unfold Env.around. destruct curr as [r c], n as [r' c'].
  rewrite offsets_eq. cbn [fmap list_fmap fst snd].
  rewrite !elem_of_cons, elem_of_nil. split.
  - intros H.
    repeat (destruct H as [H|H];
            [injection H as -> ->; split; [intros [=]; lia | lia]|]).
    done.
  - intros [Hne [H1 H2]].
    assert (r' = r + -1 ∨ r' = r + 0 ∨ r' = r + 1) as Hr by lia.
    assert (c' = c + -1 ∨ c' = c + 0 ∨ c' = c + 1) as Hc by lia.
    destruct Hr as [-> | [-> | ->]], Hc as [-> | [-> | ->]]; try tauto.
    exfalso. apply Hne. f_equal; lia.
Qed.

Lemma NoDup_around curr :
  NoDup ((λ d : Z * Z, (curr.1 + d.1, curr.2 + d.2)) <$> Env.offsets).
Proof.
  apply NoDup_fmap_2.
  - intros [a b] [a' b'] [=]. f_equal; lia.
  - rewrite offsets_eq. refine (bool_decide_unpack _ _). vm_compute. exact I.
Qed.

(** The two inner loops: the unflagged cells of the list that are on
    the board and new are revealed and visited, and those showing 0 are
    pushed. *)
Lemma reveal_fold l stack vis vtd :
  NoDup l →
  ∃ new N,
    foldl (Env.reveal_neighbor st) (stack, vis, vtd) l
    = (new ++ stack, N ∪ vis, N ∪ vtd)
    ∧ (∀ x, x ∈ N ↔ x ∈ l ∧ Env.inside st x ∧ x ∉ vis
                     ∧ x ∉ Env.flags st ∧ x ∉ vtd)
    ∧ NoDup new
    ∧ ∀ x, x ∈ new ↔ x ∈ N ∧ Env.grid_at (Env.grid st) x = 0.
Proof.
  revert stack vis vtd.
  induction l as [|a l IH]; intros stack vis vtd Hnd.
  - exists [], ∅. cbn [foldl app]. split_and!.
    + f_equal; [f_equal|]; set_solver.
    + intros x. rewrite elem_of_nil. set_solver.
    + constructor.
    + intros x. rewrite elem_of_nil. set_solver.
  - apply NoDup_cons in Hnd as [Ha Hnd]. cbn [foldl].
    unfold Env.reveal_neighbor at 2. cbn [fst snd].
    destruct (decide (0 <= a.1 < Env.height st ∧ 0 <= a.2 < Env.width st))
      as [Hin|Hin];
      [destruct (decide (a ∉ vis ∧ a ∉ Env.flags st ∧ a ∉ vtd))
         as [(Hv & Hf & Ht)|Hok]|].
    + destruct (decide (Env.grid_at (Env.grid st) a = 0)) as [Hz|Hz].
      * destruct (IH (a :: stack) ({[a]} ∪ vis) ({[a]} ∪ vtd) Hnd)
          as (new & N & -> & HN & Hnew & Hmem).
        exists (new ++ [a]), (N ∪ {[a]}). split_and!.
        -- f_equal; [f_equal|]; [by rewrite <-app_assoc | set_solver ..].
        -- intros x. rewrite elem_of_union, HN, elem_of_cons,
             elem_of_singleton. unfold Env.inside.
           destruct (decide (x = a)) as [->|Hne]; set_solver.
        -- apply NoDup_app. split_and!; [done | | apply NoDup_singleton].
           intros x Hx ->%list_elem_of_singleton.
           apply Hmem in Hx as [Hx _]. apply HN in Hx. set_solver.
        -- intros x. rewrite elem_of_app, Hmem, list_elem_of_singleton,
             elem_of_union, elem_of_singleton.
           destruct (decide (x = a)) as [->|Hne]; set_solver.
      * destruct (IH stack ({[a]} ∪ vis) ({[a]} ∪ vtd) Hnd)
          as (new & N & -> & HN & Hnew & Hmem).
        exists new, (N ∪ {[a]}). split_and!.
        -- f_equal; [f_equal|]; set_solver.
        -- intros x. rewrite elem_of_union, HN, elem_of_cons,
             elem_of_singleton. unfold Env.inside.
           destruct (decide (x = a)) as [->|Hne]; set_solver.
        -- done.
        -- intros x. rewrite Hmem, elem_of_union, elem_of_singleton.
           destruct (decide (x = a)) as [->|Hne]; [|set_solver].
           split; [by intros [_ ?] | by intros [_ ?]].
    + destruct (IH stack vis vtd Hnd) as (new & N & -> & HN & Hnew & Hmem).
      exists new, N. split_and!; [done | | done | done].
      intros x. rewrite HN, elem_of_cons.
      destruct (decide (x = a)) as [->|Hne]; [|set_solver].
      split; [by intros [? _] | intros (_ & _ & ? & ? & ?); tauto].
    + destruct (IH stack vis vtd Hnd) as (new & N & -> & HN & Hnew & Hmem).
      exists new, N. split_and!; [done | | done | done].
      intros x. rewrite HN, elem_of_cons.
      destruct (decide (x = a)) as [->|Hne]; [|set_solver].
      split; [by intros [? _] | intros (_ & ? & _); tauto].
Qed.

Section Loop.
Variables (V0 : gset Cell) (start : Cell).

(** The loop of [_flood_fill]; [P] holds the cells popped so far. *)
Lemma fill_spec (fuel : nat) stack vis vtd P :
  NoDup stack →
  list_to_set stack ## P →
  P ∪ list_to_set stack ⊆ vtd →
  (∀ c, c ∈ vtd → Env.inside st c) →
  start ∈ P ∨ stack = [start] →
  V0 ∪ (vtd ∖ {[start]}) ∪ P ⊆ vis →
  vis ⊆ V0 ∪ vtd →
  (∀ c, c ∈ vtd → c ≠ start →
        c ∉ V0 ∧ c ∉ Env.flags st ∧ ∃ p, p ∈ P ∧ Env.around p c) →
  (∀ c, c ∈ vtd → c = start ∨ Env.grid_at (Env.grid st) c = 0 →
        c ∈ P ∨ c ∈ stack) →
  (∀ c, c ∈ P ∨ c ∈ stack →
        c = start ∨ Env.grid_at (Env.grid st) c = 0) →
  (∀ p n, p ∈ P → Env.around p n → Env.inside st n →
          n ∉ Env.flags st → n ∈ vis) →
  (size ((list_to_set (Env.cells st) : gset Cell) ∖ vtd) + length stack
   ≤ fuel)%nat →
  ∃ vis' vtd' P',
    Env.fill fuel st stack vis vtd = Some vis'
    ∧ vis ⊆ vis' ∧ start ∈ P' ∧ P' ⊆ vis' ∧ P' ⊆ vtd'
    ∧ vis' ⊆ V0 ∪ vtd'
    ∧ (∀ c, c ∈ vtd' → Env.inside st c)
    ∧ (∀ c, c ∈ vtd' → c ≠ start →
            c ∉ V0 ∧ c ∉ Env.flags st ∧ ∃ p, p ∈ P' ∧ Env.around p c)
    ∧ (∀ c, c ∈ vtd' → c = start ∨ Env.grid_at (Env.grid st) c = 0 →
            c ∈ P')
    ∧ (∀ c, c ∈ P' → c = start ∨ Env.grid_at (Env.grid st) c = 0)
    ∧ (∀ p n, p ∈ P' → Env.around p n → Env.inside st n →
              n ∉ Env.flags st → n ∈ vis').
Proof.
  revert stack vis vtd P.
  induction fuel as [|fuel IH];
    intros stack vis vtd P Hnd Hdisj Hsub Hin Hstart Ha Hb Hsound Hzero
           Helem Hclosed Hfuel.
  - destruct stack as [|curr stack]; [|cbn [length] in Hfuel; lia].
    exists vis, vtd, P. cbn [Env.fill].
    destruct Hstart as [Hstart|[=]].
    assert (P ⊆ vis) as HPvis by (clear -Ha; set_solver).
    assert (P ⊆ vtd) as HPvtd by (clear -Hsub; set_solver).
    split_and!; try done.
    + intros c Hc Hz. destruct (Hzero c Hc Hz) as [?|Hn]; [done|].
      by apply elem_of_nil in Hn.
    + intros c Hc. apply Helem. by left.
  - destruct stack as [|curr stack].
    { exists vis, vtd, P. cbn [Env.fill].
      destruct Hstart as [Hstart|[=]].
      assert (P ⊆ vis) as HPvis by (clear -Ha; set_solver).
      assert (P ⊆ vtd) as HPvtd by (clear -Hsub; set_solver).
      split_and!; try done.
      + intros c Hc Hz. destruct (Hzero c Hc Hz) as [?|Hn]; [done|].
        by apply elem_of_nil in Hn.
      + intros c Hc. apply Helem. by left. }
    apply NoDup_cons in Hnd as [Hcurr Hnd].
    cbn [Env.fill]. rewrite fill_neighbor_fold.
    destruct (reveal_fold _ stack ({[curr]} ∪ vis) vtd (NoDup_around curr))
      as (new & N & -> & HN & Hnew & Hmem).
    cbn [fst snd].
    assert (∀ x, x ∈ N → Env.around curr x ∧ Env.inside st x
                           ∧ x ∉ vis ∧ x ∉ Env.flags st
                           ∧ x ∉ vtd) as HN1.
    { intros x (H1 & H2 & H3 & H4 & H5)%HN. apply elem_of_around in H1.
      split_and!; try done. clear -H3. set_solver. }
    assert (∀ x, Env.around curr x → Env.inside st x → x ≠ curr →
                 x ∉ vis → x ∉ Env.flags st → x ∉ vtd → x ∈ N) as HN2.
    { intros x H1 H2 H3 H4 H5 H6. apply HN. apply elem_of_around in H1.
      split_and!; try done. clear -H3 H4. set_solver. }
    clear HN.
    assert (curr ∈ vtd) as Hcv.
    { apply Hsub, elem_of_union_r, elem_of_list_to_set. by left. }
    assert (∀ x, x ∈ stack → x ∈ vtd) as Hstv.
    { intros x Hx. apply Hsub, elem_of_union_r, elem_of_list_to_set.
      by right. }
    assert (∀ x, x ∈ P → x ∈ vtd) as HPv.
    { intros x Hx. by apply Hsub, elem_of_union_l. }
    assert (∀ x, x ∈ stack → x ∉ P) as HsP.
    { intros x Hx HxP. apply (Hdisj x); [|done].
      apply elem_of_list_to_set. by right. }
    assert (curr ∉ P) as HcP.
    { intros HxP. apply (Hdisj curr); [|done].
      apply elem_of_list_to_set. by left. }
    assert (start ∈ vtd) as Hsv.
    { destruct Hstart as [?|[= -> _]]; [by apply HPv | done]. }
    assert (V0 ⊆ vis) as HV0 by (clear -Ha; set_solver).
    assert (∀ x, x ∈ vtd → x ≠ start → x ∈ vis) as Hvv
      by (clear -Ha; set_solver).
    assert (P ⊆ vis) as HPvis by (clear -Ha; set_solver).
    destruct (IH (new ++ stack) (N ∪ ({[curr]} ∪ vis)) (N ∪ vtd)
                ({[curr]} ∪ P))
      as (vis' & vtd' & P' & Hfill & Hvis & Hrest).
    + apply NoDup_app. split_and!; [done | | done].
      intros x [Hx _]%Hmem Hx'. apply HN1 in Hx as (_ & _ & _ & _ & Hx).
      by apply Hx, Hstv.
    + rewrite list_to_set_app_L. intros x Hx1 Hx2.
      apply elem_of_union in Hx1 as [Hx1|Hx1];
        apply elem_of_list_to_set in Hx1.
      * apply Hmem in Hx1 as [Hx1 _].
        apply HN1 in Hx1 as (_ & _ & _ & _ & Hx1). apply Hx1.
        apply elem_of_union in Hx2 as [->%elem_of_singleton|Hx2];
          [done | by apply HPv].
      * apply elem_of_union in Hx2 as [->%elem_of_singleton|Hx2];
          [done | by apply (HsP x)].
    + rewrite list_to_set_app_L. intros x Hx.
      rewrite !elem_of_union, !elem_of_list_to_set in Hx.
      destruct Hx as [[->%elem_of_singleton|Hx]|[[Hx _]%Hmem|Hx]].
      * by apply elem_of_union_r.
      * by apply elem_of_union_r, HPv.
      * by apply elem_of_union_l.
      * by apply elem_of_union_r, Hstv.
    + intros c [Hc|Hc]%elem_of_union;
        [apply HN1 in Hc; tauto | by apply Hin].
    + left. destruct Hstart as [?|[= -> _]];
        [by apply elem_of_union_r
        |by apply elem_of_union_l, elem_of_singleton].
    + intros x Hx. clear -Ha Hx. set_solver.
    + intros x Hx. clear -Hb Hcv Hx. set_solver.
    + intros c [Hc|Hc]%elem_of_union Hne.
      * apply HN1 in Hc as (Har & _ & Hv & Hf & _).
        split_and!; [by intros ?%HV0 | done |].
        exists curr. split; [|done].
        by apply elem_of_union_l, elem_of_singleton.
      * destruct (Hsound c Hc Hne) as (H1 & H2 & p & Hp & Har).
        split_and!; [done | done |].
        exists p. split; [by apply elem_of_union_r | done].
    + intros c [Hc|Hc]%elem_of_union Hz.
      * right. apply elem_of_app. left. apply Hmem. split; [done|].
        destruct Hz as [->|Hz]; [|done]. apply HN1 in Hc. tauto.
      * destruct (Hzero c Hc Hz) as [?|[->|?]%elem_of_cons].
        -- left. by apply elem_of_union_r.
        -- left. by apply elem_of_union_l, elem_of_singleton.
        -- right. apply elem_of_app. by right.
    + intros c [[->%elem_of_singleton|Hc]%elem_of_union
               |[[_ Hc]%Hmem|Hc]%elem_of_app].
      * apply Helem. right. by left.
      * apply Helem. by left.
      * by right.
      * apply Helem. right. by right.
    + intros p n [->%elem_of_singleton|Hp]%elem_of_union Har Hn Hf.
      * destruct (decide (n ∈ vis)) as [?|Hnv];
          [by do 2 apply elem_of_union_r|].
        destruct (decide (n ∈ vtd)) as [Hnt|Hnt].
        -- exfalso. apply Hnv.
           destruct (decide (n = start)) as [->|Hne]; [|by apply Hvv].
           destruct Hstart as [?|[= -> _]]; [by apply HPvis|].
           destruct Har as [Har _]. done.
        -- apply elem_of_union_l. destruct Har as [Hne Har'].
           apply HN2; done.
      * do 2 apply elem_of_union_r. by eapply Hclosed.
    + rewrite length_app. cbn [length] in Hfuel.
      assert (length new ≤ size N)%nat as Hlen.
      { rewrite <-(size_list_to_set (C := gset Cell) new) by done.
        apply subseteq_size. intros x Hx%elem_of_list_to_set.
        by apply Hmem in Hx as [? _]. }
      assert ((list_to_set (Env.cells st) : gset Cell) ∖ vtd
              = ((list_to_set (Env.cells st) : gset Cell) ∖ (N ∪ vtd)) ∪ N)
        as Hsplit.
      { apply set_eq. intros x.
        rewrite !elem_of_union, !elem_of_difference, elem_of_union,
          elem_of_list_to_set, elem_of_cells.
        destruct (decide (x ∈ N)) as [Hx|Hx]; [|tauto].
        apply HN1 in Hx as Hx'. tauto. }
      rewrite Hsplit, size_union in Hfuel by (clear; set_solver). lia.
    + exists vis', vtd', P'. split; [done|].
      destruct Hrest as (H1 & H2 & H3 & H4 & H5 & H6 & H7 & H8 & H9).
      assert (vis ⊆ vis') by (clear -Hvis; set_solver).
      split_and!; try done.
Qed.

End Loop.

End FloodFill.

(** X15. With an iteration bound of at least the number of cells,
    [_flood_fill] from a cell of the board returns.  It keeps what was
    visible and reveals the cell; every cell it newly reveals is on the
    board, unflagged, and next to the clicked cell or to a newly revealed
    cell showing 0; and around the clicked cell, whatever number it shows,
    and around every newly revealed cell showing 0, all unflagged cells of
    the board end up visible, whether they hold a mine or not. *)
Theorem flood_fill_reveals (fuel : nat) (st : Env.state) (cell : Cell) :
  Env.inside st cell → (length (Env.cells st) ≤ fuel)%nat →
  ∃ vis, Env.flood_fill fuel st cell = Some vis
    ∧ Env.visible st ⊆ vis ∧ cell ∈ vis
    ∧ (∀ c, c ∈ vis →
            c ∈ Env.visible st ∨ c = cell
            ∨ (Env.inside st c ∧ c ∉ Env.flags st
               ∧ ∃ p, p ∈ vis ∧ Env.around p c
                      ∧ (p = cell
                         ∨ (p ∉ Env.visible st
                            ∧ Env.grid_at (Env.grid st) p = 0))))
    ∧ (∀ c n, c ∈ vis →
              c = cell ∨ (c ∉ Env.visible st
                          ∧ Env.grid_at (Env.grid st) c = 0) →
              Env.around c n → Env.inside st n → n ∉ Env.flags st → n ∈ vis).
Proof.
  intros Hin Hfuel. unfold Env.flood_fill.
  destruct (fill_spec st (Env.visible st) cell fuel [cell] (Env.visible st)
              {[cell]} ∅)
    as (vis & vtd & P & Hfill & Hvis & Hstart & HP & HPv & Hb & Hins & Hsound
        & Hzero & Helem & Hclosed).
  - apply NoDup_singleton.
  - set_solver.
  - cbn. set_solver.
  - by intros c ->%elem_of_singleton.
  - by right.
  - set_solver.
  - set_solver.
  - intros c ->%elem_of_singleton Hne. done.
  - intros c ->%elem_of_singleton _. right. by left.
  - intros c [Hc | ->%list_elem_of_singleton]; [set_solver | by left].
  - intros p n Hp. set_solver.
  - cbn [length].
    assert (cell ∈ (list_to_set (Env.cells st) : gset Cell)) as Hcell
      by by apply elem_of_list_to_set, elem_of_cells.
    pose proof (size_union_alt ({[cell]} : gset Cell)
                  (list_to_set (Env.cells st))) as Hu.
    rewrite size_singleton in Hu.
    assert ({[cell]} ∪ list_to_set (Env.cells st)
            = (list_to_set (Env.cells st) : gset Cell)) as Heq by set_solver.
    rewrite Heq, (size_list_to_set (Env.cells st)) in Hu
      by apply NoDup_cells.
    lia.
  - exists vis. split_and!; [done | done | by apply HP | |].
    + intros c Hc. apply Hb in Hc as [Hc|Hc]%elem_of_union; [by left|].
      destruct (decide (c = cell)) as [->|Hne]; [right; by left|].
      right; right. destruct (Hsound c Hc Hne) as (H1 & H2 & p & Hp & Har).
      split_and!; [by apply Hins | done |].
      exists p. split_and!; [by apply HP | done |].
      destruct (decide (p = cell)) as [->|Hpne]; [by left|]. right.
      assert (p ∈ vtd) as Hpv by by apply HPv.
      destruct (Hsound p Hpv Hpne) as (H1' & _).
      split; [done|]. destruct (Helem p Hp) as [?|?]; done.
    + intros c n Hc Hcz Har Hn Hf.
      assert (c ∈ P) as HcP.
      { destruct Hcz as [->|[Hv Hz]]; [done|].
        apply Hzero; [|by right].
        apply Hb in Hc. set_solver. }
      by eapply Hclosed.
Qed.

Lemma flood_fill_reveals_one_corner :
  (Env.inside Rounds.one_corner (1, 1)
   ∧ (length (Env.cells Rounds.one_corner) ≤ 9)%nat)
  ∧ ∃ vis, Env.flood_fill 9 Rounds.one_corner (1, 1) = Some vis
           ∧ (0, 0) ∈ Env.mine_cells Rounds.one_corner
           ∧ (0, 0) ∈ vis.
Proof.
  assert (Env.inside Rounds.one_corner (1, 1)) as Hin by by_evaluation.
  assert (length (Env.cells Rounds.one_corner) ≤ 9)%nat as Hlen
    by by_evaluation.
  split; [done|].
  destruct (flood_fill_reveals 9 Rounds.one_corner (1, 1) Hin Hlen)
    as (vis & Hfill & _ & Hcell & _ & Hclosed).
  exists vis. split_and!; [done | by apply elem_of_mine_cells |].
  apply (Hclosed (1, 1) (0, 0)); [done | by left | | |].
  - unfold Env.around. cbn. split; [done | lia].
  - by_evaluation.
  - cbn. apply not_elem_of_empty.
Defined.

(** * The environment: [step] *)

Section Step.
Implicit Types (st : Env.state) (c cell : Cell) (fl : gset Cell)
               (action : Action).

Lemma toggle_toggle fl c : Env.toggle (Env.toggle fl c) c = fl.
Proof.
  unfold Env.toggle. destruct (decide (c ∈ fl)) as [Hc|Hc].
  - rewrite decide_False by set_solver. apply set_eq. intros x.
    destruct (decide (x = c)) as [->|Hne]; set_solver.
  - rewrite decide_True by set_solver. apply set_eq. intros x.
    destruct (decide (x = c)) as [->|Hne]; set_solver.
Qed.

(** Whatever the loop of [_flood_fill] returns keeps what was visible
    and adds cells of the stack and of the board only. *)
Lemma fill_grows (fuel : nat) st (stack : list Cell) (vis vtd vis' : gset Cell) :
  Env.fill fuel st stack vis vtd = Some vis' →
  vis ⊆ vis' ∧ ∀ c, c ∈ vis' → c ∈ vis ∨ c ∈ stack ∨ Env.inside st c.
Proof.
  revert stack vis vtd.
  induction fuel as [|fuel IH]; intros stack vis vtd Hfill.
  - destruct stack; [|done]. injection Hfill as <-. split; [done|]. auto.
  - destruct stack as [|curr stack]; cbn [Env.fill] in Hfill.
    { injection Hfill as <-. split; [done|]. auto. }
    rewrite fill_neighbor_fold in Hfill.
    destruct (reveal_fold st _ stack ({[curr]} ∪ vis) vtd (NoDup_around curr))
      as (new & N & Hfold & HN & _ & Hnew).
    rewrite Hfold in Hfill. cbn [fst snd] in Hfill.
    apply IH in Hfill as [Hsub Hall]. split.
    + clear -Hsub. set_solver.
    + intros c Hc. apply Hall in Hc as [Hc|[Hc|Hc]]; [| |by auto].
      * apply elem_of_union in Hc as [Hc|Hc].
        -- apply HN in Hc. tauto.
        -- apply elem_of_union in Hc as [->%elem_of_singleton|Hc];
             [right; left; by left | by left].
      * apply elem_of_app in Hc as [Hc|Hc].
        -- apply Hnew in Hc as [Hc _]. apply HN in Hc. tauto.
        -- right; left. by right.
Qed.

(** The ways through [step]. *)
Lemma step_inv (fuel seed : nat) action st st' (reward : Z) (done : bool)
    (info : option Env.Result) :
  Env.step fuel seed action st = Some (st', reward, done, info) →
  (¬ Env.inside st action.1 ∧ st' = st ∧ reward = -1 ∧ done = false
   ∧ info = None)
  ∨ (Env.inside st action.1
     ∧ ∃ st1,
         ((Env.mines_placed st = false ∧ action.2 = 0
           ∧ Env.place_mines seed action.1 st = Some st1)
          ∨ (¬ (Env.mines_placed st = false ∧ action.2 = 0) ∧ st1 = st))
         ∧ ((action.2 = 1
             ∧ st' = (if decide (action.1 ∉ Env.visible st1)
                      then Env.with_flags st1
                             (Env.toggle (Env.flags st1) action.1)
                      else st1)
             ∧ reward = 0 ∧ done = false ∧ info = None)
            ∨ (action.2 ≠ 1
               ∧ (action.1 ∈ Env.flags st1 ∨ action.1 ∈ Env.visible st1)
               ∧ st' = st1 ∧ reward = -1 ∧ done = false ∧ info = None)
            ∨ (action.2 ≠ 1
               ∧ ¬ (action.1 ∈ Env.flags st1 ∨ action.1 ∈ Env.visible st1)
               ∧ Env.grid_at (Env.grid st1) action.1 = -1
               ∧ st' = Env.mk (Env.width st1) (Env.height st1)
                         (Env.mines st1) (Env.grid st1)
                         ({[action.1]} ∪ Env.visible st1) (Env.flags st1)
                         (Env.mines_placed st1) true
               ∧ reward = -100 ∧ done = true ∧ info = Some Env.lose)
            ∨ (action.2 ≠ 1
               ∧ ¬ (action.1 ∈ Env.flags st1 ∨ action.1 ∈ Env.visible st1)
               ∧ Env.grid_at (Env.grid st1) action.1 ≠ -1
               ∧ ∃ vis, Env.flood_fill fuel st1 action.1 = Some vis
                   ∧ st' = Env.with_visible st1 vis
                   ∧ ((reward = 100 ∧ done = true ∧ info = Some Env.win
                       ∧ Z.of_nat (size vis)
                         = Env.width st1 * Env.height st1 - Env.mines st1)
                      ∨ (reward = 1 ∧ done = false ∧ info = None
                         ∧ Z.of_nat (size vis)
                           ≠ Env.width st1 * Env.height st1
                             - Env.mines st1))))).
Proof.
  unfold Env.step. cbn zeta.
  destruct (decide (¬ Env.inside st action.1)) as [Hout|Hin].
  { intros [= <- <- <- <-]. left. done. }
  apply dec_stable in Hin. intros Hstep. right. split; [done|].
  destruct (decide (Env.mines_placed st = false ∧ action.2 = 0))
    as [[Hmp Ht]|Hno].
  - destruct (Env.place_mines seed action.1 st) as [st1|] eqn:Hpl; [|done].
    cbn in Hstep. exists st1. split; [left; done|].
    rewrite decide_False in Hstep by lia.
    destruct (decide (action.1 ∈ Env.flags st1 ∨ action.1 ∈ Env.visible st1))
      as [Hfv|Hfv].
    { injection Hstep as <- <- <- <-. right; left.
      split_and!; try done. lia. }
    destruct (decide (Env.grid_at (Env.grid st1) action.1 = -1)) as [Hm|Hm].
    { injection Hstep as <- <- <- <-. right; right; left.
      split_and!; try done. lia. }
    destruct (Env.flood_fill fuel st1 action.1) as [vis|] eqn:Hff; [|done].
    cbn in Hstep. right; right; right.
    split_and!; [lia | done | done |]. exists vis. split; [done|].
    case_decide; injection Hstep as <- <- <- <-;
      (split; [done|]); [left | right]; done.
  - cbn in Hstep. exists st. split; [right; done|].
    destruct (decide (action.2 = 1)) as [Ht|Ht].
    { injection Hstep as <- <- <- <-. left. done. }
    destruct (decide (action.1 ∈ Env.flags st ∨ action.1 ∈ Env.visible st))
      as [Hfv|Hfv].
    { injection Hstep as <- <- <- <-. right; left. done. }
    destruct (decide (Env.grid_at (Env.grid st) action.1 = -1)) as [Hm|Hm].
    { injection Hstep as <- <- <- <-. right; right; left. done. }
    destruct (Env.flood_fill fuel st action.1) as [vis|] eqn:Hff; [|done].
    cbn in Hstep. right; right; right.
    split_and!; [done | done | done |]. exists vis. split; [done|].
    case_decide; injection Hstep as <- <- <- <-;
      (split; [done|]); [left | right]; done.
Qed.

End Step.

(** X16. A flag action never fails, never ends the game, never reveals a
    cell and never touches the grid; it is undone by the same action: two
    flag actions on a cell leave the environment as it was. *)
Theorem flag_twice (fuel seed : nat) (cell : Cell) (st : Env.state) :
  ∃ st1 reward,
    Env.step fuel seed (cell, 1) st = Some (st1, reward, false, None)
    ∧ Env.visible st1 = Env.visible st ∧ Env.grid st1 = Env.grid st
    ∧ Env.mines_placed st1 = Env.mines_placed st
    ∧ Env.step fuel seed (cell, 1) st1 = Some (st, reward, false, None).
Proof.
  unfold Env.step. cbn [fst snd].
  destruct (decide (¬ Env.inside st cell)) as [Hout|Hin].
  { exists st, (-1). rewrite decide_True by done. done. }
  rewrite (decide_False (P := Env.mines_placed st = false ∧ 1 = 0))
    by (intros [_ [=]]).
  cbn. destruct (decide (cell ∉ Env.visible st)) as [Hv|Hv].
  - eexists _, 0. split_and!; [done ..|].
    apply dec_stable in Hin.
    rewrite (decide_False (P := ¬ Env.inside _ cell)) by (by intros ?).
    rewrite (decide_False (P := _ ∧ 1 = 0)) by (intros [_ [=]]).
    unfold Env.with_flags. cbn.
    rewrite (decide_True (P := cell ∉ Env.visible st)) by done.
    cbn. rewrite toggle_toggle. by destruct st.
  - exists st, 0. split_and!; [done ..|].
    rewrite decide_False by done.
    rewrite (decide_False (P := _ ∧ 1 = 0)) by (intros [_ [=]]).
    cbn. by rewrite (decide_False (P := cell ∉ Env.visible st)) by done.
Qed.

(** * The environment during a game *)

Section Board.
Variables (w h m : Z).
Implicit Types (st : Env.state) (c cell : Cell).

(** What holds of every environment of a game. *)
Lemma reachable_board st :
  Env.reachable w h m st →
  (Env.width st = w ∧ Env.height st = h ∧ Env.mines st = m)
  ∧ (∀ c, c ∈ Env.visible st → Env.inside st c)
  ∧ (Env.mines_placed st = false → Env.grid st = ∅ ∧ Env.visible st = ∅)
  ∧ (Env.mines_placed st = true →
     Z.of_nat (size (Env.mine_cells st)) = m
     ∧ (∀ c, c ∈ Env.mine_cells st → Env.inside st c)
     ∧ ∀ c, Env.inside st c → c ∉ Env.mine_cells st →
            Env.grid_at (Env.grid st) c
            = MinesweeperEnv.number h w (Env.mine_cells st) c).
Proof.
  induction 1 as [|st fuel seed action st' reward done info Hr IH Htype Hstep].
  { split; [done|]. split; [|split; done].
    intros c Hc. cbn in Hc. set_solver. }
  destruct IH as ((Hw & Hh & Hm) & Hvis & Hnot & Hplaced).
  apply step_inv in Hstep as [(_ & -> & _)|(Hin & st1 & Hprep & Hrest)];
    [done|].
  assert ((Env.width st1 = w ∧ Env.height st1 = h ∧ Env.mines st1 = m)
          ∧ (∀ c, c ∈ Env.visible st1 → Env.inside st1 c)
          ∧ (Env.mines_placed st1 = false →
             Env.grid st1 = ∅ ∧ Env.visible st1 = ∅)
          ∧ (Env.mines_placed st1 = true →
             Z.of_nat (size (Env.mine_cells st1)) = m
             ∧ (∀ c, c ∈ Env.mine_cells st1 → Env.inside st1 c)
             ∧ ∀ c, Env.inside st1 c → c ∉ Env.mine_cells st1 →
                    Env.grid_at (Env.grid st1) c
                    = MinesweeperEnv.number h w (Env.mine_cells st1) c))
    as ((Hw1 & Hh1 & Hm1) & Hvis1 & Hnot1 & Hplaced1).
  { destruct Hprep as [(Hmp & _ & Hpl)|[_ ->]]; [|done].
    destruct (Hnot Hmp) as [Hg Hv].
    destruct (place_mines_spec seed action.1 st st1) as
      (H1 & H2 & H3 & H4 & H5 & H6 & H7 & H8 & H9 & H10 & _); [|done|].
    { intros c. unfold Env.grid_at. rewrite Hg, lookup_empty. done. }
    assert (∀ c, Env.inside st1 c ↔ Env.inside st c) as Hins.
    { intros c. unfold Env.inside. by rewrite H8, H9. }
    split; [split_and!; congruence|]. split; [|split].
    - intros c. rewrite H6, Hv. set_solver.
    - congruence.
    - intros _. split_and!; [congruence | |].
      + intros c Hc. by apply Hins, H3.
      + intros c Hc%Hins HcM. rewrite H4 by done. by rewrite Hw, Hh. }
  assert (∀ c, Env.inside st1 c ↔ Env.inside st c) as Hins.
  { intros c. unfold Env.inside. by rewrite Hw, Hh, Hw1, Hh1. }
  destruct Hrest as [(_ & -> & _)|[(_ & _ & -> & _)
                     |[(_ & _ & Hmine & -> & _)
                      |(Hne & _ & Hsafe & vis & Hff & -> & _)]]].
  - destruct (decide (action.1 ∉ Env.visible st1)); [|done].
    done.
  - done.
  - assert (Env.mines_placed st1 = true) as Hmp.
    { destruct (Env.mines_placed st1) eqn:Hmp; [done|].
      destruct (Hnot1 eq_refl) as [Hg _]. unfold Env.grid_at in Hmine.
      rewrite Hg, lookup_empty in Hmine. done. }
    split; [done|]. split; [|split; [by rewrite Hmp | done]].
    cbn. intros c [->%elem_of_singleton|Hc]%elem_of_union;
      [by apply Hins | by apply Hvis1].
  - unfold Env.flood_fill in Hff. apply fill_grows in Hff as [_ Hall].
    split; [done|]. split; [|split; [|done]].
    + cbn. intros c Hc. apply Hall in Hc as [Hc|[Hc|Hc]];
        [by apply Hvis1 | | done].
      apply list_elem_of_singleton in Hc as ->. by apply Hins.
    + cbn. intros Hmp. destruct Htype as [Ht|Ht].
      * destruct Hprep as [(_ & _ & Hpl)|[Hno ->]].
        -- destruct (Hnot1 Hmp) as [Hg _].
           unfold Env.place_mines in Hpl.
           destruct (Env.sample _ _ _); [|done]. cbn in Hpl.
           injection Hpl as <-. done.
        -- exfalso. apply Hno. done.
      * by exfalso.
Qed.

Lemma obs_negative_before st c :
  Env.visible st = ∅ → Env.get_obs st c < 0.
Proof.
  intros Hv. unfold Env.get_obs. rewrite Hv.
  case_decide; [|lia]. rewrite decide_False by set_solver.
  case_decide; lia.
Qed.

Lemma obs_truthful st :
  Env.reachable w h m st →
  truthful (Env.mine_cells st) h w (Env.get_obs st).
Proof.
  intros (_ & _ & Hnot & Hplaced)%reachable_board cell Hobs.
  destruct (Env.mines_placed st) eqn:Hmp.
  - destruct (Hplaced eq_refl) as (_ & _ & Hnum).
    unfold Env.get_obs in *.
    destruct (decide (Env.inside st cell)) as [Hin|Hin]; [|lia].
    destruct (decide (cell ∈ Env.visible st)); [|case_decide; lia].
    assert (cell ∉ Env.mine_cells st) as HcM.
    { rewrite elem_of_mine_cells. lia. }
    split; [done | by apply Hnum].
  - destruct (Hnot eq_refl) as [_ Hv].
    pose proof (obs_negative_before st cell Hv). lia.
Qed.

(** Once the mines are placed, no step moves them. *)
Lemma step_keeps_mines (fuel seed : nat) (action : Action) st st'
    (reward : Z) (done : bool) (info : option Env.Result) :
  Env.mines_placed st = true →
  Env.step fuel seed action st = Some (st', reward, done, info) →
  Env.grid st' = Env.grid st ∧ Env.mines_placed st' = true
  ∧ Env.mine_cells st' = Env.mine_cells st.
Proof.
  intros Hmp Hstep.
  assert (Env.grid st' = Env.grid st ∧ Env.mines_placed st' = true)
    as [Hg Hp].
  { apply step_inv in Hstep as [(_ & -> & _)|(Hin & st1 & Hprep & Hrest)];
      [done|].
    destruct Hprep as [(Hno & _)|[_ ->]]; [congruence|].
    destruct Hrest as [(_ & -> & _)|[(_ & _ & -> & _)
                       |[(_ & _ & _ & -> & _)|(_ & _ & _ & vis & _ & -> & _)]]];
      try done.
    by destruct (decide (action.1 ∉ Env.visible st)). }
  split_and!; [done | done |]. unfold Env.mine_cells. by rewrite Hg.
Qed.

End Board.

(** X17. In every environment a game of reveal and flag actions reaches,
    the observation is truthful: a cell that shows a number holds no mine,
    and the number is the count of mines among its neighbours; no number
    is shown before the mines are placed; once they are placed there are
    exactly [mines] of them, all on the board, and no later step moves
    them. *)
Theorem env_observation_truthful (width height mines : Z) (st : Env.state) :
  Env.reachable width height mines st →
  truthful (Env.mine_cells st) height width (Env.get_obs st)
  ∧ (Env.mines_placed st = false → ∀ c, Env.get_obs st c < 0)
  ∧ (Env.mines_placed st = true →
     Z.of_nat (size (Env.mine_cells st)) = mines
     ∧ (∀ c, c ∈ Env.mine_cells st →
             0 <= c.1 < height ∧ 0 <= c.2 < width)
     ∧ ∀ (fuel seed : nat) action st' reward done info,
         Env.step fuel seed action st = Some (st', reward, done, info) →
         Env.mine_cells st' = Env.mine_cells st).
Proof.
  intros Hr.
  pose proof (reachable_board _ _ _ _ Hr)
    as ((Hw & Hh & Hm) & Hvis & Hnot & Hplaced).
  split_and!.
  - by apply (obs_truthful _ _ mines).
  - intros Hmp c. destruct (Hnot Hmp) as [_ Hv].
    by apply obs_negative_before.
  - intros Hmp. destruct (Hplaced Hmp) as (Hsize & Hin & _).
    split_and!; [done | |].
    + intros c Hc%Hin. unfold Env.inside in Hc. by rewrite Hw, Hh in Hc.
    + intros fuel seed action st' reward done info Hstep.
      by destruct (step_keeps_mines fuel seed action st st' reward done info
                     Hmp Hstep) as (_ & _ & ?).
Qed.

Lemma env_observation_truthful_first_click :
  ∃ st, Env.reachable 2 2 1 st ∧ Env.mines_placed st = true
        ∧ truthful (Env.mine_cells st) 2 2 (Env.get_obs st)
        ∧ Z.of_nat (size (Env.mine_cells st)) = 1.
Proof.
  destruct (Env.step 4 0 (0, 0, 0) (Env.fresh 2 2 1))
    as [[[[st reward] done] info]|] eqn:Hstep; [|by vm_compute in Hstep].
  assert (Env.reachable 2 2 1 st) as Hr.
  { eapply Env.reach_step; [apply Env.reach_fresh | | exact Hstep]. by left. }
  assert (Env.mines_placed st = true) as Hmp.
  { vm_compute in Hstep. by injection Hstep as <- _ _ _. }
  exists st. split; [done|]. split; [done|].
  destruct (env_observation_truthful 2 2 1 st Hr) as (H1 & _ & H3).
  destruct (H3 Hmp) as (H4 & _). done.
Defined.

(** * The agent and the environment together *)

Section Together.
Variables (w h m : Z).
Implicit Types (env : Env.state) (st : state) (c cell : Cell)
               (obs : Observation) (a : Action).

Lemma sync_reachable (M : gset Cell) (fuel : nat) obs (l : list Cell) st st' :
  reachable M h w st → truthful M h w obs →
  sync fuel obs l st = Some st' → reachable M h w st'.
Proof.
  intros Hr Hobs. revert st Hr.
  induction l as [|cell l IH]; intros st Hr Hs; cbn [sync] in Hs.
  - by injection Hs as <-.
  - destruct (decide (obs cell >= 0)) as [Hpos|Hneg];
      [destruct (decide (cell ∉ moves_made st)) as [Hnew|Hold]|];
      cbn in Hs; [|by apply (IH st) ..].
    destruct (add_knowledge fuel cell (obs cell) st) as [st1|] eqn:Hadd;
      [|done]. cbn in Hs. apply (IH st1); [|done].
    unfold add_knowledge in Hadd.
    eapply reachable_infer_knowledge; [|done].
    destruct (Hobs cell Hpos) as [HcM Hnum]. rewrite Hnum.
    by apply reach_ingest.
Qed.

Lemma sync_nothing (fuel : nat) obs (l : list Cell) st :
  (∀ c, obs c < 0) → sync fuel obs l st = Some st.
Proof.
  intros Hobs. induction l as [|cell l IH]; [done|]. cbn [sync].
  rewrite decide_False by (specialize (Hobs cell); lia). cbn. done.
Qed.

(** The value the embedded [get_action] returns is one of those the
    source may return. *)
Lemma get_action_may_return (fuel rnd : nat) obs st st' a :
  get_action fuel rnd obs st = Some (st', Some a) →
  sync fuel obs (grid st) st = Some st' ∧ Game.may_return st' a.
Proof.
  unfold get_action.
  destruct (sync fuel obs (grid st) st) as [st1|]; [|done]. cbn.
  pose proof (safe_move_spec st1) as Hspec.
  destruct (safe_move st1) as [a0|] eqn:Hsafe.
  - intros [= <- <-]. split; [done|]. left.
    destruct Hspec as (Ht & Hin & Hnew). destruct a0 as [[r c] t].
    cbn in *. subst t. by exists (r, c).
  - destruct (possible_moves st1) as [|p l] eqn:Hp; [done|].
    intros [= <- Ha]. split; [done|]. right. split; [done|].
    destruct (random_choice rnd (p :: l)) as [move|] eqn:Hmove; [|done].
    injection Ha as <-. exists move. split; [|done].
    rewrite Hp. by apply random_choice_elem in Hmove.
Qed.

Lemma may_return_reveals st a : Game.may_return st a → a.2 = 0.
Proof. by intros [(safe & _ & _ & ->)|(_ & move & _ & ->)]. Qed.

(** What holds of the environment and the agent throughout the loop. *)
Lemma game_invariant env st :
  Game.reachable w h m env st →
  Env.reachable w h m env
  ∧ (Env.mines_placed env = true → reachable (Env.mine_cells env) h w st)
  ∧ (Env.mines_placed env = false → st = init h w).
Proof.
  induction 1 as [|env st fuel fuel' seed st' a env' reward done info
                   Hg IH Hsync Hact Hstep].
  - split_and!; [apply Env.reach_fresh | done | done].
  - destruct IH as (Henv & Hplaced & Hnot).
    apply may_return_reveals in Hact as Ha.
    assert (Env.reachable w h m env') as Henv'.
    { eapply Env.reach_step; [done | | done]. by left. }
    split; [done|].
    destruct (Env.mines_placed env) eqn:Hmp.
    + destruct (step_keeps_mines fuel' seed a env env' reward done info
                  Hmp Hstep) as (_ & Hmp' & HM).
      split; [|congruence]. intros _. rewrite HM.
      eapply sync_reachable; [by apply Hplaced | | done].
      by apply (obs_truthful _ _ m).
    + assert (st' = init h w) as ->.
      { destruct (reachable_board _ _ _ _ Henv) as (_ & _ & Hno & _).
        destruct (Hno Hmp) as [_ Hv].
        rewrite sync_nothing in Hsync by (intros c; by apply obs_negative_before).
        injection Hsync as <-. by apply Hnot. }
      split; [|done]. intros _. apply reach_init.
Qed.

End Together.

(** X18. In the driver loop of the CSP agent against the environment,
    whichever of the actions [get_action] may return is taken in each
    round (any recorded safe cell not yet acted on, in whatever order the
    set is run through; any possible move when there is none), an action
    on a cell the agent has recorded as safe never hits a mine, and
    neither does the first reveal of a game: the step is not rewarded
    -100, does not report ['lose'] and does not set [exploded].  A game can
    only be lost on a guess. *)
Theorem safe_moves_never_explode (width height mines : Z)
    (env env' : Env.state) (st st' : state) (fuel fuel' seed : nat)
    (action : Action) (reward : Z) (done : bool)
    (info : option Env.Result) :
  Game.reachable width height mines env st →
  sync fuel (Env.get_obs env) (grid st) st = Some st' →
  Game.may_return st' action →
  Env.step fuel' seed action env = Some (env', reward, done, info) →
  action.1 ∈ safes st' ∨ Env.mines_placed env = false →
  reward ≠ -100 ∧ info ≠ Some Env.lose
  ∧ Env.exploded env' = Env.exploded env.
Proof.
  intros Hgame Hsync Hact Hstep Hwhy.
  destruct (game_invariant _ _ _ _ _ Hgame) as (Henv & Hplaced & Hnot).
  apply may_return_reveals in Hact as Ha.
  destruct (reachable_board _ _ _ _ Henv) as (_ & _ & Hno & _).
  assert (∀ st1,
            (Env.mines_placed env = false ∧ action.2 = 0
             ∧ Env.place_mines seed action.1 env = Some st1)
            ∨ (¬ (Env.mines_placed env = false ∧ action.2 = 0) ∧ st1 = env) →
            Env.grid_at (Env.grid st1) action.1 ≠ -1
            ∧ Env.exploded st1 = Env.exploded env) as Hsafe.
  { intros st1 [(Hmp & _ & Hpl)|[Hne ->]].
    - destruct (Hno Hmp) as [Hgrid _].
      destruct (place_mines_spec seed action.1 env st1)
        as (_ & Hcell & _ & _ & _ & _ & _ & _ & _ & _ & Hex); [|done|].
      + intros c. unfold Env.grid_at. by rewrite Hgrid, lookup_empty.
      + split; [|done]. by rewrite <-elem_of_mine_cells.
    - split; [|done]. destruct Hwhy as [Hin|Hmp].
      + destruct (Env.mines_placed env) eqn:Hmp; [|exfalso; by apply Hne].
        assert (reachable (Env.mine_cells env) height width st') as Hr.
        { eapply sync_reachable; [by apply Hplaced | | done].
          by apply (obs_truthful _ _ mines). }
        apply reachable_agrees in Hr as [Hsafes _ _ _].
        rewrite <-elem_of_mine_cells. intros HM. by apply (Hsafes action.1).
      + exfalso. by apply Hne. }
  apply step_inv in Hstep as [(_ & -> & -> & _ & ->)|(Hin & st1 & Hprep & Hrest)];
    [done|].
  destruct (Hsafe st1 Hprep) as [Hgrid Hex].
  destruct Hrest as [(_ & -> & -> & _ & ->)|[(_ & _ & -> & -> & _ & ->)
                     |[(_ & _ & Hmine & _)
                      |(_ & _ & _ & vis & _ & -> & Hres)]]].
  - split_and!; [done | done |].
    by destruct (decide (action.1 ∉ Env.visible st1)).
  - done.
  - done.
  - destruct Hres as [(-> & _ & -> & _)|(-> & _ & -> & _)]; done.
Qed.

Lemma safe_moves_never_explode_first_click :
  (Game.reachable 2 2 1 (Env.fresh 2 2 1) (init 2 2)
   ∧ sync 5 (Env.get_obs (Env.fresh 2 2 1)) (grid (init 2 2)) (init 2 2)
     = Some (init 2 2)
   ∧ Game.may_return (init 2 2) (1, 1, 0)
   ∧ Env.mines_placed (Env.fresh 2 2 1) = false)
  ∧ ∃ env' reward done info,
      Env.step 4 0 (1, 1, 0) (Env.fresh 2 2 1)
      = Some (env', reward, done, info)
      ∧ reward ≠ -100.
Proof.
  assert (sync 5 (Env.get_obs (Env.fresh 2 2 1)) (grid (init 2 2)) (init 2 2)
          = Some (init 2 2)) as Hsync by (vm_compute; reflexivity).
  assert (Game.may_return (init 2 2) (1, 1, 0)) as Hmay.
  { right. split; [done|]. exists (1, 1). split; [by_evaluation | done]. }
  split; [split_and!; [apply Game.start | done | done | done]|].
  destruct (Env.step 4 0 (1, 1, 0) (Env.fresh 2 2 1))
    as [[[[env' reward] done] info]|] eqn:Hstep; [|by vm_compute in Hstep].
  exists env', reward, done, info. split; [done|].
  destruct (safe_moves_never_explode 2 2 1 _ _ _ _ _ _ _ _ _ _ _
              (Game.start 2 2 1) Hsync Hmay Hstep) as (H1 & _);
    [by right | done].
Defined.
